(** * Company data access layer: storage contract, its two implementations,
      the routes over it and the client code around it.

    Shallow embedding of
      - [server/storage.ts], class [MemStorage];
      - the persistent variant of that file, class [DatabaseStorage];
      - [normalizeHeaders] and [isExcelFile] of the client's [lib/utils];
      - [handleFileChange] and the row loop of [processExcelFile] in the
        client's import component;
      - [mockDataService], the browser-side store of the client;
      - the handlers of [server/routes.ts] that list, fetch and delete
        companies and send emails;
      - the pager, the caption and the row selection of the client's
        company table.

    Conventions.
      - A JavaScript [number] that holds an identifier, a counter, a page
        number or a length is an integer of [Z]; the counter arithmetic of
        the source is exact on the integers below 2^53.  A number that
        comes out of a request or a spreadsheet, or goes to the database
        engine, is a [JS.number]: a double with an integer value, an
        infinity or [NaN].
      - The database engine is PostgreSQL behind the query builder the
        source imports; a statement it refuses is a rejected promise.
      - A JavaScript string is a [string]; [toLowerCase] acts on the
        letters A-Z.
      - An [async] method whose body contains no suspension point is a
        function from the store to a result and a store. *)

From Stdlib Require Import ZArith String Ascii DecimalString List Bool Lia.
From Stdlib Require Import Sorted DecimalPos.
Import ListNotations.
Open Scope Z_scope.

(** ** JavaScript built-ins used by the source *)

Module JS.

(** [Array.prototype.slice]: a negative index counts from the end, an
    index past the end is clamped. *)
Definition relativeIndex (len k : Z) : Z :=
  if k <? 0 then Z.max (len + k) 0 else Z.min k len.

Definition slice {A : Type} (l : list A) (start end_ : Z) : list A :=
  let len := Z.of_nat (length l) in
  let k := relativeIndex len start in
  let final := relativeIndex len end_ in
  firstn (Z.to_nat (final - k)) (skipn (Z.to_nat k) l).

(** [String.prototype.toLowerCase]. *)
Definition lowerChar (c : ascii) : ascii :=
  let n := nat_of_ascii c in
  if (Nat.leb 65 n && Nat.leb n 90)%bool then ascii_of_nat (n + 32) else c.

Fixpoint toLowerCase (s : string) : string :=
  match s with
  | EmptyString => EmptyString
  | String c t => String (lowerChar c) (toLowerCase t)
  end.

(** [String.prototype.startsWith] and [String.prototype.includes]. *)
Fixpoint startsWith (s p : string) : bool :=
  match p, s with
  | EmptyString, _ => true
  | String _ _, EmptyString => false
  | String a p', String b s' => (Ascii.eqb a b && startsWith s' p')%bool
  end.

Fixpoint includes (s sub : string) : bool :=
  if startsWith s sub then true
  else match s with
       | EmptyString => false
       | String _ t => includes t sub
       end.

(** Truthiness of a string: the empty string is falsy. *)
Definition truthy (s : string) : bool :=
  match s with EmptyString => false | String _ _ => true end.

(** *** Numbers

    A Number whose value is an integer, an infinity or [NaN].  [Num z]
    stands for the double nearest to [z], which is [z] itself up to
    2^53. *)
Inductive number :=
| Num (z : Z)
| Infinity
| NegInfinity
| NaN.

(** Round to nearest, ties to even, on 53 bits of mantissa. *)
Definition roundToDouble (a : Z) : Z :=
  if a <? 2 ^ 53 then a
  else
    let e := Z.log2 a - 52 in
    let q := Z.shiftr a e in
    let r := Z.land a (Z.ones e) in
    let half := Z.shiftl 1 (e - 1) in
    let q' :=
      if ((half <? r) || ((r =? half) && Z.odd q))%bool then q + 1 else q in
    Z.shiftl q' e.

(** The Number value for a mathematical integer. *)
Definition ofZ (z : Z) : number :=
  let v := roundToDouble (Z.abs z) in
  if 2 ^ 1024 <=? v then (if z <? 0 then NegInfinity else Infinity)
  else Num (Z.sgn z * v).

(** [Number.isSafeInteger]. *)
Definition isSafeInteger (z : Z) : bool :=
  ((- (2 ^ 53 - 1) <=? z) && (z <=? 2 ^ 53 - 1))%bool.

(** Sum, difference and product: the exact result, rounded. *)
Definition opposite (x : number) : number :=
  match x with
  | Num z => Num (- z)
  | Infinity => NegInfinity
  | NegInfinity => Infinity
  | NaN => NaN
  end.

Definition add (x y : number) : number :=
  match x, y with
  | NaN, _ | _, NaN => NaN
  | Infinity, NegInfinity | NegInfinity, Infinity => NaN
  | Infinity, _ | _, Infinity => Infinity
  | NegInfinity, _ | _, NegInfinity => NegInfinity
  | Num a, Num b => ofZ (a + b)
  end.

Definition sub (x y : number) : number := add x (opposite y).

Definition mul (x y : number) : number :=
  match x, y with
  | NaN, _ | _, NaN => NaN
  | Num a, Num b => ofZ (a * b)
  | Num a, Infinity | Infinity, Num a =>
      if a =? 0 then NaN else if a <? 0 then NegInfinity else Infinity
  | Num a, NegInfinity | NegInfinity, Num a =>
      if a =? 0 then NaN else if a <? 0 then Infinity else NegInfinity
  | Infinity, Infinity | NegInfinity, NegInfinity => Infinity
  | Infinity, NegInfinity | NegInfinity, Infinity => NegInfinity
  end.

(** [slice] at indices that are numbers: [NaN] counts as 0, an infinity
    as the end it points to. *)
Definition indexOf (len : Z) (x : number) : Z :=
  match x with
  | Num k => k
  | Infinity => len
  | NegInfinity => - len
  | NaN => 0
  end.

Definition sliceNumber {A : Type} (l : list A) (start end_ : number)
  : list A :=
  let len := Z.of_nat (length l) in
  slice l (indexOf len start) (indexOf len end_).

(** Truthiness of a number: 0 and [NaN] are falsy. *)
Definition truthyNumber (x : number) : bool :=
  match x with
  | Num z => negb (z =? 0)
  | NaN => false
  | _ => true
  end.

Definition decimal (a : Z) : string := NilZero.string_of_int (Z.to_int a).

Definition digitCount (a : Z) : Z := Z.of_nat (String.length (decimal a)).

(** [Number::toString] chooses the value with the fewest significant
    digits that still reads back as the same double, the nearest one when
    there are two; [k] is the number of digits tried, [n] the number of
    digits of [a]. *)
Fixpoint shortest (fuel : nat) (k n a : Z) : Z :=
  match fuel with
  | O => a
  | S fuel' =>
      let p := 10 ^ Z.max 0 (n - k) in
      let v1 := a / p * p in
      let v2 := v1 + p in
      let ok1 := roundToDouble v1 =? a in
      let ok2 := roundToDouble v2 =? a in
      if (ok1 && ok2)%bool then
        if a - v1 <? v2 - a then v1
        else if v2 - a <? a - v1 then v2
        else if Z.even (a / p) then v1 else v2
      else if ok1 then v1
      else if ok2 then v2
      else shortest fuel' (k + 1) n a
  end.

Fixpoint dropZeros (reversed : string) : string :=
  match reversed with
  | String "0" t => dropZeros t
  | _ => reversed
  end.

Fixpoint reverseOnto (s acc : string) : string :=
  match s with
  | EmptyString => acc
  | String c t => reverseOnto t (String c acc)
  end.

(** The digits of a decimal text without its trailing zeros. *)
Definition significant (s : string) : string :=
  reverseOnto (dropZeros (reverseOnto s EmptyString)) EmptyString.

(** The text of a positive integer double: all its digits below 10^21,
    the exponent form from there. *)
Definition positiveToString (a : Z) : string :=
  if a <? 2 ^ 53 then decimal a
  else
    let v := shortest 17 1 (digitCount a) a in
    let n := digitCount v in
    if n <=? 21 then decimal v
    else
      match significant (decimal v) with
      | String d EmptyString => String d ("e+" ++ decimal (n - 1))
      | String d rest => String d ("." ++ rest ++ "e+" ++ decimal (n - 1))
      | EmptyString => EmptyString
      end.

(** [String(x)] on a number. *)
Definition numberToString (x : number) : string :=
  match x with
  | Num 0 => "0"
  | Num (Z.pos p) => positiveToString (Z.pos p)
  | Num (Z.neg p) => String "-" (positiveToString (Z.pos p))
  | Infinity => "Infinity"
  | NegInfinity => "-Infinity"
  | NaN => "NaN"
  end.

End JS.

Coercion JS.Num : Z >-> JS.number.

(** [Map<number, V>]: keys compared as numbers, iteration in insertion
    order; [set] on a present key keeps the key's position. *)
Module JSMap.
Section WithValue.
Context {V : Type}.

Definition t := list (Z * V).

Fixpoint get (k : Z) (m : t) : option V :=
  match m with
  | [] => None
  | (k', v) :: r => if k =? k' then Some v else get k r
  end.

Definition has (k : Z) (m : t) : bool :=
  match get k m with Some _ => true | None => false end.

Fixpoint replace (k : Z) (v : V) (m : t) : t :=
  match m with
  | [] => []
  | (k', v') :: r =>
      if k =? k' then (k', v) :: r else (k', v') :: replace k v r
  end.

Definition set (k : Z) (v : V) (m : t) : t :=
  if has k m then replace k v m else m ++ [(k, v)].

Fixpoint remove (k : Z) (m : t) : t :=
  match m with
  | [] => []
  | (k', v) :: r => if k =? k' then r else (k', v) :: remove k r
  end.

(** [Map.prototype.delete] answers whether the key was present. *)
Definition delete (k : Z) (m : t) : bool * t := (has k m, remove k m).

Definition keys (m : t) : list Z := map fst m.
Definition values (m : t) : list V := map snd m.
End WithValue.
Arguments t : clear implicits.
End JSMap.

(** ** Schema ([shared/schema.ts]) *)

(** [InsertCompany]: a company row without its identifier. *)
Record InsertCompany := mkInsertCompany {
  name : string;
  contact : string;
  email : string;
  phone : string;
  industry : string;
  location : string;
  employees : JS.number;
  revenue : string;
  status : string;
  lastContact : string
}.

(** [Company]: the row with its identifier, [{ ...insertCompany, id }]. *)
Record Company := mkCompany {
  id : Z;
  data :> InsertCompany
}.

(** [Partial<InsertCompany>]: every key may be absent. *)
Module Partial.
Record t := mk {
  name : option string;
  contact : option string;
  email : option string;
  phone : option string;
  industry : option string;
  location : option string;
  employees : option JS.number;
  revenue : option string;
  status : option string;
  lastContact : option string
}.

Definition empty : t :=
  mk None None None None None None None None None None.
End Partial.

(** The result of the two listing operations. *)
Record Page := mkPage {
  companies : list Company;
  total : Z
}.

(** [{ ...company, ...companyData }]: a key present on the right wins. *)
Definition spread {A : Type} (old : A) (new : option A) : A :=
  match new with Some v => v | None => old end.

Definition merge (company : Company) (companyData : Partial.t) : Company :=
  mkCompany (id company)
    (mkInsertCompany
       (spread (name company) (Partial.name companyData))
       (spread (contact company) (Partial.contact companyData))
       (spread (email company) (Partial.email companyData))
       (spread (phone company) (Partial.phone companyData))
       (spread (industry company) (Partial.industry companyData))
       (spread (location company) (Partial.location companyData))
       (spread (employees company) (Partial.employees companyData))
       (spread (revenue company) (Partial.revenue companyData))
       (spread (status company) (Partial.status companyData))
       (spread (lastContact company) (Partial.lastContact companyData))).

(** The search predicate of [MemStorage.searchCompanies]. *)
Definition matchesQuery (lowercaseQuery : string) (company : Company) : bool :=
  (JS.includes (JS.toLowerCase (name company)) lowercaseQuery
   || JS.includes (JS.toLowerCase (contact company)) lowercaseQuery
   || JS.includes (JS.toLowerCase (email company)) lowercaseQuery
   || JS.includes (JS.toLowerCase (industry company)) lowercaseQuery
   || JS.includes (JS.toLowerCase (location company)) lowercaseQuery)%bool.

(** Records under their identifiers, the identifiers strictly increasing
    between two bounds: the shape both stores keep their records in. *)
Fixpoint ascending (lo : Z) (m : JSMap.t Company) (hi : Z) : bool :=
  match m with
  | [] => true
  | (k, company) :: r =>
      ((lo <? k) && (k <? hi) && (id company =? k) && ascending k r hi)%bool
  end.

(** ** In-memory store ([class MemStorage])

    The company half of the class.  The user map and its counter, which no
    company method reads or writes, are left out. *)

Module MemStorage.

Record t := mk {
  companiesMap : JSMap.t Company;
  currentCompanyId : Z
}.

Definition getCompanies (page pageSize : Z) (this : t) : Page :=
  let companies := JSMap.values (companiesMap this) in
  let total := Z.of_nat (length companies) in
  let startIndex := (page - 1) * pageSize in
  let endIndex := startIndex + pageSize in
  mkPage (JS.slice companies startIndex endIndex) total.

Definition getCompany (id : Z) (this : t) : option Company :=
  JSMap.get id (companiesMap this).

Definition createCompany (insertCompany : InsertCompany) (this : t)
  : Company * t :=
  let id := currentCompanyId this in
  let company := mkCompany id insertCompany in
  (company, mk (JSMap.set id company (companiesMap this)) (id + 1)).

Definition updateCompany (id : Z) (companyData : Partial.t) (this : t)
  : option Company * t :=
  match JSMap.get id (companiesMap this) with
  | None => (None, this)
  | Some company =>
      let updatedCompany := merge company companyData in
      (Some updatedCompany,
       mk (JSMap.set id updatedCompany (companiesMap this))
          (currentCompanyId this))
  end.

Definition deleteCompany (id : Z) (this : t) : bool * t :=
  let (removed, m) := JSMap.delete id (companiesMap this) in
  (removed, mk m (currentCompanyId this)).

Definition searchCompanies (query : string) (page pageSize : Z) (this : t)
  : Page :=
  let companies := JSMap.values (companiesMap this) in
  let lowercaseQuery := JS.toLowerCase query in
  let filteredCompanies := filter (matchesQuery lowercaseQuery) companies in
  let total := Z.of_nat (length filteredCompanies) in
  let startIndex := (page - 1) * pageSize in
  let endIndex := startIndex + pageSize in
  mkPage (JS.slice filteredCompanies startIndex endIndex) total.

(** The [for ... of] loop of [createManyCompanies], [count] threaded. *)
Fixpoint createManyLoop (insertCompanies : list InsertCompany) (count : Z)
  (this : t) : Z * t :=
  match insertCompanies with
  | [] => (count, this)
  | company :: rest =>
      let (_, this') := createCompany company this in
      createManyLoop rest (count + 1) this'
  end.

Definition createManyCompanies (insertCompanies : list InsertCompany)
  (this : t) : Z * t :=
  createManyLoop insertCompanies 0 this.

(** The constructor: empty map, counter 1, then the three samples. *)
Definition sampleCompanies : list InsertCompany :=
  [ mkInsertCompany "Acme Inc." "John Smith" "john@acmeinc.com"
      "+1 (555) 123-4567" "Technology" "San Francisco, CA" 250 "$25M"
      "Active" "2023-08-15";
    mkInsertCompany "TechCorp" "Jane Doe" "jane@techcorp.com"
      "+1 (555) 987-6543" "Software" "Austin, TX" 500 "$50M"
      "Pending" "2023-08-10";
    mkInsertCompany "Global Industries" "Michael Johnson"
      "michael@globalind.com" "+1 (555) 222-3333" "Manufacturing"
      "Chicago, IL" 1200 "$120M" "Inactive" "2023-07-22" ].

Definition fresh : t := mk [] 1.

Definition constructor : t :=
  fold_left (fun this company => snd (createCompany company this))
    sampleCompanies fresh.

(** *** Histories of calls on one store instance *)

Inductive call :=
| CreateCompany (insertCompany : InsertCompany)
| UpdateCompany (id : Z) (companyData : Partial.t)
| DeleteCompany (id : Z)
| CreateManyCompanies (insertCompanies : list InsertCompany).

(** The records handed back by the [createCompany] invocations that
    [createManyCompanies] makes, in the order of the loop. *)
Fixpoint createdInLoop (insertCompanies : list InsertCompany) (this : t)
  : list Company :=
  match insertCompanies with
  | [] => []
  | company :: rest =>
      let (created, this') := createCompany company this in
      created :: createdInLoop rest this'
  end.

(** One call: the records its [createCompany] invocations returned, and
    the store it leaves. *)
Definition step (c : call) (this : t) : list Company * t :=
  match c with
  | CreateCompany x =>
      let (created, this') := createCompany x this in ([created], this')
  | UpdateCompany k p => ([], snd (updateCompany k p this))
  | DeleteCompany k => ([], snd (deleteCompany k this))
  | CreateManyCompanies l =>
      (createdInLoop l this, snd (createManyCompanies l this))
  end.

Fixpoint run (cs : list call) (this : t) : list Company * t :=
  match cs with
  | [] => ([], this)
  | c :: rest =>
      let (h1, this1) := step c this in
      let (h2, this2) := run rest this1 in
      (h1 ++ h2, this2)
  end.

(** Representation invariant: the counter is positive, the keys of the
    map are positive, strictly increasing in iteration order and below
    the counter, and each record carries its key as identifier. *)
Definition wf (this : t) : bool :=
  ((0 <? currentCompanyId this)
   && ascending 0 (companiesMap this) (currentCompanyId this))%bool.

End MemStorage.

(** ** The relational engine behind [db]

    [DatabaseStorage] holds no data of its own: every method issues one or
    two statements against the table [companies].  The table is a list of
    rows together with the sequence that feeds the [serial] column [id];
    each statement below has its SQL meaning. *)

Module Db.

Record table := mk {
  rows : list Company;
  nextId : Z
}.

Definition empty : table := mk [] 1.

(** The values of the types [integer] and [bigint]. *)
Definition int4 (n : Z) : bool :=
  ((-2147483648 <=? n) && (n <=? 2147483647))%bool.

Definition int8 (n : Z) : bool :=
  ((-9223372036854775808 <=? n) && (n <=? 9223372036854775807))%bool.

(** A value of the type [text] holds no NUL character. *)
Fixpoint text (s : string) : bool :=
  match s with
  | EmptyString => true
  | String c t => (negb (Ascii.eqb c "000") && text t)%bool
  end.

(** The rows the table can hold: nine columns of type [text] and the
    column [employees] of type [integer]. *)
Definition storable (v : InsertCompany) : bool :=
  (text (name v) && text (contact v) && text (email v) && text (phone v)
   && text (industry v) && text (location v)
   && match employees v with JS.Num n => int4 n | _ => false end
   && text (revenue v) && text (status v) && text (lastContact v))%bool.

(** One statement carries at most 65535 parameters; a row of [companies]
    takes ten. *)
Definition maxParameters : Z := 65535.

(** The last value of the sequence behind the [serial] column. *)
Definition maxId : Z := 2147483647.

(** The rows of an accepted [INSERT] take the next values of the sequence
    in the order of the [VALUES] list. *)
Fixpoint insertRows (values : list InsertCompany) (tb : table)
  : list Company * table :=
  match values with
  | [] => ([], tb)
  | v :: rest =>
      let row := mkCompany (nextId tb) v in
      let (out, tb') :=
        insertRows rest (mk (rows tb ++ [row]) (nextId tb + 1)) in
      (row :: out, tb')
  end.

(** [INSERT ... VALUES v1, ..., vn RETURNING *].  The statement is refused
    as a whole, and nothing is stored, when a value does not fit its
    column or the parameters are too many; these are found before the
    statement runs, so the sequence stays as it is.  When the sequence
    runs out while the statement runs, the statement fails, no row is
    stored, and the sequence stays at its end. *)
Definition insertReturning (values : list InsertCompany) (tb : table)
  : option (list Company) * table :=
  if negb (forallb storable values
           && (10 * Z.of_nat (length values) <=? maxParameters))
  then (None, tb)
  else if nextId tb + Z.of_nat (length values) - 1 <=? maxId then
    let (out, tb') := insertRows values tb in (Some out, tb')
  else (None, mk (rows tb) (Z.max (nextId tb) (maxId + 1))).

(** [ORDER BY id DESC]. *)
Fixpoint insertDesc (c : Company) (l : list Company) : list Company :=
  match l with
  | [] => [c]
  | d :: r => if id d <=? id c then c :: d :: r else d :: insertDesc c r
  end.

Definition orderByIdDesc (l : list Company) : list Company :=
  fold_right insertDesc [] l.

(** [select().from(companies).where(cond).limit(l).offset(o)
    .orderBy(desc(companies.id))].  The query builder writes [LIMIT] only
    for a limit that is not negative and [OFFSET] only for an offset other
    than 0; both are parameters of type [bigint], and the engine refuses a
    value outside that type and a negative [OFFSET]. *)
Definition limitClause (limit : JS.number) : bool :=
  match limit with
  | JS.Num l => 0 <=? l
  | JS.Infinity => true
  | _ => false
  end.

Definition offsetClause (offset : JS.number) : bool :=
  JS.truthyNumber offset.

(** A row count the engine takes: a [bigint] that is not negative. *)
Definition rowCount (x : JS.number) : option nat :=
  match x with
  | JS.Num z => if ((0 <=? z) && int8 z)%bool then Some (Z.to_nat z) else None
  | _ => None
  end.

Definition selectPage (cond : Company -> bool) (limit offset : JS.number)
  (tb : table) : option (list Company) :=
  let sorted := orderByIdDesc (filter cond (rows tb)) in
  let from :=
    if offsetClause offset then option_map (fun o => skipn o sorted)
                                  (rowCount offset)
    else Some sorted in
  match from with
  | None => None
  | Some found =>
      if limitClause limit then option_map (fun l => firstn l found)
                                  (rowCount limit)
      else Some found
  end.

(** [SELECT * ... WHERE cond], in the order the engine keeps the rows. *)
Definition selectWhere (cond : Company -> bool) (tb : table)
  : list Company :=
  filter cond (rows tb).

(** [SELECT count( * ) ... WHERE cond]. *)
Definition count (cond : Company -> bool) (tb : table) : Z :=
  Z.of_nat (length (filter cond (rows tb))).

(** [DELETE ... WHERE cond]. *)
Definition deleteWhere (cond : Company -> bool) (tb : table) : table :=
  mk (filter (fun r => negb (cond r)) (rows tb)) (nextId tb).

(** [text ILIKE pattern]: [%] stands for any run of characters, [_] for
    any one character, a backslash takes the next character literally;
    letters match without regard to case. *)
Fixpoint ilike (pattern : string) : string -> bool :=
  match pattern with
  | EmptyString =>
      fun text => match text with EmptyString => true | _ => false end
  | String p pattern' =>
      if Ascii.eqb p "%" then
        fix anyRun (text : string) : bool :=
          (ilike pattern' text
           || match text with
              | EmptyString => false
              | String _ text' => anyRun text'
              end)%bool
      else if Ascii.eqb p "_" then
        fun text =>
          match text with
          | EmptyString => false
          | String _ text' => ilike pattern' text'
          end
      else if Ascii.eqb p "\" then
        match pattern' with
        | EmptyString => fun _ => false
        | String q pattern'' =>
            fun text =>
              match text with
              | EmptyString => false
              | String c text' =>
                  (Ascii.eqb (JS.lowerChar q) (JS.lowerChar c)
                   && ilike pattern'' text')%bool
              end
        end
      else
        fun text =>
          match text with
          | EmptyString => false
          | String c text' =>
              (Ascii.eqb (JS.lowerChar p) (JS.lowerChar c)
               && ilike pattern' text')%bool
          end
  end.

End Db.

(** ** Persistent store ([class DatabaseStorage])

    The methods the storage contract shares with [MemStorage], except
    [updateCompany].  [None] stands for a rejected promise. *)

Module DatabaseStorage.

Definition t := Db.table.

Definition eqId (k : Z) (row : Company) : bool := id row =? k.

Definition getCompanies (page pageSize : JS.number) (db : t)
  : option Page :=
  let total := Db.count (fun _ => true) db in
  let offset := JS.mul (JS.sub page 1) pageSize in
  match Db.selectPage (fun _ => true) pageSize offset db with
  | None => None
  | Some companyList => Some (mkPage companyList total)
  end.

(** [where(eq(companies.id, id))]: the parameter has the type of the
    column, and the engine refuses an [id] outside it. *)
Definition getCompany (id : JS.number) (db : t)
  : option (option Company) :=
  match id with
  | JS.Num k =>
      if Db.int4 k then
        Some (match Db.selectWhere (eqId k) db with
              | [] => None
              | company :: _ => Some company
              end)
      else None
  | _ => None
  end.

Definition createCompany (insertCompany : InsertCompany) (db : t)
  : option Company * t :=
  match Db.insertReturning [insertCompany] db with
  | (Some returned, db') => (hd_error returned, db')
  | (None, db') => (None, db')
  end.

(** [return true], whatever the statement removed. *)
Definition deleteCompany (id : JS.number) (db : t) : option (bool * t) :=
  match id with
  | JS.Num k =>
      if Db.int4 k then
        let result := Db.deleteWhere (eqId k) db in
        Some (true, result)
      else None
  | _ => None
  end.

Definition searchCondition (query : string) (row : Company) : bool :=
  let pattern := ("%" ++ query ++ "%")%string in
  (Db.ilike pattern (name row)
   || Db.ilike pattern (contact row)
   || Db.ilike pattern (email row)
   || Db.ilike pattern (industry row)
   || Db.ilike pattern (location row))%bool.

(** The pattern is a parameter of type [text]. *)
Definition searchCompanies (query : string) (page pageSize : JS.number)
  (db : t) : option Page :=
  if Db.text query then
    let total := Db.count (searchCondition query) db in
    let offset := JS.mul (JS.sub page 1) pageSize in
    match Db.selectPage (searchCondition query) pageSize offset db with
    | None => None
    | Some companyList => Some (mkPage companyList total)
    end
  else None.

Definition createManyCompanies (insertCompanies : list InsertCompany)
  (db : t) : option Z * t :=
  match insertCompanies with
  | [] => (Some 0, db)
  | _ =>
      match Db.insertReturning insertCompanies db with
      | (Some result, db') => (Some (Z.of_nat (length result)), db')
      | (None, db') => (None, db')
      end
  end.

(** *** Histories of calls on one table *)

Inductive call :=
| CreateCompany (insertCompany : InsertCompany)
| DeleteCompany (id : Z)
| CreateManyCompanies (insertCompanies : list InsertCompany).

(** One call: the rows its [INSERT] returned, none when the call was
    rejected, and the table it leaves. *)
Definition step (c : call) (db : t) : list Company * t :=
  match c with
  | CreateCompany x =>
      let (created, db') := createCompany x db in
      (match created with Some company => [company] | None => [] end, db')
  | DeleteCompany k =>
      ([], match deleteCompany k db with
           | Some (_, db') => db'
           | None => db
           end)
  | CreateManyCompanies l =>
      match l with
      | [] => ([], db)
      | _ =>
          let (result, db') := Db.insertReturning l db in
          (match result with Some created => created | None => [] end, db')
      end
  end.

Fixpoint run (cs : list call) (db : t) : list Company * t :=
  match cs with
  | [] => ([], db)
  | c :: rest =>
      let (h1, db1) := step c db in
      let (h2, db2) := run rest db1 in
      (h1 ++ h2, db2)
  end.

(** The table under its primary key. *)
Definition primaryKey (rows : list Company) : JSMap.t Company :=
  map (fun row => (id row, row)) rows.

(** Invariant of the table: the sequence is positive, and the rows carry
    positive identifiers that increase strictly in the order of insertion
    and lie below the next value of the sequence. *)
Definition wf (db : t) : bool :=
  ((0 <? Db.nextId db)
   && ascending 0 (primaryKey (Db.rows db)) (Db.nextId db))%bool.

End DatabaseStorage.

(** ** Import adapter, client side
      ([normalizeHeaders] and the row loop of [processExcelFile]) *)

Module ImportExcel.

Open Scope string_scope.
Open Scope list_scope.
Open Scope Z_scope.

(** A cell of a row of [sheet_to_json(worksheet, { header: 1 })]; a
    number cell holds the Number value for an integer. *)
Inductive cell :=
| CUndefined
| CString (s : string)
| CNumber (n : Z)
| CBoolean (b : bool).

(** [String(value)]. *)
Definition toString (value : cell) : string :=
  match value with
  | CUndefined => "undefined"
  | CString s => s
  | CNumber n => JS.numberToString (JS.ofZ n)
  | CBoolean true => "true"
  | CBoolean false => "false"
  end.

(** [parseInt(s)] without a radix: the digits are read as a mathematical
    integer, [None] where there is none, and the result is the Number
    value for it. *)
Definition isWhiteSpace (c : ascii) : bool :=
  let n := nat_of_ascii c in
  ((Nat.leb 9 n && Nat.leb n 13) || Nat.eqb n 32)%bool.

Fixpoint trimStart (s : string) : string :=
  match s with
  | String c t => if isWhiteSpace c then trimStart t else s
  | EmptyString => s
  end.

Definition digitValue (c : ascii) : option Z :=
  let n := Z.of_nat (nat_of_ascii c) in
  if ((48 <=? n) && (n <=? 57))%bool then Some (n - 48)
  else if ((97 <=? n) && (n <=? 122))%bool then Some (n - 87)
  else if ((65 <=? n) && (n <=? 90))%bool then Some (n - 55)
  else None.

Fixpoint parseDigits (radix : Z) (s : string) (acc : option Z)
  : option Z :=
  match s with
  | EmptyString => acc
  | String c t =>
      match digitValue c with
      | Some d =>
          if d <? radix
          then parseDigits radix t (Some (spread 0%Z acc * radix + d))
          else acc
      | None => acc
      end
  end.

Definition parseUnsigned (s : string) : option Z :=
  match s with
  | String "0" (String "x" t) => parseDigits 16 t None
  | String "0" (String "X" t) => parseDigits 16 t None
  | _ => parseDigits 10 s None
  end.

Definition parseSigned (s : string) : option Z :=
  match trimStart s with
  | String "-" t => option_map Z.opp (parseUnsigned t)
  | String "+" t => parseUnsigned t
  | t => parseUnsigned t
  end.

Definition parseInt (s : string) : JS.number :=
  match parseSigned s with
  | Some n => JS.ofZ n
  | None => JS.NaN
  end.

(** A normalized header: a string, or a member the object literal
    [headerMap] inherits from [Object.prototype], which is not a string. *)
Inductive header :=
| HString (s : string)
| HInherited.

Definition headerMap : list (string * string) :=
  [ ("company", "name");
    ("company name", "name");
    ("contact person", "contact");
    ("contact name", "contact");
    ("phone number", "phone");
    ("employee count", "employees");
    ("number of employees", "employees");
    ("last contacted", "lastContact");
    ("last contact date", "lastContact") ].

(** The inherited keys a lower-case string can name. *)
Definition inheritedKeys : list string := [ "constructor"; "__proto__" ].

Fixpoint ownProperty (key : string) (m : list (string * string))
  : option string :=
  match m with
  | [] => None
  | (k, v) :: r => if String.eqb key k then Some v else ownProperty key r
  end.

(** [headerMap[lowerHeader] || lowerHeader]. *)
Definition normalizeHeader (h : string) : header :=
  let lowerHeader := JS.toLowerCase h in
  match ownProperty lowerHeader headerMap with
  | Some v => HString v
  | None =>
      if existsb (String.eqb lowerHeader) inheritedKeys then HInherited
      else HString lowerHeader
  end.

Definition normalizeHeaders (headers : list string) : list header :=
  map normalizeHeader headers.

(** The [switch (header.toLowerCase())] of the row loop. *)
Definition oneOf (h : string) (labels : list string) : bool :=
  existsb (String.eqb h) labels.

(** [typeof value === 'number' ? value : parseInt(String(value)) || 0]. *)
Definition employeesOf (value : cell) : JS.number :=
  match value with
  | CNumber n => JS.ofZ n
  | _ =>
      let parsed := parseInt (toString value) in
      if JS.truthyNumber parsed then parsed else JS.Num 0
  end.

Definition assign (h : string) (value : cell) (company : Partial.t)
  : Partial.t :=
  let 'Partial.mk nm ct em ph ind loc emp rev st lc := company in
  let s := Some (toString value) in
  if oneOf h ["name"] then
    Partial.mk s ct em ph ind loc emp rev st lc
  else if oneOf h ["contact"; "contactname"; "contactperson"] then
    Partial.mk nm s em ph ind loc emp rev st lc
  else if oneOf h ["email"; "emailaddress"] then
    Partial.mk nm ct s ph ind loc emp rev st lc
  else if oneOf h ["phone"; "phonenumber"] then
    Partial.mk nm ct em s ind loc emp rev st lc
  else if oneOf h ["industry"; "sector"] then
    Partial.mk nm ct em ph s loc emp rev st lc
  else if oneOf h ["location"; "address"] then
    Partial.mk nm ct em ph ind s emp rev st lc
  else if oneOf h ["employees"; "employeecount"; "employeenumber"] then
    Partial.mk nm ct em ph ind loc (Some (employeesOf value)) rev st lc
  else if oneOf h ["revenue"; "annualrevenue"] then
    Partial.mk nm ct em ph ind loc emp s st lc
  else if oneOf h ["status"; "companystatus"] then
    Partial.mk nm ct em ph ind loc emp rev s lc
  else if oneOf h ["lastcontact"; "lastcontactdate"] then
    Partial.mk nm ct em ph ind loc emp rev st s
  else company.

(** The body of [normalizedHeaders.forEach((header, index) => ...)];
    [None] is the [TypeError] of [header.toLowerCase()] on a header that
    is not a string. *)
Definition mapCell (h : header) (value : option cell) (company : Partial.t)
  : option Partial.t :=
  match value with
  | None | Some CUndefined => Some company
  | Some v =>
      match h with
      | HString s => Some (assign (JS.toLowerCase s) v company)
      | HInherited => None
      end
  end.

Fixpoint mapRowFrom (index : nat) (normalizedHeaders : list header)
  (row : list cell) (company : Partial.t) : option Partial.t :=
  match normalizedHeaders with
  | [] => Some company
  | h :: rest =>
      match mapCell h (nth_error row index) company with
      | None => None
      | Some company' => mapRowFrom (S index) rest row company'
      end
  end.

Definition mapRow (normalizedHeaders : list header) (row : list cell)
  : option Partial.t :=
  mapRowFrom 0 normalizedHeaders row Partial.empty.

(** Truthiness of an optional string and of an optional number. *)
Definition present (v : option string) : bool :=
  match v with Some s => JS.truthy s | None => false end.

Definition orDefault (v : option string) (d : string) : string :=
  match v with
  | Some s => if JS.truthy s then s else d
  | None => d
  end.

Definition numberOrZero (v : option JS.number) : JS.number :=
  match v with
  | Some n => if JS.truthyNumber n then n else JS.Num 0
  | None => JS.Num 0
  end.

(** [if (company.name && company.contact && company.email) { ... }]:
    the defaults, then the record pushed to [companies]. *)
Definition validate (today : string) (company : Partial.t)
  : option InsertCompany :=
  match Partial.name company, Partial.contact company,
        Partial.email company with
  | Some nm, Some ct, Some em =>
      if (JS.truthy nm && JS.truthy ct && JS.truthy em)%bool then
        Some (mkInsertCompany nm ct em
                (orDefault (Partial.phone company) "N/A")
                (orDefault (Partial.industry company) "Other")
                (orDefault (Partial.location company) "Unknown")
                (numberOrZero (Partial.employees company))
                (orDefault (Partial.revenue company) "Unknown")
                (orDefault (Partial.status company) "New")
                (orDefault (Partial.lastContact company) today))
      else None
  | _, _, _ => None
  end.

(** What the loop does with one row. *)
Inductive rowResult :=
| Accepted (company : InsertCompany)
| Dropped
| Threw.

Definition processRow (today : string) (normalizedHeaders : list header)
  (row : list cell) : rowResult :=
  match row with
  | [] => Dropped
  | _ =>
      match mapRow normalizedHeaders row with
      | None => Threw
      | Some company =>
          match validate today company with
          | Some c => Accepted c
          | None => Dropped
          end
      end
  end.

(** [for (const row of rows) { ... }], [companies] threaded; [None] when
    a row threw. *)
Fixpoint processRows (today : string) (normalizedHeaders : list header)
  (rows : list (list cell)) (companies : list InsertCompany)
  : option (list InsertCompany) :=
  match rows with
  | [] => Some companies
  | row :: rest =>
      match processRow today normalizedHeaders row with
      | Threw => None
      | Dropped => processRows today normalizedHeaders rest companies
      | Accepted c =>
          processRows today normalizedHeaders rest (companies ++ [c])
      end
  end.

(** The outcome of [processExcelFile] on the parsed sheet: the records
    submitted to the import endpoint, or the failure shown to the user. *)
Inductive outcome :=
| Submitted (companies : list InsertCompany)
| Failed (message : string).

Definition processExcelFile (today : string) (headers : list string)
  (rows : list (list cell)) : outcome :=
  match rows with
  | [] => Failed "File contains no data or missing headers"
  | _ =>
      match processRows today (normalizeHeaders headers) rows [] with
      | None => Failed "header.toLowerCase is not a function"
      | Some [] => Failed "No valid company data found in file"
      | Some companies => Submitted companies
      end
  end.

End ImportExcel.

(** ** Browser-side store ([mockDataService])

    The frontend-only variant keeps the records as JSON text under the key
    [companies] of [localStorage].  The item is taken as the array its text
    encodes ([None]: the key is not set); the module-level array
    [initialCompanies] is part of the state, because [loadCompanies] hands
    out that very array when the key is not set and two methods then write
    into it. *)

Module MockData.

Record t := mk {
  stored : option (list Company);
  initialCompanies : list Company
}.

Definition seed : list Company :=
  [ mkCompany 1
      (mkInsertCompany "Acme Inc." "John Smith" "john@acmeinc.com"
         "+1 (555) 123-4567" "Technology" "San Francisco, CA" 250 "$25M"
         "Active" "2023-08-15");
    mkCompany 2
      (mkInsertCompany "TechCorp" "Jane Doe" "jane@techcorp.com"
         "+1 (555) 987-6543" "Software" "Austin, TX" 500 "$50M"
         "Pending" "2023-08-10");
    mkCompany 3
      (mkInsertCompany "Global Industries" "Michael Johnson"
         "michael@globalind.com" "+1 (555) 222-3333" "Manufacturing"
         "Chicago, IL" 1200 "$120M" "Inactive" "2023-07-22") ].

(** The state when the module is loaded in a browser that never ran it. *)
Definition fresh : t := mk None seed.

(** [loadCompanies]: the array, whether it is [initialCompanies] itself,
    and the state (the key is set from now on). *)
Definition loadCompanies (st : t) : list Company * bool * t :=
  match stored st with
  | Some companies => (companies, false, st)
  | None =>
      (initialCompanies st, true,
       mk (Some (initialCompanies st)) (initialCompanies st))
  end.

(** [saveCompanies(companies)] after the array was changed in place:
    the write reaches [initialCompanies] when the array is that one. *)
Definition saveMutated (companies : list Company) (aliased : bool) (st : t)
  : t :=
  mk (Some companies) (if aliased then companies else initialCompanies st).

(** [saveCompanies(companies)] on an array built anew. *)
Definition saveCompanies (companies : list Company) (st : t) : t :=
  mk (Some companies) (initialCompanies st).

Definition getCompanies (page pageSize : Z) (st : t) : Page * t :=
  let '(companies, _, st1) := loadCompanies st in
  let startIndex := (page - 1) * pageSize in
  let endIndex := startIndex + pageSize in
  (mkPage (JS.slice companies startIndex endIndex)
     (Z.of_nat (length companies)), st1).

Definition getCompany (k : Z) (st : t) : option Company * t :=
  let '(companies, _, st1) := loadCompanies st in
  (find (fun company => id company =? k) companies, st1).

(** [Math.max(...ids)] on a list that is not empty. *)
Fixpoint maxFrom (x : Z) (l : list Z) : Z :=
  match l with
  | [] => x
  | y :: r => maxFrom (Z.max x y) r
  end.

Definition nextId (companies : list Company) : Z :=
  match map id companies with
  | [] => 1
  | x :: r => maxFrom x r + 1
  end.

Definition createCompany (company : InsertCompany) (st : t) : Company * t :=
  let '(companies, aliased, st1) := loadCompanies st in
  let newId := nextId companies in
  let newCompany := mkCompany newId company in
  (newCompany, saveMutated (companies ++ [newCompany]) aliased st1).

(** [companies.findIndex(company => company.id === id)]; [None] is -1. *)
Fixpoint findIndex (k : Z) (companies : list Company) : option nat :=
  match companies with
  | [] => None
  | company :: rest =>
      if id company =? k then Some 0%nat
      else option_map S (findIndex k rest)
  end.

(** [companies[index] = updatedCompany]. *)
Fixpoint setAt (index : nat) (v : Company) (companies : list Company)
  : list Company :=
  match companies, index with
  | [], _ => []
  | _ :: rest, O => v :: rest
  | company :: rest, S i => company :: setAt i v rest
  end.

Definition updateCompany (k : Z) (companyData : Partial.t) (st : t)
  : option Company * t :=
  let '(companies, aliased, st1) := loadCompanies st in
  match findIndex k companies with
  | None => (None, st1)
  | Some index =>
      match nth_error companies index with
      | None => (None, st1)
      | Some company =>
          let updatedCompany := merge company companyData in
          (Some updatedCompany,
           saveMutated (setAt index updatedCompany companies) aliased st1)
      end
  end.

Definition deleteCompany (k : Z) (st : t) : bool * t :=
  let '(companies, _, st1) := loadCompanies st in
  let filteredCompanies :=
    filter (fun company => negb (id company =? k)) companies in
  if (length filteredCompanies =? length companies)%nat then (false, st1)
  else (true, saveCompanies filteredCompanies st1).

Definition searchCompanies (query : string) (page pageSize : Z) (st : t)
  : Page * t :=
  let '(companies, _, st1) := loadCompanies st in
  let lowercaseQuery := JS.toLowerCase query in
  let filteredCompanies := filter (matchesQuery lowercaseQuery) companies in
  let startIndex := (page - 1) * pageSize in
  let endIndex := startIndex + pageSize in
  (mkPage (JS.slice filteredCompanies startIndex endIndex)
     (Z.of_nat (length filteredCompanies)), st1).

(** [companies.map(company => ({ ...company, id: ++lastId }))]. *)
Fixpoint number (lastId : Z) (companies : list InsertCompany)
  : list Company :=
  match companies with
  | [] => []
  | company :: rest =>
      mkCompany (lastId + 1) company :: number (lastId + 1) rest
  end.

Definition importCompanies (companies : list InsertCompany) (st : t)
  : Z * t :=
  let '(existingCompanies, _, st1) := loadCompanies st in
  let lastId :=
    match map id existingCompanies with
    | [] => 0
    | x :: r => maxFrom x r
    end in
  let newCompanies := number lastId companies in
  let updatedCompanies := existingCompanies ++ newCompanies in
  (Z.of_nat (length newCompanies), saveCompanies updatedCompanies st1).

(** *** Histories of calls on one browser storage *)

Inductive call :=
| GetCompanies (page pageSize : Z)
| GetCompany (id : Z)
| CreateCompany (company : InsertCompany)
| UpdateCompany (id : Z) (companyData : Partial.t)
| DeleteCompany (id : Z)
| SearchCompanies (query : string) (page pageSize : Z)
| ImportCompanies (companies : list InsertCompany).

Definition step (c : call) (st : t) : t :=
  match c with
  | GetCompanies page pageSize => snd (getCompanies page pageSize st)
  | GetCompany k => snd (getCompany k st)
  | CreateCompany x => snd (createCompany x st)
  | UpdateCompany k p => snd (updateCompany k p st)
  | DeleteCompany k => snd (deleteCompany k st)
  | SearchCompanies q page pageSize =>
      snd (searchCompanies q page pageSize st)
  | ImportCompanies l => snd (importCompanies l st)
  end.

Definition run (cs : list call) (st : t) : t :=
  fold_left (fun s c => step c s) cs st.

(** The records the next call will see. *)
Definition current (st : t) : list Company :=
  match stored st with
  | Some companies => companies
  | None => initialCompanies st
  end.

End MockData.

(** ** Users of the in-memory store

    The user half of [class MemStorage]: the map [users] and the counter
    [currentUserId], which the company methods never touch. *)

Module User.

(** [InsertUser] and [User] of the schema. *)
Record insert := mkInsert {
  username : string;
  password : string
}.

Record t := mk {
  id : Z;
  data :> insert
}.

End User.

Module MemUsers.

Record t := mk {
  users : JSMap.t User.t;
  currentUserId : Z
}.

(** The user half of the constructor. *)
Definition fresh : t := mk [] 1.

Definition getUser (id : Z) (this : t) : option User.t :=
  JSMap.get id (users this).

Definition getUserByUsername (username : string) (this : t)
  : option User.t :=
  find (fun user => String.eqb (User.username (User.data user)) username)
    (JSMap.values (users this)).

Definition createUser (insertUser : User.insert) (this : t) : User.t * t :=
  let id := currentUserId this in
  let user := User.mk id insertUser in
  (user, mk (JSMap.set id user (users this)) (id + 1)).

(** The store after [createUser] on each element of a list in turn. *)
Definition createAll (l : list User.insert) (this : t) : t :=
  fold_left (fun st insertUser => snd (createUser insertUser st)) l this.

(** Users numbered from [from] on, under their numbers. *)
Fixpoint numbered (from : Z) (l : list User.insert) : JSMap.t User.t :=
  match l with
  | [] => []
  | x :: r => (from, User.mk from x) :: numbered (from + 1) r
  end.

End MemUsers.

(** ** HTTP routes ([registerRoutes] of [server/routes.ts])

    The handlers of the list, fetch, delete and email routes, over the
    storage interface they import.  A handler is a function from the
    request and the store to the response and the store. *)

Module Routes.

Open Scope string_scope.
Open Scope list_scope.
Open Scope Z_scope.

(** A value of [req.query]: a string, or the array or object the query
    parser builds from a repeated or bracketed parameter, of which the
    handlers see that it is truthy and not a string, and the text that
    [String] gives for it. *)
Inductive queryValue :=
| QString (s : string)
| QOther (text : string).

(** [IStorage], the methods these handlers call, at the values the
    handlers pass; a result [None] is a rejected promise. *)
Class IStorage (S : Type) := {
  getCompanies : JS.number -> JS.number -> S -> option Page;
  getCompany : JS.number -> S -> option (option Company);
  deleteCompany : JS.number -> S -> option (bool * S);
  searchCompanies :
    queryValue -> JS.number -> JS.number -> S -> option Page
}.

(** What a handler sends. *)
Inductive payload :=
| PPage (result : Page)
| PCompany (company : Company)
| PMessage (message : string)
| PEmpty
| PEmailReport (message : string) (companies : list string).

Record response := mkResponse {
  status : Z;
  body : payload
}.

(** [parseInt(req.query.x as string)]: [parseInt] reads the text of its
    argument, which for an absent parameter is [undefined]. *)
Definition queryText (v : option queryValue) : string :=
  match v with
  | None => "undefined"
  | Some (QString s) => s
  | Some (QOther text) => text
  end.

Definition parseParam (v : option queryValue) : JS.number :=
  ImportExcel.parseInt (queryText v).

(** [n || d] on a number: [NaN] and 0 are falsy. *)
Definition orElse (n : JS.number) (d : Z) : JS.number :=
  if JS.truthyNumber n then n else JS.Num d.

(** The message an email route sends to one company; the sender is a
    constant of the source. *)
Record mail := mkMail {
  to : string;
  subject : string;
  html : string
}.

(** The body of [POST /send-email], at the type [EmailData]. *)
Record EmailData := mkEmailData {
  emailSubject : string;
  emailTemplate : string;
  emailContent : string;
  sendToSelected : option bool;
  companyIds : option (list Z)
}.

(** [emailSchema.parse] on a body of that type: [subject] and [content]
    have [min(1)]. *)
Definition emailSchemaParse (d : EmailData) : option EmailData :=
  if (JS.truthy (emailSubject d) && JS.truthy (emailContent d))%bool
  then Some d else None.

(** The replacement text of [String.prototype.replace]: [$$] is a dollar
    sign, [$&] the matched text, [$`] the text before the match and [$']
    the text after it; with no capture group any other [$] stands for
    itself. *)
Fixpoint expand (replacement matched before after : string) : string :=
  match replacement with
  | EmptyString => EmptyString
  | String "$" (String c r as rest) =>
      if Ascii.eqb c "$" then String "$" (expand r matched before after)
      else if Ascii.eqb c "&" then matched ++ expand r matched before after
      else if Ascii.eqb c "`" then before ++ expand r matched before after
      else if Ascii.eqb c "'" then after ++ expand r matched before after
      else String "$" (expand rest matched before after)
  | String c r => String c (expand r matched before after)
  end.

Fixpoint dropString (n : nat) (s : string) : string :=
  match n, s with
  | O, _ => s
  | S _, EmptyString => EmptyString
  | S k, String _ t => dropString k t
  end.

(** [s.replace(/pattern/g, replacement)] for a pattern that is a literal,
    non-empty text: [before] is the text already passed, [skip] the number
    of characters of the last match still to pass. *)
Fixpoint replaceFrom (pattern replacement : string) (skip : nat)
  (before s : string) : string :=
  match s with
  | EmptyString => EmptyString
  | String c t =>
      match skip with
      | S k =>
          replaceFrom pattern replacement k (before ++ String c EmptyString) t
      | O =>
          if JS.startsWith s pattern then
            expand replacement pattern before
              (dropString (String.length pattern) s)
            ++ replaceFrom pattern replacement
                 (String.length pattern - 1)
                 (before ++ String c EmptyString) t
          else
            String c
              (replaceFrom pattern replacement 0
                 (before ++ String c EmptyString) t)
      end
  end.

Definition replaceAll (pattern replacement s : string) : string :=
  replaceFrom pattern replacement 0 EmptyString s.

(** The three [replace] calls on [emailData.content]. *)
Definition renderContent (content : string) (company : Company) : string :=
  replaceAll "${email}" (email company)
    (replaceAll "${contact}" (contact company)
       (replaceAll "${company}" (name company) content)).

Section Handlers.
Context {S : Type} `{IStorage S}.

(** [GET /companies]. *)
Definition listCompanies
  (pageParam pageSizeParam searchParam : option queryValue) (storage : S)
  : response :=
  let page := orElse (parseParam pageParam) 1 in
  let pageSize := orElse (parseParam pageSizeParam) 10 in
  let searchQuery :=
    match searchParam with
    | Some v => v
    | None => QString EmptyString
    end in
  let result :=
    match searchQuery with
    | QString EmptyString => getCompanies page pageSize storage
    | _ => searchCompanies searchQuery page pageSize storage
    end in
  match result with
  | Some r => mkResponse 200 (PPage r)
  | None => mkResponse 500 (PMessage "Failed to fetch companies")
  end.

(** [GET /companies/:id]. *)
Definition fetchCompany (idParam : string) (storage : S) : response :=
  let id := ImportExcel.parseInt idParam in
  match getCompany id storage with
  | Some (Some company) => mkResponse 200 (PCompany company)
  | Some None => mkResponse 404 (PMessage "Company not found")
  | None => mkResponse 500 (PMessage "Failed to fetch company")
  end.

(** [DELETE /companies/:id]. *)
Definition removeCompany (idParam : string) (storage : S) : response * S :=
  let id := ImportExcel.parseInt idParam in
  match deleteCompany id storage with
  | Some (true, storage') => (mkResponse 204 PEmpty, storage')
  | Some (false, storage') =>
      (mkResponse 404 (PMessage "Company not found"), storage')
  | None => (mkResponse 500 (PMessage "Failed to delete company"), storage)
  end.

(** The loop over [emailData.companyIds]; [None] when a lookup rejects. *)
Fixpoint lookupAll (ids : list Z) (storage : S) : option (list Company) :=
  match ids with
  | [] => Some []
  | id :: rest =>
      match getCompany (JS.Num id) storage with
      | None => None
      | Some found =>
          match lookupAll rest storage with
          | None => None
          | Some companies =>
              Some (match found with
                    | Some company => company :: companies
                    | None => companies
                    end)
          end
      end
  end.

(** The companies to send to. *)
Definition recipients (emailData : EmailData) (storage : S)
  : option (list Company) :=
  match sendToSelected emailData, companyIds emailData with
  | Some true, Some (id :: rest) => lookupAll (id :: rest) storage
  | _, _ => option_map companies (getCompanies 1 100 storage)
  end.

(** [POST /send-email]: the response and the messages handed to the
    transport, which is taken to accept each of them. *)
Definition sendEmail (requestBody : EmailData) (storage : S)
  : response * list mail :=
  match emailSchemaParse requestBody with
  | None => (mkResponse 400 (PMessage "Invalid email data"), [])
  | Some emailData =>
      match recipients emailData storage with
      | None => (mkResponse 500 (PMessage "Failed to send emails"), [])
      | Some [] =>
          (mkResponse 400 (PMessage "No companies to send emails to"), [])
      | Some companiesForEmail =>
          let mails :=
            map (fun company : Company =>
                   mkMail (email company) (emailSubject emailData)
                     (renderContent (emailContent emailData) company))
              companiesForEmail in
          (mkResponse 200
             (PEmailReport
                ("Emails sent to "
                 ++ NilZero.string_of_int
                      (Z.to_int (Z.of_nat (length mails)))
                 ++ " companies")
                (map (fun company : Company => name company)
                   companiesForEmail)),
           mails)
      end
  end.

End Handlers.

(** The two listing methods of [MemStorage] at page numbers that need
    not be finite: the indices are computed as numbers. *)
Definition pageOf (companies : list Company) (page pageSize : JS.number)
  : Page :=
  let startIndex := JS.mul (JS.sub page 1) pageSize in
  let endIndex := JS.add startIndex pageSize in
  mkPage (JS.sliceNumber companies startIndex endIndex)
    (Z.of_nat (length companies)).

(** The in-memory store behind the interface.  No key of its map is
    [NaN] or an infinity; [searchCompanies] calls [query.toLowerCase],
    which a value that is not a string does not have. *)
#[export] Instance memStorage : IStorage MemStorage.t := {
  getCompanies page pageSize this :=
    Some (pageOf (JSMap.values (MemStorage.companiesMap this))
            page pageSize);
  getCompany id this :=
    match id with
    | JS.Num k => Some (MemStorage.getCompany k this)
    | _ => Some None
    end;
  deleteCompany id this :=
    match id with
    | JS.Num k => Some (MemStorage.deleteCompany k this)
    | _ => Some (false, this)
    end;
  searchCompanies query page pageSize this :=
    match query with
    | QString text =>
        Some (pageOf
                (filter (matchesQuery (JS.toLowerCase text))
                   (JSMap.values (MemStorage.companiesMap this)))
                page pageSize)
    | QOther _ => None
    end
}.

(** The column [id] is a 32-bit integer. *)
Definition inInteger (k : Z) : bool :=
  ((-2147483648 <=? k) && (k <=? 2147483647))%bool.

(** The persistent store behind the interface; [searchCompanies] puts
    the query into a template string, which takes the text of a value
    that is not a string. *)
#[export] Instance databaseStorage : IStorage DatabaseStorage.t := {
  getCompanies := DatabaseStorage.getCompanies;
  getCompany := DatabaseStorage.getCompany;
  deleteCompany := DatabaseStorage.deleteCompany;
  searchCompanies query :=
    DatabaseStorage.searchCompanies
      (match query with QString text => text | QOther text => text end)
}.

End Routes.

(** ** File check of the import ([isExcelFile], [handleFileChange]) *)

Module FileCheck.

Open Scope string_scope.
Open Scope list_scope.
Open Scope Z_scope.

(** [fileName.split('.').pop()]: the text after the last dot, or the whole
    name when it has no dot; [current] is the segment read so far. *)
Fixpoint lastSegment (current s : string) : string :=
  match s with
  | EmptyString => current
  | String c t =>
      if Ascii.eqb c "." then lastSegment EmptyString t
      else lastSegment (current ++ String c EmptyString) t
  end.

Definition allowed : list string := [ "xlsx"; "xls"; "csv" ].

Definition isExcelFile (fileName : string) : bool :=
  let extension := JS.toLowerCase (lastSegment EmptyString fileName) in
  existsb (String.eqb extension) allowed.

(** A selected file: its name and its size in bytes. *)
Record file := mkFile {
  fileName : string;
  fileSize : Z
}.

(** What [handleFileChange] does with the selection. *)
Inductive verdict :=
| Ignored
| InvalidFileType
| FileTooLarge
| Processed (f : file).

Definition handleFileChange (files : list file) : verdict :=
  match files with
  | [] => Ignored
  | f :: _ =>
      let fileExtension :=
        JS.toLowerCase (lastSegment EmptyString (fileName f)) in
      if negb (existsb (String.eqb fileExtension) allowed)
      then InvalidFileType
      else if 5 * 1024 * 1024 <? fileSize f then FileTooLarge
      else Processed f
  end.

End FileCheck.

(** ** Pager of the company table ([DataTable]) *)

Module DataTable.

Open Scope Z_scope.

(** [Math.ceil(totalCompanies / pageSize)] for a page size above 0. *)
Definition totalPages (totalCompanies pageSize : Z) : Z :=
  - ((- totalCompanies) / pageSize).

(** The entries [generatePaginationItems] builds, with their keys. *)
Inductive item :=
| Previous (disabled : bool)
| PageLink (number : Z) (isActive : bool)
| Ellipsis1
| Ellipsis2
| Next (disabled : bool).

Definition maxVisiblePages : Z := 5.

Definition startPage (page totalPages : Z) : Z :=
  let startPage := Z.max 1 (page - maxVisiblePages / 2) in
  let endPage := Z.min totalPages (startPage + maxVisiblePages - 1) in
  if endPage - startPage + 1 <? maxVisiblePages
  then Z.max 1 (endPage - maxVisiblePages + 1)
  else startPage.

Definition endPage (page totalPages : Z) : Z :=
  let startPage := Z.max 1 (page - maxVisiblePages / 2) in
  Z.min totalPages (startPage + maxVisiblePages - 1).

(** [for (let i = from; i <= to; i++)]. *)
Definition range (from to : Z) : list Z :=
  map (fun k => from + Z.of_nat k) (seq 0 (Z.to_nat (to - from + 1))).

Definition generatePaginationItems (page totalPages : Z) : list item :=
  let startPage := startPage page totalPages in
  let endPage := endPage page totalPages in
  [Previous (page =? 1)]
  ++ (if 1 <? startPage
      then PageLink 1 false :: (if 2 <? startPage then [Ellipsis1] else [])
      else [])
  ++ map (fun i => PageLink i (page =? i)) (range startPage endPage)
  ++ (if endPage <? totalPages
      then (if endPage <? totalPages - 1 then [Ellipsis2] else [])
           ++ [PageLink totalPages false]
      else [])
  ++ [Next (page =? totalPages)].

(** The page numbers the pager links to, in the order of the entries. *)
Definition linked (items : list item) : list Z :=
  flat_map (fun i => match i with PageLink n _ => [n] | _ => [] end) items.

(** The numbers of the links shown as the current page. *)
Definition active (items : list item) : list Z :=
  flat_map (fun i => match i with PageLink n true => [n] | _ => [] end)
    items.

(** [handlePageChange(newPage)]: the page after the click. *)
Definition handlePageChange (newPage page totalPages : Z) : Z :=
  if ((1 <=? newPage) && (newPage <=? totalPages))%bool then newPage
  else page.

(** The caption [Showing a to b of n results]: [a] and [b]. *)
Definition showingFrom (page pageSize : Z) (companies : list Company) : Z :=
  match companies with
  | [] => 0
  | _ => (page - 1) * pageSize + 1
  end.

Definition showingTo (page pageSize totalCompanies : Z) : Z :=
  Z.min (page * pageSize) totalCompanies.

(** [handleSelectRow(id, checked)] and [handleSelectAll(checked)]. *)
Definition handleSelectRow (k : Z) (checked : bool) (selectedIds : list Z)
  : list Z :=
  if checked then selectedIds ++ [k]
  else filter (fun companyId => negb (companyId =? k)) selectedIds.

Definition handleSelectAll (checked : bool) (companies : list Company)
  : list Z :=
  if checked then map id companies else [].

(** The [checked] attribute of the check box in the header and of the one
    in a row. *)
Definition selectAllChecked (selectedIds : list Z)
  (companies : list Company) : bool :=
  ((length selectedIds =? length companies)%nat
   && (0 <? length companies)%nat)%bool.

Definition rowChecked (selectedIds : list Z) (company : Company) : bool :=
  existsb (fun selected => selected =? id company) selectedIds.

End DataTable.

(** ** Vocabulary of the contract *)

(** The fields of a company other than its identifier, and their values. *)
Inductive field :=
| Name | Contact | Email | Phone | Industry | Location
| Employees | Revenue | Status | LastContact.

Inductive value :=
| VString (s : string)
| VNumber (n : JS.number).

Definition fieldOf (f : field) (c : InsertCompany) : value :=
  match f with
  | Name => VString (name c)
  | Contact => VString (contact c)
  | Email => VString (email c)
  | Phone => VString (phone c)
  | Industry => VString (industry c)
  | Location => VString (location c)
  | Employees => VNumber (employees c)
  | Revenue => VString (revenue c)
  | Status => VString (status c)
  | LastContact => VString (lastContact c)
  end.

(** The value a partial update supplies for a field, if any. *)
Definition supplied (f : field) (p : Partial.t) : option value :=
  match f with
  | Name => option_map VString (Partial.name p)
  | Contact => option_map VString (Partial.contact p)
  | Email => option_map VString (Partial.email p)
  | Phone => option_map VString (Partial.phone p)
  | Industry => option_map VString (Partial.industry p)
  | Location => option_map VString (Partial.location p)
  | Employees => option_map VNumber (Partial.employees p)
  | Revenue => option_map VString (Partial.revenue p)
  | Status => option_map VString (Partial.status p)
  | LastContact => option_map VString (Partial.lastContact p)
  end.

(** The contract's search predicate, in its own words: [query] is a
    substring of [text] up to the case of letters. *)
Definition ciSubstring (query text : string) : Prop :=
  exists before middle after : string,
    text = (before ++ middle ++ after)%string
    /\ JS.toLowerCase middle = JS.toLowerCase query.

Definition matchesContract (query : string) (c : Company) : Prop :=
  ciSubstring query (name c) \/ ciSubstring query (contact c)
  \/ ciSubstring query (email c) \/ ciSubstring query (industry c)
  \/ ciSubstring query (location c).

(** The records of the in-memory store, in the order its map iterates. *)
Definition records (this : MemStorage.t) : list Company :=
  JSMap.values (MemStorage.companiesMap this).

(** Orderings of a window by identifier. *)
Definition ascendingIds (l : list Company) : Prop :=
  StronglySorted Z.lt (map id l).


(** The window of width [n] at offset [o] of an ordered record list. *)
Definition window {A : Type} (o n : Z) (l : list A) : list A :=
  firstn (Z.to_nat n) (skipn (Z.to_nat o) l).

(** A history of assigned identifiers that increases strictly and stays
    between two values of the counter. *)
Definition idsWithin (lo : Z) (h : list Company) (hi : Z) : Prop :=
  StronglySorted Z.lt (map id h)
  /\ Forall (fun k => lo <= k < hi) (map id h)
  /\ lo <= hi.

(** A mapped value that is present and not the empty string, and one that
    is missing: absent, or the empty string. *)
Definition nonEmpty (v : option string) : Prop :=
  exists s, v = Some s /\ s <> EmptyString.



(** A text without any dollar sign. *)
Fixpoint dollarFree (s : string) : bool :=
  match s with
  | EmptyString => true
  | String c t => (negb (Ascii.eqb c "$") && dollarFree t)%bool
  end.

(** A text without any dot. *)
Fixpoint dotFree (s : string) : bool :=
  match s with
  | EmptyString => true
  | String c t => (negb (Ascii.eqb c ".") && dotFree t)%bool
  end.

(** A record with every text field but the date of last contact filled. *)
Definition filled (c : InsertCompany) : Prop :=
  name c <> EmptyString /\ contact c <> EmptyString
  /\ email c <> EmptyString /\ phone c <> EmptyString
  /\ industry c <> EmptyString /\ location c <> EmptyString
  /\ revenue c <> EmptyString /\ status c <> EmptyString.

(** A query without any character that [ILIKE] reads as a wildcard or as
    an escape. *)
Fixpoint wildcardFree (s : string) : bool :=
  match s with
  | EmptyString => true
  | String c t =>
      (negb (Ascii.eqb c "%") && negb (Ascii.eqb c "_")
       && negb (Ascii.eqb c "\") && wildcardFree t)%bool
  end.


(** The engine takes the insert of [values] into [tb]: every row fits its
    columns, the parameters fit one statement, and the sequence has a
    value left for every row. *)
Definition accepts (values : list InsertCompany) (tb : Db.table) : bool :=
  (forallb Db.storable values
   && (10 * Z.of_nat (length values) <=? Db.maxParameters)
   && (Db.nextId tb + Z.of_nat (length values) - 1 <=? Db.maxId))%bool.




(** A text of ASCII characters other than NUL, on which the engine and
    [toLowerCase] fold the same letters; a record whose five searched
    fields are such texts. *)
Fixpoint asciiText (s : string) : bool :=
  match s with
  | EmptyString => true
  | String c t =>
      (Nat.ltb 0 (nat_of_ascii c) && Nat.ltb (nat_of_ascii c) 128
       && asciiText t)%bool
  end.

Definition asciiFields (c : Company) : bool :=
  (asciiText (name c) && asciiText (contact c) && asciiText (email c)
   && asciiText (industry c) && asciiText (location c))%bool.

(** * Properties *)

(** ** Lists and [slice] *)

Section ListFacts.
Context {A : Type}.
Implicit Types l : list A.

Lemma firstn_min_length (n : nat) l :
  firstn (Nat.min n (length l)) l = firstn n l.
Proof.
  destruct (Nat.le_gt_cases n (length l)) as [H | H].
  - now rewrite Nat.min_l.
  - rewrite Nat.min_r by lia.
    now rewrite !firstn_all2 by lia.
Qed.

(** With a start and a width that are not negative, [slice] is the window
    at that offset. *)
Lemma slice_window l (o n : Z) :
  0 <= o -> 0 <= n -> JS.slice l o (o + n) = window o n l.
Proof.
  intros Ho Hn. unfold JS.slice, window, JS.relativeIndex.
  destruct (Z.ltb_spec o 0); [lia|].
  destruct (Z.ltb_spec (o + n) 0); [lia|].
  set (len := Z.of_nat (length l)).
  destruct (Z.le_gt_cases len o) as [Hlen | Hlen].
  - rewrite !skipn_all2 by (fold len; lia).
    now rewrite !firstn_nil.
  - rewrite (Z.min_l o len) by lia.
    rewrite <- (firstn_min_length (Z.to_nat n)).
    f_equal. rewrite length_skipn. fold len. lia.
Qed.




Lemma slice_nil (a b : Z) : JS.slice (@nil A) a b = [].
Proof. unfold JS.slice. now rewrite skipn_nil, firstn_nil. Qed.






End ListFacts.

(** ** Numbers *)

Section NumberFacts.

(** Up to 2^53 an integer is its own Number value. *)
Lemma ofZ_safe z : JS.isSafeInteger z = true -> JS.ofZ z = JS.Num z.
Proof.
  unfold JS.isSafeInteger, JS.ofZ, JS.roundToDouble.
  rewrite andb_true_iff, !Z.leb_le. intros [H1 H2].
  destruct (Z.ltb_spec (Z.abs z) (2 ^ 53)); [|lia].
  destruct (Z.leb_spec (2 ^ 1024) (Z.abs z)); [lia|].
  f_equal. clear. now destruct z.
Qed.

Lemma sub_safe a b :
  JS.isSafeInteger (a - b) = true ->
  JS.sub (JS.Num a) (JS.Num b) = JS.Num (a - b).
Proof.
  intros H. unfold JS.sub, JS.opposite, JS.add.
  replace (a + - b) with (a - b) by lia. now apply ofZ_safe.
Qed.

Lemma add_safe a b :
  JS.isSafeInteger (a + b) = true ->
  JS.add (JS.Num a) (JS.Num b) = JS.Num (a + b).
Proof. intros H. now apply ofZ_safe. Qed.

Lemma mul_safe a b :
  JS.isSafeInteger (a * b) = true ->
  JS.mul (JS.Num a) (JS.Num b) = JS.Num (a * b).
Proof. intros H. now apply ofZ_safe. Qed.

Lemma isSafeInteger_spec z :
  JS.isSafeInteger z = true <-> - (2 ^ 53 - 1) <= z <= 2 ^ 53 - 1.
Proof. unfold JS.isSafeInteger. now rewrite andb_true_iff, !Z.leb_le. Qed.

End NumberFacts.

(** ** The insertion-ordered map *)

Section MapFacts.
Context {V : Type}.
Implicit Types m : JSMap.t V.

Lemma get_replace_same k v m :
  JSMap.has k m = true -> JSMap.get k (JSMap.replace k v m) = Some v.
Proof.
  unfold JSMap.has. induction m as [|[k' v'] m IH]; simpl; [discriminate|].
  destruct (Z.eqb_spec k k') as [->|Hne]; simpl.
  - now rewrite Z.eqb_refl.
  - destruct (Z.eqb_spec k k'); [contradiction|]. exact IH.
Qed.

Lemma get_app_fresh k v m :
  JSMap.has k m = false -> JSMap.get k (m ++ [(k, v)]) = Some v.
Proof.
  unfold JSMap.has. induction m as [|[k' v'] m IH]; simpl; intros H.
  - now rewrite Z.eqb_refl.
  - destruct (k =? k'); [discriminate|]. auto.
Qed.

Lemma get_set_same k v m : JSMap.get k (JSMap.set k v m) = Some v.
Proof.
  unfold JSMap.set. destruct (JSMap.has k m) eqn:H.
  - now apply get_replace_same.
  - now apply get_app_fresh.
Qed.

Lemma get_replace_other k k' v m :
  k' <> k -> JSMap.get k' (JSMap.replace k v m) = JSMap.get k' m.
Proof.
  intros Hne. induction m as [|[k0 v0] m IH]; simpl; [reflexivity|].
  destruct (Z.eqb_spec k k0) as [->|]; simpl.
  - destruct (Z.eqb_spec k' k0); [contradiction | reflexivity].
  - now rewrite IH.
Qed.

Lemma get_app_other k k' v m :
  k' <> k -> JSMap.get k' (m ++ [(k, v)]) = JSMap.get k' m.
Proof.
  intros Hne. induction m as [|[k0 v0] m IH]; simpl.
  - destruct (Z.eqb_spec k' k); [contradiction | reflexivity].
  - now rewrite IH.
Qed.

Lemma get_set_other k k' v m :
  k' <> k -> JSMap.get k' (JSMap.set k v m) = JSMap.get k' m.
Proof.
  intros Hne. unfold JSMap.set. destruct (JSMap.has k m).
  - now apply get_replace_other.
  - now apply get_app_other.
Qed.

Lemma keys_replace k v m : JSMap.keys (JSMap.replace k v m) = JSMap.keys m.
Proof.
  unfold JSMap.keys. induction m as [|[k0 v0] m IH]; simpl; [reflexivity|].
  destruct (k =? k0); simpl; [reflexivity | now rewrite IH].
Qed.

Lemma get_remove_other k k' m :
  k' <> k -> JSMap.get k' (JSMap.remove k m) = JSMap.get k' m.
Proof.
  intros Hne. induction m as [|[k0 v0] m IH]; simpl; [reflexivity|].
  destruct (Z.eqb_spec k k0) as [->|]; simpl.
  - destruct (Z.eqb_spec k' k0); [contradiction | reflexivity].
  - now rewrite IH.
Qed.

Lemma get_None_not_key k m :
  JSMap.get k m = None <-> ~ In k (JSMap.keys m).
Proof.
  unfold JSMap.keys. induction m as [|[k0 v0] m IH]; simpl; [tauto|].
  destruct (Z.eqb_spec k k0) as [->|Hne].
  - split; [discriminate | tauto].
  - rewrite IH. intuition congruence.
Qed.

Lemma remove_absent k m : JSMap.get k m = None -> JSMap.remove k m = m.
Proof.
  induction m as [|[k0 v0] m IH]; simpl; [reflexivity|].
  destruct (k =? k0); [discriminate|]. intros H. now rewrite IH.
Qed.

Lemma get_remove_same k m :
  NoDup (JSMap.keys m) -> JSMap.get k (JSMap.remove k m) = None.
Proof.
  unfold JSMap.keys. induction m as [|[k0 v0] m IH]; simpl; intros Hnd.
  - reflexivity.
  - inversion Hnd as [|? ? Hnotin Hnd']; subst.
    destruct (Z.eqb_spec k k0) as [->|Hne]; simpl.
    + now apply get_None_not_key.
    + destruct (Z.eqb_spec k k0); [contradiction | auto].
Qed.
End MapFacts.

(** ** The representation invariant of [MemStorage] *)

Section MemInvariant.
Import MemStorage.
Implicit Types m : JSMap.t Company.

Ltac split_ascending H :=
  simpl in H; rewrite !andb_true_iff, !Z.ltb_lt, Z.eqb_eq in H;
  destruct H as [[[? ?] ?] ?].

Ltac join_ascending :=
  simpl; rewrite !andb_true_iff, !Z.ltb_lt, Z.eqb_eq; repeat split.

Lemma ascending_bounds lo m hi :
  ascending lo m hi = true -> Forall (fun k => lo < k < hi) (JSMap.keys m).
Proof.
  revert lo. induction m as [|[k c] m IH]; intros lo H; simpl.
  - constructor.
  - split_ascending H. constructor; [lia|].
    eapply Forall_impl; [|apply (IH k); assumption].
    simpl. intros; lia.
Qed.

Lemma ascending_sorted lo m hi :
  ascending lo m hi = true -> StronglySorted Z.lt (JSMap.keys m).
Proof.
  revert lo. induction m as [|[k c] m IH]; intros lo H; simpl.
  - constructor.
  - split_ascending H. constructor; [eauto|].
    eapply Forall_impl; [|apply (ascending_bounds k m hi); assumption].
    simpl. intros; lia.
Qed.

Lemma ascending_ids lo m hi :
  ascending lo m hi = true -> map id (JSMap.values m) = JSMap.keys m.
Proof.
  revert lo. induction m as [|[k c] m IH]; intros lo H; simpl.
  - reflexivity.
  - split_ascending H. f_equal; eauto.
Qed.

Lemma ascending_relax lo lo' m hi hi' :
  lo' <= lo -> hi <= hi' ->
  ascending lo m hi = true -> ascending lo' m hi' = true.
Proof.
  revert lo lo'. induction m as [|[k c] m IH]; intros lo lo' Hlo Hhi H.
  - reflexivity.
  - split_ascending H. join_ascending; try lia.
    apply (IH k k); [lia | lia | assumption].
Qed.

Lemma ascending_snoc lo m hi c :
  lo < hi -> id c = hi -> ascending lo m hi = true ->
  ascending lo (m ++ [(hi, c)]) (hi + 1) = true.
Proof.
  revert lo. induction m as [|[k d] m IH]; intros lo Hlo Hid H.
  - join_ascending; try lia.
  - split_ascending H. join_ascending; try lia.
    apply IH; assumption.
Qed.

Lemma ascending_replace lo m hi k c :
  id c = k -> ascending lo m hi = true ->
  ascending lo (JSMap.replace k c m) hi = true.
Proof.
  intros Hid. revert lo. induction m as [|[k0 d] m IH]; intros lo H.
  - reflexivity.
  - split_ascending H. simpl.
    destruct (Z.eqb_spec k k0) as [->|Hne]; join_ascending; auto.
Qed.

Lemma ascending_remove lo m hi k :
  ascending lo m hi = true -> ascending lo (JSMap.remove k m) hi = true.
Proof.
  revert lo. induction m as [|[k0 d] m IH]; intros lo H.
  - reflexivity.
  - split_ascending H. simpl. destruct (k =? k0).
    + apply (ascending_relax k0 lo m hi hi); [lia | lia | assumption].
    + join_ascending; auto.
Qed.

Lemma StronglySorted_lt_NoDup (l : list Z) :
  StronglySorted Z.lt l -> NoDup l.
Proof.
  induction 1 as [|a l Hs IH Hall]; constructor; [|assumption].
  intros Hin. rewrite Forall_forall in Hall.
  specialize (Hall a Hin). lia.
Qed.

Lemma ascending_NoDup lo m hi :
  ascending lo m hi = true -> NoDup (JSMap.keys m).
Proof.
  intros H. eapply StronglySorted_lt_NoDup, ascending_sorted, H.
Qed.

Lemma ascending_get_beyond lo m hi k :
  ascending lo m hi = true -> hi <= k -> JSMap.get k m = None.
Proof.
  intros H Hk. apply get_None_not_key. intros Hin.
  apply ascending_bounds in H. rewrite Forall_forall in H.
  specialize (H k Hin). lia.
Qed.

Lemma ascending_get_id lo m hi k c :
  ascending lo m hi = true -> JSMap.get k m = Some c -> id c = k.
Proof.
  revert lo. induction m as [|[k0 d] m IH]; intros lo H Hget.
  - discriminate.
  - split_ascending H. simpl in Hget.
    destruct (Z.eqb_spec k k0) as [->|Hne]; [congruence | eauto].
Qed.

Lemma wf_unfold this :
  wf this = true <->
  0 < currentCompanyId this
  /\ ascending 0 (companiesMap this) (currentCompanyId this) = true.
Proof. unfold wf. now rewrite andb_true_iff, Z.ltb_lt. Qed.

Lemma wf_fresh : wf fresh = true.
Proof. reflexivity. Qed.

Lemma wf_createCompany c this :
  wf this = true -> wf (snd (createCompany c this)) = true.
Proof.
  rewrite !wf_unfold. intros [Hpos Hasc]. simpl. split; [lia|].
  unfold JSMap.set, JSMap.has.
  rewrite (ascending_get_beyond _ _ _ _ Hasc) by lia.
  now apply ascending_snoc.
Qed.

Lemma wf_updateCompany k p this :
  wf this = true -> wf (snd (updateCompany k p this)) = true.
Proof.
  rewrite wf_unfold. intros [Hpos Hasc]. unfold updateCompany.
  destruct (JSMap.get k (companiesMap this)) as [old|] eqn:Hget; simpl.
  - apply wf_unfold; simpl. split; [assumption|].
    unfold JSMap.set, JSMap.has. rewrite Hget.
    apply ascending_replace; [|assumption].
    simpl. eapply ascending_get_id; eassumption.
  - now apply wf_unfold.
Qed.

Lemma wf_deleteCompany k this :
  wf this = true -> wf (snd (deleteCompany k this)) = true.
Proof.
  rewrite !wf_unfold. intros [Hpos Hasc]. simpl. split; [assumption|].
  now apply ascending_remove.
Qed.

Lemma wf_createManyLoop l : forall count this,
  wf this = true -> wf (snd (createManyLoop l count this)) = true.
Proof.
  induction l as [|c l IH]; intros count this H; simpl; [assumption|].
  apply IH. exact (wf_createCompany c this H).
Qed.

Lemma wf_step c this : wf this = true -> wf (snd (step c this)) = true.
Proof.
  destruct c; simpl.
  - apply wf_createCompany.
  - apply wf_updateCompany.
  - apply wf_deleteCompany.
  - apply wf_createManyLoop.
Qed.

Lemma wf_run cs : forall this,
  wf this = true -> wf (snd (run cs this)) = true.
Proof.
  induction cs as [|c cs IH]; intros this H; simpl; [assumption|].
  pose proof (wf_step c this H) as H1.
  destruct (step c this) as [h1 this1].
  specialize (IH this1 H1).
  destruct (run cs this1) as [h2 this2]. exact IH.
Qed.

Lemma wf_constructor : wf constructor = true.
Proof. reflexivity. Qed.


End MemInvariant.

(** ** Identifier assignment *)

Section Identifiers.

Lemma idsWithin_nil lo : idsWithin lo [] lo.
Proof. repeat split; try constructor; lia. Qed.

Lemma idsWithin_app a b c h1 h2 :
  idsWithin a h1 b -> idsWithin b h2 c -> idsWithin a (h1 ++ h2) c.
Proof.
  intros (S1 & B1 & L1) (S2 & B2 & L2). unfold idsWithin.
  rewrite map_app. repeat split; [| |lia].
  - induction S1 as [|x l Sl IH Hx]; simpl; [assumption|].
    inversion B1 as [|? ? Bx Bl]; subst.
    constructor; [auto|].
    apply Forall_app; split; [assumption|].
    eapply Forall_impl; [|exact B2]. simpl. intros; lia.
  - apply Forall_app; split;
      (eapply Forall_impl; [|eassumption]); simpl; intros; lia.
Qed.

Lemma idsWithin_single c lo :
  id c = lo -> idsWithin lo [c] (lo + 1).
Proof.
  intros <-. repeat split; simpl; try lia.
  - repeat constructor.
  - repeat constructor; lia.
Qed.

Import MemStorage.

Lemma mem_createdInLoop_ids l : forall count this,
  idsWithin (currentCompanyId this) (createdInLoop l this)
    (currentCompanyId (snd (createManyLoop l count this))).
Proof.
  induction l as [|c l IH]; intros count this; simpl.
  - apply idsWithin_nil.
  - apply (idsWithin_app _ (currentCompanyId this + 1) _ [_]).
    + now apply idsWithin_single.
    + apply IH.
Qed.

Lemma mem_step_ids c this :
  idsWithin (currentCompanyId this) (fst (step c this))
    (currentCompanyId (snd (step c this))).
Proof.
  destruct c as [x | k p | k | l]; simpl.
  - now apply idsWithin_single.
  - unfold updateCompany.
    destruct (JSMap.get k (companiesMap this)); apply idsWithin_nil.
  - apply idsWithin_nil.
  - apply mem_createdInLoop_ids.
Qed.

Lemma mem_run_ids cs : forall this,
  idsWithin (currentCompanyId this) (fst (run cs this))
    (currentCompanyId (snd (run cs this))).
Proof.
  induction cs as [|c cs IH]; intros this; simpl.
  - apply idsWithin_nil.
  - pose proof (mem_step_ids c this) as H1.
    destruct (step c this) as [h1 this1]. simpl in H1.
    specialize (IH this1).
    destruct (run cs this1) as [h2 this2]. simpl in *.
    eapply idsWithin_app; eassumption.
Qed.

(** The constructor is a history of three [createCompany] calls on the
    empty store. *)
Lemma constructor_is_history :
  constructor = snd (run (map CreateCompany sampleCompanies) fresh).
Proof. reflexivity. Qed.

End Identifiers.

(** ** The table behind [DatabaseStorage] *)

Section TableFacts.
Import Db.

Lemma insertRows_cons v l db :
  insertRows (v :: l) db =
  let row := mkCompany (nextId db) v in
  let r := insertRows l (mk (rows db ++ [row]) (nextId db + 1)) in
  (row :: fst r, snd r).
Proof.
  simpl. now destruct (insertRows l _).
Qed.

Lemma insertRows_rows l : forall db,
  rows (snd (insertRows l db)) = rows db ++ fst (insertRows l db).
Proof.
  induction l as [|v l IH]; intros db.
  - simpl. now rewrite app_nil_r.
  - rewrite insertRows_cons. simpl. rewrite IH. simpl.
    now rewrite <- app_assoc.
Qed.

Lemma insertRows_nextId l : forall db,
  nextId (snd (insertRows l db)) = nextId db + Z.of_nat (length l).
Proof.
  induction l as [|v l IH]; intros db.
  - simpl. lia.
  - rewrite insertRows_cons. simpl fst; simpl snd.
    rewrite IH. simpl nextId. simpl length. lia.
Qed.

Lemma insertRows_data l : forall db,
  map data (fst (insertRows l db)) = l.
Proof.
  induction l as [|v l IH]; intros db.
  - reflexivity.
  - rewrite insertRows_cons. simpl. now rewrite IH.
Qed.

Lemma insertRows_length l db :
  length (fst (insertRows l db)) = length l.
Proof.
  rewrite <- (length_map data). now rewrite insertRows_data.
Qed.

Lemma insertRows_ids l : forall db,
  idsWithin (nextId db) (fst (insertRows l db))
    (nextId (snd (insertRows l db))).
Proof.
  induction l as [|v l IH]; intros db.
  - apply idsWithin_nil.
  - rewrite insertRows_cons. simpl fst; simpl snd.
    apply (idsWithin_app _ (nextId db + 1) _ [_]).
    + now apply idsWithin_single.
    + apply (IH (mk _ _)).
Qed.

(** Row by row or in one statement, an insert leaves the same table. *)
Lemma insertRows_app l1 l2 db :
  snd (insertRows (l1 ++ l2) db) =
  snd (insertRows l2 (snd (insertRows l1 db))).
Proof.
  revert db. induction l1 as [|v l1 IH]; intros db.
  - reflexivity.
  - rewrite <- app_comm_cons, !insertRows_cons. simpl. apply IH.
Qed.

Import DatabaseStorage.

Lemma insertReturning_accepted l db :
  accepts l db = true ->
  insertReturning l db
  = (Some (fst (insertRows l db)), snd (insertRows l db)).
Proof.
  unfold accepts, insertReturning. rewrite !andb_true_iff.
  intros [[Hs Hp] Hr]. rewrite Hs, Hp, Hr. cbn [andb negb].
  now destruct (insertRows l db).
Qed.

Lemma insertReturning_refused l db :
  accepts l db = false ->
  fst (insertReturning l db) = None
  /\ rows (snd (insertReturning l db)) = rows db
  /\ nextId db <= nextId (snd (insertReturning l db)).
Proof.
  unfold accepts, insertReturning. intros H.
  destruct (forallb storable l
            && (10 * Z.of_nat (length l) <=? maxParameters))%bool;
    cbn [andb negb] in *.
  - rewrite H. cbn [fst snd rows nextId]. repeat split. lia.
  - cbn [fst snd]. repeat split. lia.
Qed.

(** A row that does not fit is found before the statement runs. *)
Lemma insertReturning_unstorable l db :
  forallb storable l = false -> insertReturning l db = (None, db).
Proof.
  intros H. unfold insertReturning. now rewrite H.
Qed.

Lemma accepts_cons v l db :
  accepts (v :: l) db = true ->
  accepts [v] db = true
  /\ accepts l (mk (rows db ++ [mkCompany (nextId db) v]) (nextId db + 1))
     = true.
Proof.
  unfold accepts, maxParameters. cbn [forallb length nextId].
  rewrite !andb_true_iff, !Z.leb_le. intuition lia.
Qed.

Lemma createMany_accepted l db :
  accepts l db = true ->
  createManyCompanies l db
  = (Some (Z.of_nat (length l)), snd (insertRows l db)).
Proof.
  intros H. unfold createManyCompanies. destruct l as [|v l]; [reflexivity|].
  rewrite (insertReturning_accepted _ _ H).
  now rewrite insertRows_length.
Qed.

Lemma keys_primaryKey l : JSMap.keys (primaryKey l) = map id l.
Proof. unfold JSMap.keys, primaryKey. now rewrite map_map. Qed.

Lemma primaryKey_app l1 l2 :
  primaryKey (l1 ++ l2) = primaryKey l1 ++ primaryKey l2.
Proof. apply map_app. Qed.

Lemma wf_unfold_db db :
  wf db = true <->
  0 < nextId db /\ ascending 0 (primaryKey (rows db)) (nextId db) = true.
Proof. unfold wf. now rewrite andb_true_iff, Z.ltb_lt. Qed.

Lemma wf_rows_below db :
  wf db = true -> Forall (fun row => id row < nextId db) (rows db).
Proof.
  rewrite wf_unfold_db. intros [_ H].
  apply ascending_bounds in H. rewrite keys_primaryKey, Forall_map in H.
  eapply Forall_impl; [|exact H]. simpl. intros; lia.
Qed.

Lemma wf_insertRows l : forall db,
  wf db = true -> wf (snd (insertRows l db)) = true.
Proof.
  induction l as [|v l IH]; intros db H; [assumption|].
  rewrite insertRows_cons. simpl snd. apply IH.
  apply wf_unfold_db in H. destruct H as [Hpos Hasc].
  apply wf_unfold_db. simpl. split; [lia|].
  rewrite primaryKey_app. simpl.
  now apply ascending_snoc.
Qed.

Lemma wf_insertReturning l db :
  wf db = true -> wf (snd (insertReturning l db)) = true.
Proof.
  intros H. destruct (accepts l db) eqn:E.
  - rewrite (insertReturning_accepted _ _ E). now apply wf_insertRows.
  - destruct (insertReturning_refused _ _ E) as (_ & Hrows & Hnext).
    apply wf_unfold_db in H. destruct H as [Hpos Hasc].
    apply wf_unfold_db. rewrite Hrows. split; [lia|].
    apply (ascending_relax 0 0 _ (nextId db)); [lia | lia | exact Hasc].
Qed.

Lemma ascending_filter (f : Z * Company -> bool) m : forall lo hi,
  ascending lo m hi = true -> ascending lo (filter f m) hi = true.
Proof.
  induction m as [|[k c] m IH]; intros lo hi H; [reflexivity|].
  simpl in H. rewrite !andb_true_iff, !Z.ltb_lt, Z.eqb_eq in H.
  destruct H as [[[Hlo Hhi] Hid] Hm]. simpl. destruct (f (k, c)).
  - simpl. rewrite !andb_true_iff, !Z.ltb_lt, Z.eqb_eq. auto.
  - apply IH. apply (ascending_relax k lo m hi hi); [lia | lia | exact Hm].
Qed.

Lemma primaryKey_filter (f : Company -> bool) l :
  primaryKey (filter f l) = filter (fun e => f (snd e)) (primaryKey l).
Proof.
  induction l as [|x l IH]; simpl; [reflexivity|].
  destruct (f x); simpl; now rewrite IH.
Qed.

Lemma wf_deleteWhere cond db :
  wf db = true -> wf (deleteWhere cond db) = true.
Proof.
  rewrite !wf_unfold_db. simpl. intros [Hpos H]. split; [assumption|].
  rewrite primaryKey_filter. now apply ascending_filter.
Qed.

Lemma wf_step_db c db : wf db = true -> wf (snd (step c db)) = true.
Proof.
  intros H. destruct c as [x | k | l]; simpl.
  - unfold createCompany.
    pose proof (wf_insertReturning [x] db H) as H1.
    now destruct (insertReturning [x] db) as [[returned|] db'].
  - unfold deleteCompany. destruct (int4 k); [|assumption].
    now apply wf_deleteWhere.
  - destruct l as [|v l]; [assumption|].
    pose proof (wf_insertReturning (v :: l) db H) as H1.
    now destruct (insertReturning (v :: l) db) as [result db'].
Qed.

Lemma wf_run_db cs : forall db,
  wf db = true -> wf (snd (run cs db)) = true.
Proof.
  induction cs as [|c cs IH]; intros db H; simpl; [assumption|].
  pose proof (wf_step_db c db H) as H1.
  destruct (step c db) as [h1 db1].
  specialize (IH db1 H1).
  destruct (run cs db1) as [h2 db2]. exact IH.
Qed.

Lemma insertReturning_ids l db :
  idsWithin (nextId db)
    (match fst (insertReturning l db) with
     | Some created => created
     | None => []
     end)
    (nextId (snd (insertReturning l db))).
Proof.
  destruct (accepts l db) eqn:E.
  - rewrite (insertReturning_accepted _ _ E). apply insertRows_ids.
  - destruct (insertReturning_refused _ _ E) as (-> & _ & Hnext).
    repeat split; try constructor. exact Hnext.
Qed.

Lemma db_step_ids c db :
  idsWithin (nextId db) (fst (step c db)) (nextId (snd (step c db))).
Proof.
  destruct c as [x | k | l]; simpl.
  - unfold createCompany.
    pose proof (insertReturning_ids [x] db) as H.
    destruct (accepts [x] db) eqn:E.
    + rewrite (insertReturning_accepted _ _ E) in *. exact H.
    + destruct (insertReturning [x] db) as [[returned|] db'] eqn:E1;
        simpl in *.
      * destruct (insertReturning_refused _ _ E) as (E2 & _).
        rewrite E1 in E2. discriminate.
      * exact H.
  - unfold deleteCompany. destruct (int4 k); apply idsWithin_nil.
  - destruct l as [|v l]; [apply idsWithin_nil|].
    pose proof (insertReturning_ids (v :: l) db) as H.
    now destruct (insertReturning (v :: l) db) as [result db'].
Qed.

Lemma db_run_ids cs : forall db,
  idsWithin (nextId db) (fst (run cs db)) (nextId (snd (run cs db))).
Proof.
  induction cs as [|c cs IH]; intros db; simpl.
  - apply idsWithin_nil.
  - pose proof (db_step_ids c db) as H1.
    destruct (step c db) as [h1 db1]. simpl in H1.
    specialize (IH db1).
    destruct (run cs db1) as [h2 db2]. simpl in *.
    eapply idsWithin_app; eassumption.
Qed.

Lemma filter_eqId_none k (l : list Company) :
  Forall (fun row => id row < k) l -> filter (eqId k) l = [].
Proof.
  induction 1 as [|x l Hx Hl IH]; simpl; [reflexivity|].
  unfold eqId at 1. destruct (Z.eqb_spec (id x) k); [lia | assumption].
Qed.

Lemma accepts_single c db :
  accepts [c] db = true <-> storable c = true /\ nextId db <= maxId.
Proof.
  unfold accepts, maxParameters. cbn [forallb length].
  rewrite andb_true_r, !andb_true_iff, !Z.leb_le. split.
  - intros [[Hs _] Hr]. split; [exact Hs | lia].
  - intros [Hs Hr]. repeat split; try assumption; lia.
Qed.

Lemma createCompany_accepted c db :
  accepts [c] db = true ->
  createCompany c db
  = (Some (mkCompany (nextId db) c),
     mk (rows db ++ [mkCompany (nextId db) c]) (nextId db + 1)).
Proof.
  intros H. unfold createCompany.
  now rewrite (insertReturning_accepted _ _ H).
Qed.

Lemma createCompany_refused c db :
  accepts [c] db = false ->
  fst (createCompany c db) = None
  /\ rows (snd (createCompany c db)) = rows db.
Proof.
  intros H. unfold createCompany.
  destruct (insertReturning_refused _ _ H) as (H1 & H2 & _).
  destruct (insertReturning [c] db) as [[returned|] db']; simpl in *;
    [discriminate | now split].
Qed.

Lemma getCompany_createCompany c db :
  wf db = true ->
  accepts [c] db = true ->
  getCompany (nextId db) (snd (createCompany c db))
  = Some (Some (mkCompany (nextId db) c)).
Proof.
  intros H Ha. rewrite (createCompany_accepted _ _ Ha).
  apply accepts_single in Ha. destruct Ha as [_ Hmax].
  pose proof (proj1 (wf_unfold_db db) H) as [Hpos _].
  apply wf_rows_below in H.
  unfold getCompany, selectWhere, int4, maxId in *. cbn [snd rows].
  destruct (Z.leb_spec (-2147483648) (nextId db)); [|lia].
  destruct (Z.leb_spec (nextId db) 2147483647); [|lia]. cbn [andb].
  rewrite filter_app, (filter_eqId_none _ _ H). simpl.
  unfold eqId. simpl. now rewrite Z.eqb_refl.
Qed.
End TableFacts.

(** C1, as the stores have it.  On either store, the identifiers that
    [createCompany] hands out over any history of calls increase
    strictly, so each is new and above every identifier assigned before
    it.  The in-memory store returns a record on every call; the
    persistent store returns one exactly when the row fits the columns of
    the table and the sequence has a value left, and otherwise rejects the
    call and stores nothing.  The record a call returns is the submitted
    data under the assigned identifier, and it is the record stored under
    that identifier. *)
Theorem createCompany_identifier_fresh_and_stored :
  (forall cs this,
      StronglySorted Z.lt (map id (fst (MemStorage.run cs this))))
  /\ (forall c this,
        fst (MemStorage.createCompany c this)
        = mkCompany (MemStorage.currentCompanyId this) c
        /\ MemStorage.getCompany (MemStorage.currentCompanyId this)
             (snd (MemStorage.createCompany c this))
           = Some (fst (MemStorage.createCompany c this)))
  /\ (forall cs db,
        StronglySorted Z.lt (map id (fst (DatabaseStorage.run cs db))))
  /\ (forall cs c,
        let db := snd (DatabaseStorage.run cs Db.empty) in
        Db.storable c = true ->
        Db.nextId db <= Db.maxId ->
        fst (DatabaseStorage.createCompany c db)
        = Some (mkCompany (Db.nextId db) c)
        /\ DatabaseStorage.getCompany (Db.nextId db)
             (snd (DatabaseStorage.createCompany c db))
           = Some (Some (mkCompany (Db.nextId db) c)))
  /\ (forall c db,
        Db.storable c = false \/ Db.maxId < Db.nextId db ->
        fst (DatabaseStorage.createCompany c db) = None
        /\ Db.rows (snd (DatabaseStorage.createCompany c db)) = Db.rows db).
Proof.
  split; [|split; [|split; [|split]]].
  - intros cs this. apply (mem_run_ids cs this).
  - intros c this. split; [reflexivity | apply get_set_same].
  - intros cs db. apply (db_run_ids cs db).
  - intros cs c db Hs Hmax.
    assert (accepts [c] db = true) as Ha by now apply accepts_single.
    split.
    + now rewrite (createCompany_accepted _ _ Ha).
    + apply getCompany_createCompany; [|exact Ha].
      apply wf_run_db. reflexivity.
  - intros c db H. apply createCompany_refused.
    apply not_true_is_false. rewrite accepts_single. intros [Hs Hmax].
    destruct H as [H | H]; [congruence | lia].
Qed.

(** A fourth company on the table that holds the three samples. *)
Lemma createCompany_identifier_fresh_and_stored_witness :
  fst (DatabaseStorage.createCompany
         (mkInsertCompany "Initech" "Bill" "bill@initech.com" "N/A" "Other"
            "Unknown" 12 "Unknown" "New" "2024-01-31")
         (snd (DatabaseStorage.run
                 [DatabaseStorage.CreateManyCompanies
                    MemStorage.sampleCompanies] Db.empty)))
  = Some (mkCompany 4
            (mkInsertCompany "Initech" "Bill" "bill@initech.com" "N/A"
               "Other" "Unknown" 12 "Unknown" "New" "2024-01-31")).
Proof.
  apply (proj1 (proj2 (proj2 (proj2
           createCompany_identifier_fresh_and_stored)))
           [DatabaseStorage.CreateManyCompanies MemStorage.sampleCompanies]
           (mkInsertCompany "Initech" "Bill" "bill@initech.com" "N/A"
              "Other" "Unknown" 12 "Unknown" "New" "2024-01-31"));
    [reflexivity | vm_compute; discriminate].
Defined.

(** C1 as stated fails on the persistent store: a company with
    2147483648 employees does not fit the [integer] column; the call
    returns no record and the table stays empty. *)
Lemma createCompany_db_refuses_row :
  DatabaseStorage.createCompany
    (mkInsertCompany "Initech" "Bill" "bill@initech.com" "N/A" "Other"
       "Unknown" 2147483648 "Unknown" "New" "2024-01-31") Db.empty
  = (None, Db.empty).
Proof. reflexivity. Qed.

(** ** Order of the listed records *)

Section Ordering.




Lemma sorted_ids_filter (R : Z -> Z -> Prop) (f : Company -> bool) l :
  StronglySorted R (map id l) -> StronglySorted R (map id (filter f l)).
Proof.
  induction l as [|x l IH]; simpl; intros H; [constructor|].
  inversion H as [|? ? Hs Hall]; subst.
  destruct (f x); simpl; [|auto].
  constructor; [auto|].
  rewrite Forall_forall in *. intros y Hy. apply Hall.
  apply in_map_iff in Hy. destruct Hy as (c & <- & Hc).
  apply filter_In in Hc. apply in_map. tauto.
Qed.


Import Db.





Lemma orderByIdDesc_length l : length (orderByIdDesc l) = length l.
Proof.
  induction l as [|c l IH]; simpl; [reflexivity|].
  rewrite <- IH. generalize (orderByIdDesc l). intros s.
  induction s as [|d s IHs]; simpl; [reflexivity|].
  destruct (id d <=? id c); simpl; [reflexivity | now rewrite IHs].
Qed.

Lemma wf_rows_ascending db :
  DatabaseStorage.wf db = true -> ascendingIds (rows db).
Proof.
  rewrite wf_unfold_db. intros [_ H].
  apply ascending_sorted in H.
  now rewrite keys_primaryKey in H.
Qed.




(** The window of a page whose limit and offset are row counts. *)
Lemma selectPage_counts cond (limit offset : Z) db :
  0 <= limit <= 9223372036854775807 ->
  0 <= offset <= 9223372036854775807 ->
  selectPage cond limit offset db
  = Some (firstn (Z.to_nat limit)
            (skipn (Z.to_nat offset)
               (orderByIdDesc (filter cond (rows db))))).
Proof.
  intros Hl Ho. unfold selectPage, offsetClause, limitClause, rowCount, int8.
  cbn [JS.truthyNumber].
  destruct (Z.leb_spec 0 limit); [|lia].
  destruct (Z.leb_spec 0 offset); [|lia].
  destruct (Z.leb_spec (-9223372036854775808) limit); [|lia].
  destruct (Z.leb_spec limit 9223372036854775807); [|lia].
  destruct (Z.leb_spec (-9223372036854775808) offset); [|lia].
  destruct (Z.leb_spec offset 9223372036854775807); [|lia].
  cbn [andb option_map].
  destruct (Z.eqb_spec offset 0) as [->|]; reflexivity.
Qed.




(** The offset of a page, computed as a number. *)
Lemma offset_safe (page pageSize : Z) :
  JS.isSafeInteger (page - 1) = true ->
  JS.isSafeInteger ((page - 1) * pageSize) = true ->
  JS.mul (JS.sub page 1) pageSize = JS.Num ((page - 1) * pageSize).
Proof.
  intros Hp Ho. rewrite (sub_safe _ _ Hp). now apply mul_safe.
Qed.

Lemma count_all db : count (fun _ => true) db = Z.of_nat (length (rows db)).
Proof.
  unfold count. f_equal. f_equal.
  induction (rows db) as [|x r IH]; simpl; [reflexivity|].
  now rewrite IH.
Qed.

End Ordering.




(** ** Deleting and updating *)

Section DeleteUpdate.

Lemma filter_eqId_removed k (l : list Company) :
  filter (DatabaseStorage.eqId k)
    (filter (fun r => negb (DatabaseStorage.eqId k r)) l) = [].
Proof.
  induction l as [|x l IH]; simpl; [reflexivity|].
  destruct (DatabaseStorage.eqId k x) eqn:E; simpl; [assumption|].
  now rewrite E.
Qed.

Lemma mem_delete_absent k this :
  MemStorage.getCompany k this = None ->
  MemStorage.deleteCompany k this = (false, this).
Proof.
  unfold MemStorage.getCompany, MemStorage.deleteCompany, JSMap.delete,
    JSMap.has.
  intros H. rewrite H, (remove_absent _ _ H). now destruct this.
Qed.

Lemma mem_get_after_delete k this :
  MemStorage.wf this = true ->
  MemStorage.getCompany k (snd (MemStorage.deleteCompany k this)) = None.
Proof.
  rewrite wf_unfold. intros [_ H]. simpl.
  apply get_remove_same. eapply ascending_NoDup, H.
Qed.

Lemma values_remove k (m : JSMap.t Company) c lo hi :
  ascending lo m hi = true -> JSMap.get k m = Some c ->
  JSMap.values (JSMap.remove k m)
  = filter (fun r => negb (id r =? k)) (JSMap.values m).
Proof.
  revert lo. induction m as [|[k0 d] m IH]; intros lo H Hget.
  - discriminate.
  - simpl in H. rewrite !andb_true_iff, !Z.ltb_lt, Z.eqb_eq in H.
    destruct H as [[[Hlo Hhi] Hid] Hm]. simpl in *.
    destruct (Z.eqb_spec k k0) as [->|Hne]; simpl.
    + rewrite Hid, Z.eqb_refl. simpl.
      symmetry. apply forallb_filter_id, forallb_forall.
      intros x Hx. apply negb_true_iff, Z.eqb_neq.
      pose proof (ascending_bounds _ _ _ Hm) as B.
      rewrite <- (ascending_ids _ _ _ Hm), Forall_forall in B.
      specialize (B (id x) (in_map id _ _ Hx)). lia.
    + rewrite Hid. destruct (Z.eqb_spec k0 k); [congruence|]. simpl.
      f_equal. eapply IH; eassumption.
Qed.

Lemma filter_idempotent {A : Type} (f : A -> bool) (l : list A) :
  filter f (filter f l) = filter f l.
Proof.
  induction l as [|x l IH]; simpl; [reflexivity|].
  destruct (f x) eqn:E; simpl; [now rewrite E, IH | exact IH].
Qed.

End DeleteUpdate.

(** C3, as the stores have it.  On both stores [getCompany(id)] after
    [deleteCompany(id)] answers absent.  The in-memory store answers [true]
    exactly when a record with that identifier was there, which it then
    removes, leaving the others in place, and so answers [false] to a second
    [deleteCompany(id)].  The persistent store answers [true] to every
    [deleteCompany] of an identifier its [integer] column can hold, the
    second one included, and rejects the call for any other identifier. *)
Theorem deleteCompany_removes_and_reports :
  (forall k this,
      MemStorage.wf this = true ->
      let r := MemStorage.deleteCompany k this in
      MemStorage.getCompany k (snd r) = None
      /\ match MemStorage.getCompany k this with
         | Some c =>
             fst r = true
             /\ JSMap.values (MemStorage.companiesMap (snd r))
                = filter (fun x => negb (id x =? k))
                    (JSMap.values (MemStorage.companiesMap this))
         | None => r = (false, this)
         end
      /\ fst (MemStorage.deleteCompany k (snd r)) = false)
  /\ (forall (k : Z) db,
        Db.int4 k = true ->
        exists db',
          DatabaseStorage.deleteCompany k db = Some (true, db')
          /\ DatabaseStorage.getCompany k db' = Some None
          /\ DatabaseStorage.deleteCompany k db' = Some (true, db'))
  /\ (forall (k : Z) db,
        Db.int4 k = false ->
        DatabaseStorage.deleteCompany k db = None
        /\ DatabaseStorage.getCompany k db = None).
Proof.
  split; [|split].
  - intros k this Hwf r. subst r.
    pose proof (mem_get_after_delete k this Hwf) as Hgone.
    split; [exact Hgone|]. split.
    + destruct (MemStorage.getCompany k this) as [c|] eqn:Hget.
      * split.
        -- unfold MemStorage.deleteCompany, JSMap.delete, JSMap.has. simpl.
           unfold MemStorage.getCompany in Hget. now rewrite Hget.
        -- apply wf_unfold in Hwf. destruct Hwf as [_ Hasc]. simpl.
           eapply values_remove; eassumption.
      * now apply mem_delete_absent.
    + now rewrite (mem_delete_absent _ _ Hgone).
  - intros k db Hk. exists (Db.deleteWhere (DatabaseStorage.eqId k) db).
    unfold DatabaseStorage.deleteCompany, DatabaseStorage.getCompany.
    rewrite Hk. split; [reflexivity|]. split.
    + unfold Db.selectWhere, Db.deleteWhere. cbn [Db.rows].
      now rewrite filter_eqId_removed.
    + unfold Db.deleteWhere. cbn [Db.rows Db.nextId].
      now rewrite filter_idempotent.
  - intros k db Hk.
    unfold DatabaseStorage.deleteCompany, DatabaseStorage.getCompany.
    now rewrite Hk.
Qed.

(** Deleting the sample 2 from a new in-memory store, twice. *)
Lemma deleteCompany_removes_and_reports_witness :
  MemStorage.getCompany 2
    (snd (MemStorage.deleteCompany 2 MemStorage.constructor)) = None
  /\ fst (MemStorage.deleteCompany 2
            (snd (MemStorage.deleteCompany 2 MemStorage.constructor)))
     = false
  /\ DatabaseStorage.deleteCompany 2147483648 Db.empty = None.
Proof.
  pose proof (proj1 deleteCompany_removes_and_reports 2
                MemStorage.constructor eq_refl) as H.
  pose proof (proj2 (proj2 deleteCompany_removes_and_reports) 2147483648
                Db.empty eq_refl) as H'.
  simpl in H. tauto.
Defined.

(** C3 as stated fails on the persistent store: after the row 1 was
    deleted, a second [deleteCompany(1)] removes nothing and answers
    [true]. *)
Lemma deleteCompany_db_second_answers_true :
  exists db1,
    DatabaseStorage.deleteCompany 1
      (snd (DatabaseStorage.createManyCompanies
              MemStorage.sampleCompanies Db.empty))
    = Some (true, db1)
    /\ DatabaseStorage.getCompany 1 db1 = Some None
    /\ DatabaseStorage.deleteCompany 1 db1 = Some (true, db1).
Proof.
  eexists. split; [reflexivity|]. split; reflexivity.
Qed.

(** C4.  [updateCompany(id, partialData)] on a record that exists returns
    and stores, under the same identifier and at the same place, a record
    whose every field is the supplied value where one is supplied and the
    old value where none is; the other records and the counter are as
    before.  On an identifier that no record has it returns absent and
    leaves the store as it was. *)
Theorem updateCompany_changes_supplied_fields_only :
  forall k p this,
    let r := MemStorage.updateCompany k p this in
    match MemStorage.getCompany k this with
    | Some old =>
        exists new,
          fst r = Some new
          /\ MemStorage.getCompany k (snd r) = Some new
          /\ id new = id old
          /\ (forall f,
                fieldOf f new
                = match supplied f p with
                  | Some v => v
                  | None => fieldOf f old
                  end)
          /\ (forall k',
                k' <> k ->
                MemStorage.getCompany k' (snd r)
                = MemStorage.getCompany k' this)
          /\ JSMap.keys (MemStorage.companiesMap (snd r))
             = JSMap.keys (MemStorage.companiesMap this)
          /\ MemStorage.currentCompanyId (snd r)
             = MemStorage.currentCompanyId this
    | None => r = (None, this)
    end.
Proof.
  intros k p this r. subst r.
  unfold MemStorage.updateCompany, MemStorage.getCompany.
  destruct (JSMap.get k (MemStorage.companiesMap this)) as [old|] eqn:Hget;
    [|reflexivity].
  exists (merge old p). simpl.
  repeat split.
  - apply get_set_same.
  - intros f. destruct p; destruct f; simpl;
      match goal with |- context [spread _ ?o] => destruct o end;
      reflexivity.
  - intros k' Hne. now apply get_set_other.
  - unfold JSMap.set, JSMap.has. rewrite Hget. apply keys_replace.
Qed.

(** Setting the status of the sample 2 of a new store to "Active". *)
Lemma updateCompany_changes_supplied_fields_only_witness :
  let p := Partial.mk None None None None None None None None
             (Some "Active"%string) None in
  exists new,
    MemStorage.getCompany 2
      (snd (MemStorage.updateCompany 2 p MemStorage.constructor))
    = Some new
    /\ id new = 2
    /\ fieldOf Status new = VString "Active"
    /\ fieldOf Name new = VString "TechCorp"
    /\ MemStorage.getCompany 3
         (snd (MemStorage.updateCompany 2 p MemStorage.constructor))
       = MemStorage.getCompany 3 MemStorage.constructor.
Proof.
  intros p.
  pose proof (updateCompany_changes_supplied_fields_only 2 p
                MemStorage.constructor) as H.
  destruct (MemStorage.getCompany 2 MemStorage.constructor) as [old|] eqn:E;
    [|discriminate E].
  injection E as <-.
  destruct H as (new & _ & Hget & Hid & Hf & Hothers & _).
  exists new. split; [exact Hget|]. split; [exact Hid|].
  split; [exact (Hf Status)|]. split; [exact (Hf Name)|].
  apply Hothers. lia.
Defined.

(** ** Pagination of the in-memory store *)

Section Pagination.
Import MemStorage.

Lemma getCompanies_window page pageSize this :
  1 <= page -> 0 <= pageSize ->
  companies (getCompanies page pageSize this)
  = window ((page - 1) * pageSize) pageSize (records this).
Proof.
  intros Hp Hn. unfold getCompanies. simpl.
  apply slice_window; nia.
Qed.


End Pagination.






(** ** Bulk insert *)

Section BulkInsert.

(** Identifiers [from], [from + 1], ... for [n] records. *)
Lemma consecutive_cons (from : Z) (n : nat) :
  map (fun i => from + Z.of_nat i) (seq 0 (S n))
  = from :: map (fun i => from + 1 + Z.of_nat i) (seq 0 n).
Proof.
  simpl. f_equal; [lia|].
  rewrite <- seq_shift, map_map. apply map_ext. intros i. lia.
Qed.

Import MemStorage.

Lemma createManyLoop_cons c l count this :
  createManyLoop (c :: l) count this
  = createManyLoop l (count + 1) (snd (createCompany c this)).
Proof. reflexivity. Qed.

Lemma createdInLoop_cons c l this :
  createdInLoop (c :: l) this
  = fst (createCompany c this)
      :: createdInLoop l (snd (createCompany c this)).
Proof. reflexivity. Qed.

Lemma createManyLoop_fold l : forall count this,
  createManyLoop l count this
  = (count + Z.of_nat (length l),
     fold_left (fun st c => snd (createCompany c st)) l this).
Proof.
  induction l as [|c l IH]; intros count this.
  - simpl. f_equal. lia.
  - rewrite createManyLoop_cons, IH. cbn [fold_left length].
    f_equal. lia.
Qed.

Lemma records_createCompany c this :
  wf this = true ->
  records (snd (createCompany c this))
  = records this ++ [fst (createCompany c this)].
Proof.
  rewrite wf_unfold. intros [_ H]. unfold records. simpl.
  unfold JSMap.set, JSMap.has.
  rewrite (ascending_get_beyond _ _ _ _ H) by lia.
  unfold JSMap.values. now rewrite map_app.
Qed.

Lemma records_createManyLoop l : forall count this,
  wf this = true ->
  records (snd (createManyLoop l count this))
  = records this ++ createdInLoop l this.
Proof.
  induction l as [|c l IH]; intros count this H.
  - simpl. now rewrite app_nil_r.
  - rewrite createManyLoop_cons, createdInLoop_cons.
    rewrite IH by exact (wf_createCompany c this H).
    rewrite (records_createCompany c this H).
    now rewrite <- app_assoc.
Qed.

Lemma createdInLoop_data l : forall this,
  map data (createdInLoop l this) = l.
Proof.
  induction l as [|c l IH]; intros this; [reflexivity|].
  rewrite createdInLoop_cons. cbn [map]. now rewrite IH.
Qed.

Lemma createdInLoop_consecutive l : forall this,
  map id (createdInLoop l this)
  = map (fun i => currentCompanyId this + Z.of_nat i) (seq 0 (length l)).
Proof.
  induction l as [|c l IH]; intros this; [reflexivity|].
  rewrite createdInLoop_cons. cbn [length].
  rewrite consecutive_cons. cbn [map]. f_equal. apply IH.
Qed.

Import Db.

Lemma insertRows_fold l : forall db,
  accepts l db = true ->
  snd (insertRows l db)
  = fold_left (fun d c => snd (DatabaseStorage.createCompany c d)) l db.
Proof.
  induction l as [|c l IH]; intros db H; [reflexivity|].
  apply accepts_cons in H. destruct H as [H1 H2].
  rewrite insertRows_cons. cbn [snd fold_left].
  rewrite (createCompany_accepted _ _ H1). cbn [snd].
  now apply IH.
Qed.

Lemma insertRows_consecutive l : forall db,
  map id (fst (insertRows l db))
  = map (fun i => nextId db + Z.of_nat i) (seq 0 (length l)).
Proof.
  induction l as [|c l IH]; intros db; [reflexivity|].
  rewrite insertRows_cons. cbn [length].
  rewrite consecutive_cons. cbn [fst map]. f_equal. apply (IH (mk _ _)).
Qed.

End BulkInsert.

(** C8, as the stores have it.  [createManyCompanies(list)] of the
    in-memory store leaves the store that [createCompany] on each element
    in input order leaves, and returns the length of the list.  So does
    the persistent store when the engine takes the insert; the records
    added come after the ones already there, carry the submitted data in
    input order and take consecutive identifiers from the next free one,
    so the count returned is the number of records inserted.  When one
    row does not fit the table, the persistent store rejects the whole
    list and stores none of it. *)
Theorem createManyCompanies_as_createCompany_each :
  (forall l this,
      MemStorage.createManyCompanies l this
      = (Z.of_nat (length l),
         fold_left (fun st c => snd (MemStorage.createCompany c st)) l this))
  /\ (forall l db,
        accepts l db = true ->
        DatabaseStorage.createManyCompanies l db
        = (Some (Z.of_nat (length l)),
           fold_left (fun d c => snd (DatabaseStorage.createCompany c d))
             l db))
  /\ (forall l this,
        MemStorage.wf this = true ->
        exists added,
          records (snd (MemStorage.createManyCompanies l this))
          = records this ++ added
          /\ map data added = l
          /\ map id added
             = map (fun i => MemStorage.currentCompanyId this + Z.of_nat i)
                 (seq 0 (length l)))
  /\ (forall l db,
        accepts l db = true ->
        exists added,
          Db.rows (snd (DatabaseStorage.createManyCompanies l db))
          = Db.rows db ++ added
          /\ map data added = l
          /\ map id added
             = map (fun i => Db.nextId db + Z.of_nat i) (seq 0 (length l)))
  /\ (forall l db,
        forallb Db.storable l = false ->
        DatabaseStorage.createManyCompanies l db = (None, db)).
Proof.
  split; [|split; [|split; [|split]]].
  - intros l this. unfold MemStorage.createManyCompanies.
    now rewrite createManyLoop_fold.
  - intros l db H. rewrite <- (insertRows_fold _ _ H).
    now apply createMany_accepted.
  - intros l this Hwf. exists (MemStorage.createdInLoop l this).
    split; [|split].
    + now apply records_createManyLoop.
    + apply createdInLoop_data.
    + apply createdInLoop_consecutive.
  - intros l db H. exists (fst (Db.insertRows l db)).
    rewrite (createMany_accepted _ _ H). cbn [snd]. split; [|split].
    + apply insertRows_rows.
    + apply insertRows_data.
    + apply insertRows_consecutive.
  - intros l db H. unfold DatabaseStorage.createManyCompanies.
    destruct l as [|c l]; [discriminate|].
    now rewrite (insertReturning_unstorable _ _ H).
Qed.

(** The three samples inserted once more into a new in-memory store, and
    into the table that holds them. *)
Lemma createManyCompanies_as_createCompany_each_witness :
  (exists added,
      records
        (snd (MemStorage.createManyCompanies MemStorage.sampleCompanies
                MemStorage.constructor))
      = records MemStorage.constructor ++ added
      /\ map data added = MemStorage.sampleCompanies
      /\ map id added = [4; 5; 6])
  /\ fst (DatabaseStorage.createManyCompanies MemStorage.sampleCompanies
            (snd (DatabaseStorage.createManyCompanies
                    MemStorage.sampleCompanies Db.empty)))
     = Some 3.
Proof.
  split.
  - apply (proj1 (proj2 (proj2 createManyCompanies_as_createCompany_each))
             MemStorage.sampleCompanies MemStorage.constructor).
    reflexivity.
  - rewrite (proj1 (proj2 createManyCompanies_as_createCompany_each)
               MemStorage.sampleCompanies
               (snd (DatabaseStorage.createManyCompanies
                       MemStorage.sampleCompanies Db.empty)) eq_refl).
    reflexivity.
Defined.

(** C8 as stated fails on the persistent store: of a list whose second
    record has 2147483648 employees the batch stores nothing, while
    [createCompany] on each element stores the first. *)
Lemma createManyCompanies_db_rejects_whole_list :
  DatabaseStorage.createManyCompanies
    [ mkInsertCompany "A" "B" "c@d.com" "N/A" "Other" "Unknown" 0 "Unknown"
        "New" "2024-01-31";
      mkInsertCompany "E" "F" "g@h.com" "N/A" "Other" "Unknown" 2147483648
        "Unknown" "New" "2024-01-31" ] Db.empty
  = (None, Db.empty)
  /\ Db.rows
       (fold_left (fun d c => snd (DatabaseStorage.createCompany c d))
          [ mkInsertCompany "A" "B" "c@d.com" "N/A" "Other" "Unknown" 0
              "Unknown" "New" "2024-01-31";
            mkInsertCompany "E" "F" "g@h.com" "N/A" "Other" "Unknown"
              2147483648 "Unknown" "New" "2024-01-31" ] Db.empty)
     = [ mkCompany 1
           (mkInsertCompany "A" "B" "c@d.com" "N/A" "Other" "Unknown" 0
              "Unknown" "New" "2024-01-31") ].
Proof. split; reflexivity. Qed.

(** ** Substring search *)

Section Search.
Open Scope string_scope.

Lemma startsWith_spec s p :
  JS.startsWith s p = true <-> exists t, s = p ++ t.
Proof.
  revert s. induction p as [|a p IH]; intros s.
  - destruct s; simpl; split; eauto.
  - destruct s as [|b s]; simpl.
    + split; [discriminate | intros [t E]; discriminate].
    + rewrite andb_true_iff, Ascii.eqb_eq, IH. split.
      * intros [-> [t ->]]. now exists t.
      * intros [t E]. injection E as -> ->. eauto.
Qed.

Lemma includes_unfold s sub :
  JS.includes s sub
  = if JS.startsWith s sub then true
    else match s with
         | EmptyString => false
         | String _ t => JS.includes t sub
         end.
Proof. destruct s; reflexivity. Qed.

Lemma includes_spec s sub :
  JS.includes s sub = true <-> exists a b, s = a ++ sub ++ b.
Proof.
  induction s as [|c s IH]; rewrite includes_unfold;
    destruct (JS.startsWith _ sub) eqn:E.
  - apply startsWith_spec in E. destruct E as [t E].
    split; [intros _; now exists EmptyString, t | reflexivity].
  - split; [discriminate|]. intros (a & b & H).
    destruct a; [|discriminate]. simpl in H.
    assert (JS.startsWith EmptyString sub = true) as E'
        by (apply startsWith_spec; eauto).
    congruence.
  - apply startsWith_spec in E. destruct E as [t E].
    split; [intros _; now exists EmptyString, t | reflexivity].
  - rewrite IH. split.
    + intros (a & b & ->). now exists (String c a), b.
    + intros (a & b & H). destruct a as [|c' a].
      * simpl in H.
        assert (JS.startsWith (String c s) sub = true) as E'
            by (apply startsWith_spec; eauto).
        congruence.
      * injection H as -> ->. eauto.
Qed.

Lemma toLowerCase_app a b :
  JS.toLowerCase (a ++ b) = JS.toLowerCase a ++ JS.toLowerCase b.
Proof.
  induction a as [|c a IH]; simpl; [reflexivity | now rewrite IH].
Qed.

Lemma toLowerCase_split a : forall s b,
  JS.toLowerCase s = a ++ b ->
  exists sa sb,
    s = sa ++ sb /\ JS.toLowerCase sa = a /\ JS.toLowerCase sb = b.
Proof.
  induction a as [|c a IH]; intros s b H.
  - now exists EmptyString, s.
  - destruct s as [|d s]; [discriminate|].
    simpl in H. injection H as Hc Hs.
    destruct (IH s b Hs) as (sa & sb & -> & Ha & Hb).
    exists (String d sa), sb. simpl. now rewrite Hc, Ha.
Qed.

(** [toLowerCase] on both sides and [includes] decide the contract's
    search predicate. *)
Lemma includes_lower_spec query text :
  JS.includes (JS.toLowerCase text) (JS.toLowerCase query) = true
  <-> ciSubstring query text.
Proof.
  rewrite includes_spec. unfold ciSubstring. split.
  - intros (a & b & H).
    apply toLowerCase_split in H. destruct H as (sa & rest & -> & _ & H).
    apply toLowerCase_split in H. destruct H as (sm & sb & -> & Hm & _).
    now exists sa, sm, sb.
  - intros (before & middle & after & -> & H).
    exists (JS.toLowerCase before), (JS.toLowerCase after).
    now rewrite !toLowerCase_app, H.
Qed.

Lemma matchesQuery_spec query c :
  matchesQuery (JS.toLowerCase query) c = true <-> matchesContract query c.
Proof.
  unfold matchesQuery, matchesContract.
  rewrite !orb_true_iff, !includes_lower_spec. tauto.
Qed.

Lemma includes_empty s : JS.includes s EmptyString = true.
Proof. destruct s; reflexivity. Qed.

Lemma matchesQuery_empty c : matchesQuery EmptyString c = true.
Proof. unfold matchesQuery. now rewrite includes_empty. Qed.

Lemma filter_all {A : Type} (f : A -> bool) (l : list A) :
  (forall x, f x = true) -> filter f l = l.
Proof.
  intros H. induction l as [|x l IH]; simpl; [reflexivity|].
  now rewrite H, IH.
Qed.

(** What [MemStorage.searchCompanies] answers: the records that match the
    contract's predicate, in the order of the store, cut by the same
    [slice] as in [getCompanies], with their number as [total]. *)
Lemma mem_searchCompanies_spec query page pageSize this :
  exists matching,
    (forall c, In c matching <->
               In c (records this) /\ matchesContract query c)
    /\ companies (MemStorage.searchCompanies query page pageSize this)
       = JS.slice matching ((page - 1) * pageSize)
           ((page - 1) * pageSize + pageSize)
    /\ total (MemStorage.searchCompanies query page pageSize this)
       = Z.of_nat (length matching)
    /\ (ascendingIds (records this) -> ascendingIds matching).
Proof.
  exists (filter (matchesQuery (JS.toLowerCase query)) (records this)).
  split; [|split; [|split]]; try reflexivity.
  - intros c. now rewrite filter_In, matchesQuery_spec.
  - apply sorted_ids_filter.
Qed.

End Search.

(** C10.  With the empty string as query every record matches, and
    [searchCompanies] answers what [getCompanies] answers for the same page
    and page size. *)
Theorem searchCompanies_empty_query_is_getCompanies :
  forall page pageSize this,
    MemStorage.searchCompanies EmptyString page pageSize this
    = MemStorage.getCompanies page pageSize this
    /\ total (MemStorage.searchCompanies EmptyString page pageSize this)
       = Z.of_nat (length (records this)).
Proof.
  intros page pageSize this.
  unfold MemStorage.searchCompanies, MemStorage.getCompanies.
  cbn [JS.toLowerCase].
  rewrite (filter_all _ _ matchesQuery_empty). split; reflexivity.
Qed.

(** C5 at a query that holds a pattern character.  No field of the three
    sample records contains an underscore, and the in-memory store answers
    the query ["_"] with no record; the persistent store hands the query to
    [ILIKE] between two [%], where the underscore stands for any character,
    and answers with all three records. *)
Theorem searchCompanies_db_underscore_matches_all :
  let db := snd (DatabaseStorage.createManyCompanies
                   MemStorage.sampleCompanies Db.empty) in
  (forall c, In c (Db.rows db) -> ~ matchesContract "_" c)
  /\ MemStorage.searchCompanies "_" 1 10 MemStorage.constructor
     = mkPage [] 0
  /\ option_map (fun r => (map id (companies r), total r))
       (DatabaseStorage.searchCompanies "_" 1 10 db)
     = Some ([3; 2; 1], 3).
Proof.
  split; [|split; reflexivity].
  intros c Hin Hm. apply (matchesQuery_spec "_" c) in Hm.
  simpl in Hin.
  repeat (destruct Hin as [<- | Hin]; [discriminate Hm|]).
  contradiction.
Qed.

(** ** The import adapter *)

Section ImportAdapter.
Import ImportExcel.

Lemma truthy_spec s : JS.truthy s = true <-> s <> EmptyString.
Proof. destruct s; simpl; split; congruence. Qed.

Lemma present_spec v : present v = true <-> nonEmpty v.
Proof.
  unfold present, nonEmpty. destruct v as [s|].
  - rewrite truthy_spec. split.
    + intros H. now exists s.
    + intros (s' & [= <-] & H). exact H.
  - split; [discriminate | intros (s' & H & _); discriminate].
Qed.



(** [validate] accepts exactly on the three required values. *)
Lemma validate_accepts today p :
  (exists c, validate today p = Some c)
  <-> nonEmpty (Partial.name p) /\ nonEmpty (Partial.contact p)
      /\ nonEmpty (Partial.email p).
Proof.
  rewrite <- !present_spec. unfold validate, present.
  destruct (Partial.name p) as [nm|], (Partial.contact p) as [ct|],
    (Partial.email p) as [em|];
    try (split; [intros [c H]; discriminate | intuition discriminate]).
  destruct (JS.truthy nm), (JS.truthy ct), (JS.truthy em); simpl;
    try (split; [intros [c H]; discriminate | intuition discriminate]).
  split; [tauto | eauto].
Qed.














End ImportAdapter.




(** ** Reachable states and worked examples of the contract *)

Section Examples.
Open Scope string_scope.

(** Every state a store reaches from its constructor satisfies the
    representation invariant. *)
Lemma wf_history cs :
  MemStorage.wf (snd (MemStorage.run cs MemStorage.constructor)) = true.
Proof. apply wf_run, wf_constructor. Qed.

Lemma wf_history_db cs :
  DatabaseStorage.wf (snd (DatabaseStorage.run cs Db.empty)) = true.
Proof. now apply wf_run_db. Qed.

(** Searching "acme" in a new in-memory store finds "Acme Inc." alone. *)
Example search_acme :
  map (fun c : Company => name c)
    (companies (MemStorage.searchCompanies "acme" 1 10 MemStorage.constructor))
  = ["Acme Inc."]
  /\ total (MemStorage.searchCompanies "acme" 1 10 MemStorage.constructor)
     = 1.
Proof. split; reflexivity. Qed.

(** Two rows, the second without a name: one record is submitted, its
    optional fields at their defaults. *)
Example import_two_rows :
  ImportExcel.processExcelFile "2024-01-31" ["name"; "contact"; "email"]
    [ [ImportExcel.CString "A"; ImportExcel.CString "B";
       ImportExcel.CString "c@d.com"];
      [ImportExcel.CString EmptyString; ImportExcel.CString "X";
       ImportExcel.CString "y@z.com"] ]
  = ImportExcel.Submitted
      [ mkInsertCompany "A" "B" "c@d.com" "N/A" "Other" "Unknown" 0
          "Unknown" "New" "2024-01-31" ].
Proof. reflexivity. Qed.

(** Aliased headers, a numeric cell and a count given as text. *)
Example import_aliases :
  ImportExcel.processExcelFile "2024-01-31"
    ["Company Name"; "Contact Person"; "Email"; "Employee Count";
     "Last Contacted"]
    [ [ImportExcel.CNumber 42; ImportExcel.CString "B";
       ImportExcel.CString "c@d.com"; ImportExcel.CString " 12 people";
       ImportExcel.CString "2023-12-01"] ]
  = ImportExcel.Submitted
      [ mkInsertCompany "42" "B" "c@d.com" "N/A" "Other" "Unknown" 12
          "Unknown" "New" "2023-12-01" ].
Proof. reflexivity. Qed.

(** [ILIKE] on a few patterns. *)
Example ilike_patterns :
  Db.ilike "%ACME%" "Acme Inc." = true
  /\ Db.ilike "%_%" "TechCorp" = true
  /\ Db.ilike "%\_%" "TechCorp" = false
  /\ Db.ilike "%corp" "TechCorp" = true
  /\ Db.ilike "tech" "TechCorp" = false.
Proof. repeat split; reflexivity. Qed.

End Examples.


(** ** The browser-side store *)

Section MockStore.
Import MockData.

Lemma maxFrom_bounds l : forall x,
  x <= maxFrom x l /\ Forall (fun y => y <= maxFrom x l) l.
Proof.
  induction l as [|y l IH]; intros x; simpl.
  - split; [lia | constructor].
  - destruct (IH (Z.max x y)) as [H1 H2]. split; [lia|].
    constructor; [lia | assumption].
Qed.

Lemma maxFrom_app l : forall x y,
  maxFrom x (l ++ [y]) = Z.max (maxFrom x l) y.
Proof.
  induction l as [|z l IH]; intros x y; simpl; [reflexivity | apply IH].
Qed.

Lemma nextId_above companies :
  Forall (fun c => id c < nextId companies) companies.
Proof.
  unfold nextId. destruct companies as [|c l]; [constructor|].
  cbn [map]. destruct (maxFrom_bounds (map id l) (id c)) as [H1 H2].
  constructor; [lia|]. rewrite Forall_map in H2.
  eapply Forall_impl; [|exact H2]. simpl. intros; lia.
Qed.

Lemma nextId_snoc companies c :
  id c = nextId companies -> nextId (companies ++ [c]) = id c + 1.
Proof.
  intros Hc. pose proof (nextId_above companies) as Hall.
  unfold nextId in *. destruct companies as [|d l]; [reflexivity|].
  cbn [map app] in *. rewrite map_app. cbn [map].
  rewrite maxFrom_app. lia.
Qed.

Lemma find_id_below k (l : list Company) :
  Forall (fun c => id c < k) l -> find (fun c => id c =? k) l = None.
Proof.
  induction 1 as [|x l Hx Hl IH]; simpl; [reflexivity|].
  destruct (Z.eqb_spec (id x) k); [lia | assumption].
Qed.


Lemma filter_out_last k (l : list Company) c :
  Forall (fun x => id x < k) l -> id c = k ->
  filter (fun x => negb (id x =? k)) (l ++ [c]) = l.
Proof.
  intros Hl Hc. rewrite filter_app. simpl. rewrite Hc, Z.eqb_refl. simpl.
  rewrite app_nil_r. apply forallb_filter_id, forallb_forall.
  rewrite Forall_forall in Hl. intros x Hx.
  apply negb_true_iff, Z.eqb_neq. specialize (Hl x Hx). lia.
Qed.

(** Every call reads the records through [loadCompanies]. *)
Lemma loadCompanies_current st :
  fst (fst (loadCompanies st)) = current st
  /\ current (snd (loadCompanies st)) = current st
  /\ stored (snd (loadCompanies st)) = Some (current st).
Proof.
  unfold loadCompanies, current. destruct (stored st) eqn:E; simpl.
  - now rewrite E.
  - auto.
Qed.

Ltac load st :=
  let l := fresh "l" in
  let a := fresh "aliased" in
  let st1 := fresh "st1" in
  let H1 := fresh "Hl" in
  let H2 := fresh "Hcur" in
  let H3 := fresh "Hst" in
  destruct (loadCompanies_current st) as (H1 & H2 & H3);
  destruct (loadCompanies st) as [[l a] st1]; simpl in H1, H2, H3;
  subst l.

Lemma current_createCompany c st :
  current (snd (createCompany c st))
  = current st ++ [mkCompany (nextId (current st)) c]
  /\ fst (createCompany c st) = mkCompany (nextId (current st)) c.
Proof. unfold createCompany. load st. split; reflexivity. Qed.

Lemma current_deleteCompany k st :
  current (snd (deleteCompany k st))
  = filter (fun x => negb (id x =? k)) (current st).
Proof.
  unfold deleteCompany. load st.
  destruct (Nat.eqb_spec
              (length (filter (fun x => negb (id x =? k)) (current st)))
              (length (current st))) as [E | E]; simpl; [|reflexivity].
  rewrite Hcur. symmetry. apply forallb_filter_id.
  clear -E. induction (current st) as [|x l IH]; [reflexivity|].
  simpl in *. destruct (negb (id x =? k)); simpl in *.
  - apply IH. lia.
  - pose proof (filter_length_le (fun x => negb (id x =? k)) l). lia.
Qed.

Lemma fst_getCompany k st :
  fst (getCompany k st) = find (fun x => id x =? k) (current st).
Proof. unfold getCompany. load st. reflexivity. Qed.


(** X2.  The browser-side store assigns an identifier again once the
    record that held it, the newest one, was deleted: create, delete that
    record, create gives the same identifier twice. *)
Theorem mock_identifier_reused_after_delete :
  forall c d st,
    let r := fst (createCompany c st) in
    let st1 := snd (createCompany c st) in
    let st2 := snd (deleteCompany (id r) st1) in
    fst (deleteCompany (id r) st1) = true
    /\ current st2 = current st
    /\ id (fst (createCompany d st2)) = id r.
Proof.
  intros c d st r st1 st2. subst r st1 st2.
  destruct (current_createCompany c st) as [Hcur Hr].
  assert (current (snd (deleteCompany (id (fst (createCompany c st)))
                          (snd (createCompany c st)))) = current st) as Hdel.
  { rewrite current_deleteCompany, Hcur, Hr. cbn [id].
    apply filter_out_last; [apply nextId_above | reflexivity]. }
  split; [|split].
  - unfold deleteCompany.
    destruct (loadCompanies_current (snd (createCompany c st)))
      as (Hl & _ & _).
    destruct (loadCompanies (snd (createCompany c st))) as [[l a] st1].
    simpl in Hl. subst l. rewrite Hcur, Hr. cbn [id].
    rewrite filter_out_last by (try apply nextId_above; reflexivity).
    rewrite length_app. simpl.
    destruct (Nat.eqb_spec (length (current st)) (length (current st) + 1));
      [lia | reflexivity].
  - exact Hdel.
  - destruct (current_createCompany d
                (snd (deleteCompany (id (fst (createCompany c st)))
                        (snd (createCompany c st))))) as [_ Hr2].
    rewrite Hr2, Hdel, Hr. reflexivity.
Qed.

(** X3.  [deleteCompany] of the browser-side store answers [true] exactly
    when a record with the identifier is present; afterwards no record has
    the identifier, and a lookup of any other identifier answers as
    before. *)
Theorem mock_deleteCompany_removes_and_reports :
  forall k st,
    let st' := snd (deleteCompany k st) in
    (fst (deleteCompany k st) = true <-> fst (getCompany k st) <> None)
    /\ fst (getCompany k st') = None
    /\ (forall k', k' <> k ->
          fst (getCompany k' st') = fst (getCompany k' st)).
Proof.
  intros k st st'. subst st'.
  rewrite !fst_getCompany. split; [|split].
  - unfold deleteCompany. load st.
    set (f := fun x : Company => negb (id x =? k)).
    assert (length (filter f (current st)) = length (current st)
            <-> find (fun x => id x =? k) (current st) = None) as Hiff.
    { subst f. clear. induction (current st) as [|x l IH]; simpl; [tauto|].
      destruct (id x =? k); simpl.
      - pose proof (filter_length_le (fun x => negb (id x =? k)) l).
        split; [lia | discriminate].
      - rewrite <- IH. split; lia. }
    destruct (Nat.eqb_spec (length (filter f (current st)))
                (length (current st))) as [E | E]; simpl.
    + apply Hiff in E. rewrite E. split; [discriminate | congruence].
    + split; [|reflexivity]. intros _ Hnone. apply E, Hiff, Hnone.
  - rewrite current_deleteCompany.
    induction (current st) as [|x l IH]; simpl; [reflexivity|].
    destruct (id x =? k) eqn:E; simpl; [assumption|]. now rewrite E.
  - intros k' Hne. rewrite !fst_getCompany, current_deleteCompany.
    induction (current st) as [|x l IH]; simpl; [reflexivity|].
    destruct (Z.eqb_spec (id x) k) as [Hx | Hx]; simpl.
    + destruct (Z.eqb_spec (id x) k'); [lia | assumption].
    + now rewrite IH.
Qed.

Lemma current_reads st :
  (forall page pageSize,
      current (snd (getCompanies page pageSize st)) = current st)
  /\ (forall k, current (snd (getCompany k st)) = current st)
  /\ (forall q page pageSize,
        current (snd (searchCompanies q page pageSize st)) = current st).
Proof.
  unfold getCompanies, getCompany, searchCompanies. load st.
  repeat split; intros; simpl; assumption.
Qed.

Lemma number_cons lastId c l :
  number lastId (c :: l)
  = mkCompany (lastId + 1) c :: number (lastId + 1) l.
Proof. reflexivity. Qed.

Lemma current_importCompanies l st :
  current (snd (importCompanies l st))
  = current st ++ number (nextId (current st) - 1) l
  /\ fst (importCompanies l st) = Z.of_nat (length l).
Proof.
  unfold importCompanies. load st. simpl. split.
  - unfold saveCompanies, current at 1. cbn [stored].
    f_equal. f_equal. unfold nextId.
    destruct (map id (current st)); lia.
  - f_equal. generalize (match map id (current st) with
                         | [] => 0
                         | x :: r => maxFrom x r
                         end).
    induction l as [|c l IH]; intros z; simpl; [reflexivity|].
    now rewrite IH.
Qed.

Lemma current_fold_create l : forall st,
  current (fold_left (fun s c => snd (createCompany c s)) l st)
  = current st ++ number (nextId (current st) - 1) l.
Proof.
  induction l as [|c l IH]; intros st; simpl.
  - now rewrite app_nil_r.
  - rewrite IH. destruct (current_createCompany c st) as [Hcur _].
    rewrite Hcur, nextId_snoc by reflexivity. cbn [id].
    rewrite <- app_assoc. cbn [app].
    replace (nextId (current st) - 1 + 1) with (nextId (current st)) by lia.
    replace (nextId (current st) + 1 - 1) with (nextId (current st)) by lia.
    reflexivity.
Qed.

Lemma stored_after_step c st : stored (step c st) = Some (current (step c st)).
Proof.
  assert (forall s, stored s <> None -> stored s = Some (current s)) as H.
  { intros s Hs. unfold current. destruct (stored s); congruence. }
  apply H.
  destruct c; simpl;
    unfold getCompanies, getCompany, createCompany, updateCompany,
      deleteCompany, searchCompanies, importCompanies;
    load st; try (simpl; congruence).
  - destruct (findIndex id0 (current st)) as [i|]; [|simpl; congruence].
    destruct (nth_error (current st) i); simpl; congruence.
  - destruct (_ =? _)%nat; simpl; congruence.
Qed.

Lemma seed_kept c st :
  stored st <> None -> initialCompanies (step c st) = initialCompanies st.
Proof.
  intros Hs.
  destruct c; simpl;
    unfold getCompanies, getCompany, createCompany, updateCompany,
      deleteCompany, searchCompanies, importCompanies, loadCompanies;
    destruct (stored st) as [l|]; try congruence; try reflexivity.
  - destruct (findIndex id0 l) as [i|]; [|reflexivity].
    destruct (nth_error l i); reflexivity.
  - destruct (_ =? _)%nat; reflexivity.
Qed.




(** X5.  While the storage key is not set, [createCompany] writes the new
    record into the module's array [initialCompanies] as well.  Every call
    leaves the key set, and once it is set no call changes
    [initialCompanies]. *)
Theorem mock_seed_written_only_before_key_is_set :
  (forall c st,
      stored st = None ->
      initialCompanies (snd (createCompany c st))
      = initialCompanies st ++ [fst (createCompany c st)])
  /\ (forall c st, stored (step c st) <> None)
  /\ (forall c st,
        stored st <> None ->
        initialCompanies (step c st) = initialCompanies st).
Proof.
  split; [|split].
  - intros c st Hs. unfold createCompany, loadCompanies. now rewrite Hs.
  - intros c st. rewrite stored_after_step. discriminate.
  - apply seed_kept.
Qed.

(** In a browser that never ran the module, the first record created
    makes the seed four records long. *)
Lemma mock_seed_written_only_before_key_is_set_witness :
  let c := mkInsertCompany "A" "B" "c@d.com" "N/A" "Other" "Unknown" 0
             "Unknown" "New" "2024-01-31" in
  length (initialCompanies (snd (createCompany c fresh))) = 4%nat.
Proof.
  intros c.
  rewrite (proj1 mock_seed_written_only_before_key_is_set c fresh eq_refl).
  reflexivity.
Defined.

Lemma ids_setAt i v c (l : list Company) :
  nth_error l i = Some c -> id v = id c -> map id (setAt i v l) = map id l.
Proof.
  revert i. induction l as [|x l IH]; intros [|i] H Hid; simpl in *;
    try discriminate.
  - injection H as ->. now rewrite Hid.
  - f_equal. now apply IH.
Qed.

Lemma findIndex_spec k (l : list Company) :
  match findIndex k l with
  | Some i =>
      exists c, nth_error l i = Some c /\ id c = k
                /\ find (fun x => id x =? k) l = Some c
                /\ (forall v, id v = k ->
                      find (fun x => id x =? k) (setAt i v l) = Some v)
                /\ (forall v k', k' <> k -> id v = k ->
                      find (fun x => id x =? k') (setAt i v l)
                      = find (fun x => id x =? k') l)
  | None => find (fun x => id x =? k) l = None
  end.
Proof.
  induction l as [|x l IH]; simpl; [reflexivity|].
  destruct (Z.eqb_spec (id x) k) as [Hx | Hx].
  - exists x. simpl. repeat split; try assumption.
    + intros v Hv. now rewrite Hv, Z.eqb_refl.
    + intros v k' Hne Hv. rewrite Hv, Hx.
      destruct (Z.eqb_spec k k'); [congruence | reflexivity].
  - destruct (findIndex k l) as [i|]; simpl; [|assumption].
    destruct IH as (c & Hn & Hc & Hf & Hsame & Hother).
    exists c. repeat split; try assumption.
    + intros v Hv. destruct (Z.eqb_spec (id x) k); [contradiction|].
      now apply Hsame.
    + intros v k' Hne Hv. destruct (id x =? k'); [reflexivity|].
      now apply Hother.
Qed.




Lemma ids_updateCompany k p st :
  map id (current (snd (updateCompany k p st))) = map id (current st).
Proof.
  pose proof (findIndex_spec k (current st)) as Hspec.
  unfold updateCompany. load st.
  destruct (findIndex k (current st)) as [i|];
    [|cbn [snd]; now rewrite Hcur].
  destruct Hspec as (c & Hn & _). rewrite Hn.
  unfold saveMutated, current at 1. cbn [snd stored].
  eapply ids_setAt; [exact Hn | reflexivity].
Qed.

Lemma distinct_create c st :
  NoDup (map id (current st)) ->
  NoDup (map id (current (snd (createCompany c st)))).
Proof.
  intros H. destruct (current_createCompany c st) as [Hcur _].
  rewrite Hcur, map_app. cbn [map id].
  pose proof (nextId_above (current st)) as Hall.
  rewrite <- Forall_map with (f := id) (P := fun z => z < nextId (current st))
    in Hall.
  revert H Hall. generalize (nextId (current st)), (map id (current st)).
  intros z l. induction l as [|x l IH]; simpl; intros Hnd Hall.
  - repeat constructor. intros [].
  - inversion Hnd as [|? ? Hnotin Hnd']; subst.
    inversion Hall as [|? ? Hx Hl]; subst.
    constructor; [|auto].
    rewrite in_app_iff. simpl. intros [Hin | [Hz | []]]; [tauto | lia].
Qed.

Lemma distinct_filter (f : Company -> bool) (l : list Company) :
  NoDup (map id l) -> NoDup (map id (filter f l)).
Proof.
  induction l as [|x l IH]; simpl; intros H; [constructor|].
  inversion H as [|? ? Hnotin Hnd]; subst.
  destruct (f x); simpl; [|auto].
  constructor; [|auto]. intros Hin. apply Hnotin.
  apply in_map_iff in Hin. destruct Hin as (y & Hy & Hin).
  apply filter_In in Hin. rewrite <- Hy. apply in_map. tauto.
Qed.

Lemma distinct_step c st :
  NoDup (map id (current st)) -> NoDup (map id (current (step c st))).
Proof.
  intros H. destruct (current_reads st) as (Hg & Hc & Hs).
  destruct c; cbn [step].
  - now rewrite Hg.
  - now rewrite Hc.
  - now apply distinct_create.
  - now rewrite ids_updateCompany.
  - rewrite current_deleteCompany. now apply distinct_filter.
  - now rewrite Hs.
  - destruct (current_importCompanies companies0 st) as [Hfold _].
    rewrite Hfold, <- current_fold_create. clear Hfold Hg Hc Hs.
    revert st H.
    induction companies0 as [|x l IH]; intros st H; simpl; [exact H|].
    apply IH. now apply distinct_create.
Qed.

Lemma distinct_run cs : forall st,
  NoDup (map id (current st)) -> NoDup (map id (current (run cs st))).
Proof.
  unfold run. induction cs as [|c cs IH]; intros st H; simpl; [exact H|].
  apply IH. now apply distinct_step.
Qed.

(** X7.  Whatever calls the browser-side store has served since the module
    was first loaded, the records it holds carry pairwise distinct
    identifiers. *)
Theorem mock_identifiers_stay_distinct :
  forall cs, NoDup (map id (current (run cs fresh))).
Proof.
  intros cs. apply distinct_run. simpl.
  repeat constructor; simpl; intuition lia.
Qed.

(** X8.  On the same records the browser-side store lists and searches
    exactly as the in-memory store of the server does: same window, same
    total. *)
Theorem mock_listing_agrees_with_MemStorage :
  forall st this query page pageSize,
    current st = records this ->
    fst (getCompanies page pageSize st)
    = MemStorage.getCompanies page pageSize this
    /\ fst (searchCompanies query page pageSize st)
       = MemStorage.searchCompanies query page pageSize this.
Proof.
  intros st this query page pageSize H.
  unfold getCompanies, searchCompanies. load st. cbn [fst].
  unfold MemStorage.getCompanies, MemStorage.searchCompanies.
  fold (records this). now rewrite H.
Qed.

(** A browser that never ran the module against a new server store. *)
Lemma mock_listing_agrees_with_MemStorage_witness :
  fst (getCompanies 1 2 fresh)
  = MemStorage.getCompanies 1 2 MemStorage.constructor.
Proof.
  apply (mock_listing_agrees_with_MemStorage fresh MemStorage.constructor
           EmptyString 1 2).
  reflexivity.
Defined.


End MockStore.

(** ** Users of the in-memory store *)

Section UserFacts.
Import MemUsers.

Lemma numbered_app l1 : forall from l2,
  numbered from (l1 ++ l2)
  = numbered from l1 ++ numbered (from + Z.of_nat (length l1)) l2.
Proof.
  induction l1 as [|x l1 IH]; intros from l2; simpl.
  - f_equal. lia.
  - rewrite IH. do 3 f_equal. lia.
Qed.

Lemma numbered_get_outside l : forall from k,
  k < from \/ from + Z.of_nat (length l) <= k ->
  JSMap.get k (numbered from l) = None.
Proof.
  induction l as [|x l IH]; intros from k H; simpl; [reflexivity|].
  simpl length in H. destruct (Z.eqb_spec k from); [lia|].
  apply IH. lia.
Qed.

Lemma numbered_get l : forall from i x,
  nth_error l i = Some x ->
  JSMap.get (from + Z.of_nat i) (numbered from l)
  = Some (User.mk (from + Z.of_nat i) x).
Proof.
  induction l as [|y l IH]; intros from [|i] x H; simpl in *;
    try discriminate.
  - injection H as ->. rewrite Z.add_0_r, Z.eqb_refl. reflexivity.
  - destruct (Z.eqb_spec (from + Z.pos (Pos.of_succ_nat i)) from); [lia|].
    replace (from + Z.pos (Pos.of_succ_nat i))
      with (from + 1 + Z.of_nat i) by lia.
    now apply IH.
Qed.

Lemma createUser_numbered x l0 :
  snd (createUser x (mk (numbered 1 l0) (1 + Z.of_nat (length l0))))
  = mk (numbered 1 (l0 ++ [x])) (1 + Z.of_nat (length (l0 ++ [x]))).
Proof.
  unfold createUser. cbn [snd users currentUserId].
  unfold JSMap.set, JSMap.has.
  rewrite numbered_get_outside by lia.
  rewrite numbered_app, length_app. cbn [numbered length]. f_equal. lia.
Qed.

Lemma createAll_numbered l : forall l0,
  createAll l (mk (numbered 1 l0) (1 + Z.of_nat (length l0)))
  = mk (numbered 1 (l0 ++ l)) (1 + Z.of_nat (length (l0 ++ l))).
Proof.
  induction l as [|x l IH]; intros l0.
  - now rewrite app_nil_r.
  - change (createAll (x :: l) ?st)
      with (createAll l (snd (createUser x st))).
    rewrite createUser_numbered, IH.
    now rewrite <- app_assoc.
Qed.

Lemma createAll_fresh l :
  createAll l fresh = mk (numbered 1 l) (1 + Z.of_nat (length l)).
Proof. apply (createAll_numbered l []). Qed.

Lemma find_numbered name l : forall from,
  match find (fun user => String.eqb (User.username (User.data user)) name)
          (JSMap.values (numbered from l)) with
  | Some u =>
      exists i x,
        nth_error l i = Some x /\ u = User.mk (from + Z.of_nat i) x
        /\ User.username x = name
        /\ (forall j y, (j < i)%nat -> nth_error l j = Some y ->
              User.username y <> name)
  | None => forall x, In x l -> User.username x <> name
  end.
Proof.
  induction l as [|x l IH]; intros from; simpl.
  - intros x [].
  - destruct (String.eqb_spec (User.username x) name) as [E | E].
    + exists 0%nat, x. rewrite Z.add_0_r.
      repeat split; try assumption. intros j y Hj. lia.
    + specialize (IH (from + 1)).
      destruct (find _ _) as [u|].
      * destruct IH as (i & y & Hn & Hu & Hy & Hfirst).
        exists (S i), y. repeat split; try assumption.
        -- rewrite Hu. f_equal. lia.
        -- intros [|j] z Hj Hz; simpl in Hz.
           ++ injection Hz as <-. exact E.
           ++ apply (Hfirst j z); [lia | exact Hz].
      * intros y [<- | Hy]; [exact E | now apply IH].
Qed.

End UserFacts.

(** X9.  After any sequence of [createUser] calls on a new in-memory
    store, the call number [i] has produced the user with identifier [i],
    [getUser] finds exactly the identifiers handed out, and
    [getUserByUsername] answers the earliest user created under the name:
    [createUser] takes a name that is already in use, and the later user is
    never found by name. *)
Theorem createUser_numbers_users_and_keeps_first_name_holder :
  forall l name,
    let st := MemUsers.createAll l MemUsers.fresh in
    MemUsers.currentUserId st = 1 + Z.of_nat (length l)
    /\ (forall i x,
          nth_error l i = Some x ->
          MemUsers.getUser (1 + Z.of_nat i) st
          = Some (User.mk (1 + Z.of_nat i) x))
    /\ (forall k,
          k < 1 \/ 1 + Z.of_nat (length l) <= k ->
          MemUsers.getUser k st = None)
    /\ match MemUsers.getUserByUsername name st with
       | Some u =>
           exists i x,
             nth_error l i = Some x /\ u = User.mk (1 + Z.of_nat i) x
             /\ User.username x = name
             /\ (forall j y, (j < i)%nat -> nth_error l j = Some y ->
                   User.username y <> name)
       | None => forall x, In x l -> User.username x <> name
       end.
Proof.
  intros l name st. subst st. rewrite createAll_fresh.
  split; [reflexivity|]. split; [|split].
  - intros i x H. now apply numbered_get.
  - intros k H. now apply numbered_get_outside.
  - apply find_numbered.
Qed.

(** Two users created under the same name. *)
Lemma createUser_numbers_users_and_keeps_first_name_holder_witness :
  let a := User.mkInsert "ann" "one" in
  let b := User.mkInsert "ann" "two" in
  MemUsers.getUser 2 (MemUsers.createAll [a; b] MemUsers.fresh)
  = Some (User.mk 2 b)
  /\ MemUsers.getUserByUsername "ann"
       (MemUsers.createAll [a; b] MemUsers.fresh)
     = Some (User.mk 1 a).
Proof.
  intros a b.
  destruct (createUser_numbers_users_and_keeps_first_name_holder
              [a; b] "ann"%string) as (_ & Hget & _ & _).
  split; [|reflexivity].
  apply (Hget 1%nat b). reflexivity.
Defined.

(** ** Rendering of an email *)

Section Rendering.
Import Routes.
Open Scope string_scope.

Lemma string_app_assoc (a b c : string) : (a ++ b) ++ c = a ++ b ++ c.
Proof. induction a as [|x a IH]; simpl; [reflexivity | now rewrite IH]. Qed.

Lemma string_app_nil_r (a : string) : a ++ EmptyString = a.
Proof. induction a as [|x a IH]; simpl; [reflexivity | now rewrite IH]. Qed.

Lemma dollarFree_app a b :
  dollarFree (a ++ b) = (dollarFree a && dollarFree b)%bool.
Proof.
  induction a as [|x a IH]; simpl; [reflexivity|].
  now rewrite IH, andb_assoc.
Qed.

Lemma expand_dollarFree replacement matched before after :
  dollarFree replacement = true ->
  expand replacement matched before after = replacement.
Proof.
  induction replacement as [|c r IH]; simpl; intros H; [reflexivity|].
  apply andb_true_iff in H. destruct H as [Hc Hr].
  apply negb_true_iff in Hc.
  assert (c <> "$"%char) as Hne by now apply Ascii.eqb_neq.
  rewrite (IH Hr).
  destruct c as [[] [] [] [] [] [] [] []]; try reflexivity.
  contradiction Hne. reflexivity.
Qed.

Lemma startsWith_app p s : JS.startsWith (p ++ s) p = true.
Proof. apply startsWith_spec. now exists s. Qed.

Lemma dropString_app p s : dropString (String.length p) (p ++ s) = s.
Proof. induction p as [|c p IH]; simpl; [reflexivity | exact IH]. Qed.

(** Text without a dollar sign passes a placeholder replacement as it
    is. *)
Lemma replaceFrom_dollarFree_prefix p replacement a : forall before s,
  dollarFree a = true ->
  replaceFrom (String "$" p) replacement 0 before (a ++ s)
  = a ++ replaceFrom (String "$" p) replacement 0 (before ++ a) s.
Proof.
  induction a as [|c a IH]; intros before s H.
  - simpl. now rewrite string_app_nil_r.
  - simpl in H. apply andb_true_iff in H. destruct H as [Hc Ha].
    apply negb_true_iff in Hc. cbn [append replaceFrom JS.startsWith].
    rewrite Ascii.eqb_sym, Hc. cbn [andb]. f_equal.
    rewrite IH by assumption. f_equal. f_equal.
    now rewrite string_app_assoc.
Qed.

Lemma replaceFrom_skip pattern replacement q : forall before s,
  replaceFrom pattern replacement (String.length q) before (q ++ s)
  = match s with
    | EmptyString => EmptyString
    | _ => replaceFrom pattern replacement 0 (before ++ q) s
    end.
Proof.
  induction q as [|c q IH]; intros before s.
  - simpl. rewrite string_app_nil_r. now destruct s.
  - cbn [String.length append replaceFrom]. rewrite IH.
    destruct s; [reflexivity|]. f_equal. now rewrite string_app_assoc.
Qed.

Lemma replaceFrom_nil pattern replacement k before :
  replaceFrom pattern replacement k before EmptyString = EmptyString.
Proof. reflexivity. Qed.

(** At an occurrence of the pattern the expanded replacement is put in. *)
Lemma replaceFrom_match c p replacement before s :
  replaceFrom (String c p) replacement 0 before (String c p ++ s)
  = expand replacement (String c p) before s
    ++ replaceFrom (String c p) replacement 0 (before ++ String c p) s.
Proof.
  cbn [append replaceFrom].
  change (String c (p ++ s)) with (String c p ++ s).
  rewrite startsWith_app.
  rewrite (dropString_app (String c p) s).
  replace (String.length (String c p) - 1)%nat with (String.length p)
    by (simpl; lia).
  rewrite replaceFrom_skip. f_equal.
  destruct s as [|d s]; [reflexivity|].
  f_equal. rewrite string_app_assoc. reflexivity.
Qed.

Lemma replaceAll_dollarFree p replacement s :
  dollarFree s = true -> replaceAll (String "$" p) replacement s = s.
Proof.
  intros H. unfold replaceAll.
  rewrite <- (string_app_nil_r s) at 1.
  rewrite replaceFrom_dollarFree_prefix by assumption.
  simpl. apply string_app_nil_r.
Qed.

(** A pattern that does not occur leaves the text as it is. *)
Lemma replaceFrom_absent pattern replacement s : forall before,
  JS.includes s pattern = false ->
  replaceFrom pattern replacement 0 before s = s.
Proof.
  induction s as [|c s IH]; intros before H; [reflexivity|].
  rewrite includes_unfold in H. cbn [replaceFrom].
  destruct (JS.startsWith (String c s) pattern); [discriminate|].
  f_equal. now apply IH.
Qed.

Lemma includes_dollarFree p s :
  dollarFree s = true -> JS.includes s (String "$" p) = false.
Proof.
  induction s as [|c s IH]; intros H; [reflexivity|].
  simpl in H. apply andb_true_iff in H. destruct H as [Hc Hs].
  apply negb_true_iff in Hc.
  rewrite includes_unfold. cbn [JS.startsWith].
  rewrite Ascii.eqb_sym, Hc. cbn [andb]. now apply IH.
Qed.

Lemma includes_dollarFree_prefix p a s :
  dollarFree a = true ->
  JS.includes (a ++ s) (String "$" p) = JS.includes s (String "$" p).
Proof.
  induction a as [|c a IH]; intros H; [reflexivity|].
  simpl in H. apply andb_true_iff in H. destruct H as [Hc Ha].
  apply negb_true_iff in Hc.
  cbn [append]. rewrite includes_unfold. cbn [JS.startsWith].
  rewrite Ascii.eqb_sym, Hc. cbn [andb]. now apply IH.
Qed.

Lemma replaceAll_at_placeholder p replacement a b :
  dollarFree a = true -> dollarFree b = true ->
  replaceAll (String "$" p) replacement (a ++ String "$" p ++ b)
  = a ++ expand replacement (String "$" p) a b ++ b.
Proof.
  intros Ha Hb. unfold replaceAll.
  rewrite replaceFrom_dollarFree_prefix by assumption.
  rewrite replaceFrom_match. cbn [append]. f_equal. f_equal.
  apply replaceFrom_absent, includes_dollarFree, Hb.
Qed.

Lemma replaceAll_other_placeholder p q replacement a b :
  dollarFree a = true -> dollarFree (q ++ b) = true ->
  JS.startsWith (String "$" q ++ b) (String "$" p) = false ->
  replaceAll (String "$" p) replacement (a ++ String "$" q ++ b)
  = a ++ String "$" q ++ b.
Proof.
  intros Ha Hb Hs. apply replaceFrom_absent.
  rewrite includes_dollarFree_prefix by assumption.
  rewrite includes_unfold, Hs. cbn [append].
  now apply includes_dollarFree.
Qed.

(** X10.  An email text without a dollar sign is sent to every company as
    it is. *)
Theorem renderContent_plain_text_verbatim :
  forall content company,
    dollarFree content = true -> renderContent content company = content.
Proof.
  intros content company H. unfold renderContent.
  rewrite (replaceAll_dollarFree "{company}" _ content H).
  rewrite (replaceAll_dollarFree "{contact}" _ content H).
  exact (replaceAll_dollarFree "{email}" _ content H).
Qed.

Lemma renderContent_plain_text_verbatim_witness :
  renderContent "Dear customer, we have moved."
    (mkCompany 1 (mkInsertCompany "Acme Inc." "John Smith"
                    "john@acmeinc.com" "N/A" "Other" "Unknown" 0 "Unknown"
                    "New" "2024-01-31"))
  = "Dear customer, we have moved.".
Proof.
  apply renderContent_plain_text_verbatim. reflexivity.
Defined.

(** X11.  In a text that has no other dollar sign, each of the three
    placeholders is replaced by the company's name, contact or email
    address, provided that value has no dollar sign either. *)
Theorem renderContent_fills_placeholder :
  forall a b (company : Company),
    dollarFree a = true -> dollarFree b = true ->
    (dollarFree (name company) = true ->
     renderContent (a ++ "${company}" ++ b) company
     = a ++ name company ++ b)
    /\ (dollarFree (contact company) = true ->
        renderContent (a ++ "${contact}" ++ b) company
        = a ++ contact company ++ b)
    /\ (dollarFree (email company) = true ->
        renderContent (a ++ "${email}" ++ b) company
        = a ++ email company ++ b).
Proof.
  intros a b company Ha Hb.
  assert (forall v, dollarFree v = true -> dollarFree (a ++ v ++ b) = true)
    as Hfree.
  { intros v Hv. now rewrite !dollarFree_app, Ha, Hv, Hb. }
  unfold renderContent. split; [|split]; intros Hv.
  - rewrite (replaceAll_at_placeholder "{company}") by assumption.
    rewrite expand_dollarFree by assumption.
    rewrite (replaceAll_dollarFree "{contact}") by now apply Hfree.
    now rewrite (replaceAll_dollarFree "{email}") by now apply Hfree.
  - rewrite (replaceAll_other_placeholder "{company}" "{contact}");
      [|assumption|rewrite dollarFree_app, Hb; reflexivity|reflexivity].
    rewrite (replaceAll_at_placeholder "{contact}") by assumption.
    rewrite expand_dollarFree by assumption.
    now rewrite (replaceAll_dollarFree "{email}") by now apply Hfree.
  - rewrite (replaceAll_other_placeholder "{company}" "{email}");
      [|assumption|rewrite dollarFree_app, Hb; reflexivity|reflexivity].
    rewrite (replaceAll_other_placeholder "{contact}" "{email}");
      [|assumption|rewrite dollarFree_app, Hb; reflexivity|reflexivity].
    rewrite (replaceAll_at_placeholder "{email}") by assumption.
    rewrite expand_dollarFree by assumption.
    reflexivity.
Qed.

Lemma renderContent_fills_placeholder_witness :
  renderContent "Hello ${contact}, welcome."
    (mkCompany 1 (mkInsertCompany "Acme Inc." "John Smith"
                    "john@acmeinc.com" "N/A" "Other" "Unknown" 0 "Unknown"
                    "New" "2024-01-31"))
  = "Hello John Smith, welcome.".
Proof.
  apply (renderContent_fills_placeholder "Hello " ", welcome."
           (mkCompany 1 (mkInsertCompany "Acme Inc." "John Smith"
                           "john@acmeinc.com" "N/A" "Other" "Unknown" 0
                           "Unknown" "New" "2024-01-31")));
    reflexivity.
Defined.

Lemma expand_other c r matched before after :
  c <> "$"%char ->
  expand (String c r) matched before after
  = String c (expand r matched before after).
Proof.
  intros Hc. destruct c as [[] [] [] [] [] [] [] []]; try reflexivity.
  contradiction Hc. reflexivity.
Qed.

Lemma expand_doubled_dollar n1 n2 matched before after :
  dollarFree n1 = true -> dollarFree n2 = true ->
  expand (n1 ++ String "$" (String "$" n2)) matched before after
  = n1 ++ String "$" n2.
Proof.
  intros H1 H2. induction n1 as [|c n1 IH].
  - cbn [append expand]. rewrite Ascii.eqb_refl.
    now rewrite expand_dollarFree.
  - simpl in H1. apply andb_true_iff in H1. destruct H1 as [Hc H1].
    apply negb_true_iff, Ascii.eqb_neq in Hc.
    cbn [append]. rewrite expand_other by assumption.
    now rewrite (IH H1).
Qed.

(** X12.  A field value is not put in verbatim.  Two dollar signs in a
    company name come out as one; and a company whose name reads as the
    contact placeholder is sent its contact in place of its name, because
    the contact is replaced after the name. *)
Theorem renderContent_rewrites_field_values :
  forall a b (company : Company),
    dollarFree a = true -> dollarFree b = true ->
    (forall n1 n2,
        dollarFree n1 = true -> dollarFree n2 = true ->
        replaceAll "${company}" (n1 ++ "$$" ++ n2) (a ++ "${company}" ++ b)
        = a ++ n1 ++ "$" ++ n2 ++ b)
    /\ (name company = "${contact}" ->
        dollarFree (contact company) = true ->
        renderContent (a ++ "${company}" ++ b) company
        = a ++ contact company ++ b).
Proof.
  intros a b company Ha Hb. split.
  - intros n1 n2 H1 H2.
    rewrite (replaceAll_at_placeholder "{company}") by assumption.
    change ("$$" ++ n2) with (String "$" (String "$" n2)).
    rewrite expand_doubled_dollar by assumption.
    now rewrite !string_app_assoc.
  - intros Hn Hc. unfold renderContent. rewrite Hn.
    rewrite (replaceAll_at_placeholder "{company}") by assumption.
    cbn [expand Ascii.eqb Bool.eqb]. cbn.
    change (a ++ String "$" (String "{" (String "c" (String "o"
              (String "n" (String "t" (String "a" (String "c"
                (String "t" (String "}" b))))))))))
      with (a ++ "${contact}" ++ b).
    rewrite (replaceAll_at_placeholder "{contact}") by assumption.
    rewrite expand_dollarFree by assumption.
    apply replaceAll_dollarFree.
    now rewrite !dollarFree_app, Ha, Hc, Hb.
Qed.

Lemma renderContent_rewrites_field_values_witness :
  replaceAll "${company}" "Cash $$ Inc" "To ${company}." = "To Cash $ Inc.".
Proof.
  apply (proj1 (renderContent_rewrites_field_values "To " "."
                  (mkCompany 1 (mkInsertCompany "Acme Inc." "John Smith"
                                  "john@acmeinc.com" "N/A" "Other" "Unknown"
                                  0 "Unknown" "New" "2024-01-31"))
                  eq_refl eq_refl) "Cash " " Inc");
    reflexivity.
Defined.

End Rendering.

(** ** The routes over the two stores *)

Section RouteFacts.
Import Routes.


(** The page of a list at page numbers whose products are safe. *)
Lemma pageOf_safe (l : list Company) (p s : Z) :
  1 <= p -> 1 <= s -> JS.isSafeInteger (p * s) = true ->
  pageOf l p s
  = mkPage (window ((p - 1) * s) s l) (Z.of_nat (length l)).
Proof.
  intros Hp Hs Hsafe. apply isSafeInteger_spec in Hsafe.
  assert (JS.isSafeInteger ((p - 1) * s) = true) as Ho
      by (apply isSafeInteger_spec; nia).
  assert (JS.isSafeInteger (p - 1) = true) as Hp1
      by (apply isSafeInteger_spec; nia).
  unfold pageOf.
  rewrite (sub_safe _ _ Hp1), (mul_safe _ _ Ho).
  rewrite add_safe by (apply isSafeInteger_spec; nia).
  unfold JS.sliceNumber, JS.indexOf. f_equal.
  apply slice_window; nia.
Qed.



(** X14.  [DELETE /companies/:id] answers by the store behind it.  On the
    in-memory store it answers 204 when the path names the identifier of a
    record, which is then gone and fetched with 404, and 404 with the store
    untouched otherwise.  On the persistent store it never answers 404: for
    every identifier the column can hold it answers 204, whether or not
    such a row was there. *)
Theorem removeCompany_status_depends_on_store :
  (forall idParam this,
      MemStorage.wf this = true ->
      let r := removeCompany idParam this in
      match ImportExcel.parseInt idParam with
      | JS.Num k =>
          match MemStorage.getCompany k this with
          | Some _ =>
              status (fst r) = 204
              /\ MemStorage.getCompany k (snd r) = None
              /\ status (fetchCompany idParam (snd r)) = 404
          | None => status (fst r) = 404 /\ snd r = this
          end
      | _ => status (fst r) = 404 /\ snd r = this
      end)
  /\ (forall idParam (db : DatabaseStorage.t),
        status (fst (removeCompany idParam db)) <> 404
        /\ (forall k,
              ImportExcel.parseInt idParam = JS.Num k ->
              inInteger k = true ->
              status (fst (removeCompany idParam db)) = 204
              /\ DatabaseStorage.deleteCompany k db
                 = Some (true, snd (removeCompany idParam db)))).
Proof.
  split.
  - intros idParam this Hwf r. subst r.
    unfold removeCompany, fetchCompany.
    destruct (ImportExcel.parseInt idParam) as [k| | |];
      cbn [deleteCompany getCompany memStorage];
      try (split; reflexivity).
    pose proof (mem_get_after_delete k this Hwf) as Hgone.
    destruct (MemStorage.getCompany k this) as [c|] eqn:Hget.
    + assert (fst (MemStorage.deleteCompany k this) = true) as Htrue.
      { unfold MemStorage.deleteCompany, JSMap.delete, JSMap.has. simpl.
        unfold MemStorage.getCompany in Hget. now rewrite Hget. }
      destruct (MemStorage.deleteCompany k this) as [b this'].
      simpl in Htrue, Hgone. subst b. cbn [fst snd].
      rewrite Hgone. repeat split.
    + rewrite (mem_delete_absent k this Hget). split; reflexivity.
  - intros idParam db. unfold removeCompany.
    cbn [deleteCompany databaseStorage].
    unfold DatabaseStorage.deleteCompany.
    destruct (ImportExcel.parseInt idParam) as [k| | |];
      try (cbn [fst status]; split; [discriminate|];
           intros k H; discriminate H).
    change (Db.int4 k) with (inInteger k).
    destruct (inInteger k) eqn:E; cbn [fst snd status].
    + split; [discriminate|]. intros k' [= <-] _.
      change (Db.int4 k) with (inInteger k). rewrite E.
      split; reflexivity.
    + split; [discriminate|]. intros k' [= <-] Hk. congruence.
Qed.

(** Deleting the sample 2 of a new in-memory store, and a row that is
    not there from the table. *)
Lemma removeCompany_status_depends_on_store_witness :
  status (fst (removeCompany "2" MemStorage.constructor)) = 204
  /\ status (fst (removeCompany "7" Db.empty)) = 204.
Proof.
  split.
  - pose proof (proj1 removeCompany_status_depends_on_store "2"%string
                  MemStorage.constructor eq_refl) as H.
    apply H.
  - apply (proj2 (proj2 removeCompany_status_depends_on_store "7"%string
                    Db.empty) 7 eq_refl eq_refl).
Defined.

Lemma get_In {V : Type} k (m : JSMap.t V) v :
  JSMap.get k m = Some v -> In v (JSMap.values m).
Proof.
  induction m as [|[k0 v0] m IH]; simpl; [discriminate|].
  destruct (k =? k0); [intros [= ->]; now left | auto].
Qed.

Lemma lookupAll_mem ids this :
  lookupAll ids this
  = Some (flat_map (fun k => match MemStorage.getCompany k this with
                             | Some c => [c]
                             | None => []
                             end) ids).
Proof.
  induction ids as [|k ids IH]; [reflexivity|].
  cbn [lookupAll flat_map]. rewrite IH.
  cbn [getCompany memStorage].
  now destruct (MemStorage.getCompany k this).
Qed.

Lemma recipients_mem d this :
  recipients d this
  = match sendToSelected d, companyIds d with
    | Some true, Some (k :: r) => lookupAll (k :: r) this
    | _, _ => Some (firstn 100 (records this))
    end.
Proof.
  unfold recipients.
  assert (option_map companies (getCompanies 1 100 this)
          = Some (firstn 100 (records this))) as ->; [|reflexivity].
  cbn [getCompanies memStorage option_map]. f_equal.
  fold (records this).
  rewrite (pageOf_safe _ 1 100) by (reflexivity || lia).
  reflexivity.
Qed.

(** X15.  The companies an email request goes to, on the in-memory
    store.  With [sendToSelected] set and a list of identifiers that is
    not empty, they are the stored companies whose identifiers are listed,
    in the order of the list and as often as listed, the unknown
    identifiers left out.  In every other case, an empty list included,
    they are the first 100 records of the store. *)
Theorem recipients_of_email_request :
  forall emailData this,
    MemStorage.wf this = true ->
    exists l,
      recipients emailData this = Some l
      /\ match sendToSelected emailData, companyIds emailData with
         | Some true, Some (k :: r) =>
             map id l
             = filter
                 (fun x => JSMap.has x (MemStorage.companiesMap this))
                 (k :: r)
             /\ Forall (fun c => In c (records this)) l
         | _, _ => l = firstn 100 (records this)
         end.
Proof.
  intros d this Hwf.
  rewrite recipients_mem.
  destruct (sendToSelected d) as [[|]|]; try (eexists; split; reflexivity).
  destruct (companyIds d) as [[|k r]|]; try (eexists; split; reflexivity).
  rewrite lookupAll_mem. eexists. split; [reflexivity|].
  apply wf_unfold in Hwf. destruct Hwf as [_ Hasc].
  generalize (k :: r). intros ids. split.
  - induction ids as [|x ids IH]; [reflexivity|].
    cbn [flat_map filter]. rewrite map_app, IH.
    unfold JSMap.has, MemStorage.getCompany.
    destruct (JSMap.get x (MemStorage.companiesMap this)) as [c|] eqn:E;
      [|reflexivity].
    cbn [map app]. f_equal. eapply ascending_get_id; eassumption.
  - apply Forall_flat_map, Forall_forall. intros x _.
    unfold MemStorage.getCompany.
    destruct (JSMap.get x (MemStorage.companiesMap this)) as [c|] eqn:E;
      [|constructor].
    constructor; [|constructor]. eapply get_In, E.
Qed.

(** A request for the samples 3, 9 and 1, and one with an empty list. *)
Lemma recipients_of_email_request_witness :
  option_map (map id)
    (recipients (mkEmailData "Hi" "template1" "Hello" (Some true)
                   (Some [3; 9; 1])) MemStorage.constructor)
  = Some [3; 1]
  /\ option_map (map id)
       (recipients (mkEmailData "Hi" "template1" "Hello" (Some true)
                      (Some [])) MemStorage.constructor)
     = Some [1; 2; 3].
Proof.
  split.
  - destruct (recipients_of_email_request
                (mkEmailData "Hi" "template1" "Hello" (Some true)
                   (Some [3; 9; 1])) MemStorage.constructor eq_refl)
      as (l & -> & Hids & _).
    simpl. now rewrite Hids.
  - destruct (recipients_of_email_request
                (mkEmailData "Hi" "template1" "Hello" (Some true)
                   (Some [])) MemStorage.constructor eq_refl)
      as (l & -> & ->).
    reflexivity.
Defined.

(** X16.  [POST /send-email] on the in-memory store.  A request with an
    empty subject or content is answered 400 and no message is sent.
    Otherwise one message goes to the email address of each recipient,
    under the subject of the request, with the content rendered for that
    recipient; the answer is 400 when there is no recipient and 200 when
    there is one. *)
Theorem sendEmail_one_message_per_recipient :
  forall emailData (this : MemStorage.t),
    let r := sendEmail emailData this in
    (emailSubject emailData = EmptyString
     \/ emailContent emailData = EmptyString ->
     status (fst r) = 400 /\ snd r = [])
    /\ (emailSubject emailData <> EmptyString ->
        emailContent emailData <> EmptyString ->
        exists l,
          recipients emailData this = Some l
          /\ map to (snd r) = map (fun c : Company => email c) l
          /\ map html (snd r)
             = map (renderContent (emailContent emailData)) l
          /\ Forall (fun m => subject m = emailSubject emailData) (snd r)
          /\ status (fst r) = match l with [] => 400 | _ => 200 end).
Proof.
  intros d this r. subst r. unfold sendEmail, emailSchemaParse. split.
  - intros [H | H]; rewrite H; cbn [JS.truthy andb];
      [|rewrite andb_false_r]; split; reflexivity.
  - intros Hs Hc. apply truthy_spec in Hs, Hc. rewrite Hs, Hc. cbn [andb].
    assert (exists l, recipients d this = Some l) as [l Hl].
    { rewrite recipients_mem.
      destruct (sendToSelected d) as [[|]|]; eauto.
      destruct (companyIds d) as [[|k r]|]; eauto.
      rewrite lookupAll_mem. eauto. }
    exists l. rewrite Hl. split; [reflexivity|].
    destruct l as [|c l]; cbn [fst snd status].
    + repeat split. constructor.
    + rewrite !map_map. cbn [to html]. repeat split.
      apply Forall_map, Forall_forall. intros x _. reflexivity.
Qed.

Lemma sendEmail_one_message_per_recipient_witness :
  map to
    (snd (sendEmail (mkEmailData "Hi" "template1" "Hello ${contact}"
                       (Some true) (Some [3; 9; 1]))
            MemStorage.constructor))
  = ["michael@globalind.com"%string; "john@acmeinc.com"%string].
Proof.
  destruct (sendEmail_one_message_per_recipient
              (mkEmailData "Hi" "template1" "Hello ${contact}"
                 (Some true) (Some [3; 9; 1])) MemStorage.constructor)
    as [_ H].
  destruct H as (l & Hl & Hto & _); [discriminate | discriminate |].
  rewrite Hto. injection Hl as <-. reflexivity.
Defined.

End RouteFacts.

(** ** The file check *)

Section FileFacts.
Import FileCheck.
Open Scope string_scope.

Lemma lastSegment_after_dot a : forall current t,
  lastSegment current (a ++ String "." t) = lastSegment EmptyString t.
Proof.
  induction a as [|c a IH]; intros current t; simpl.
  - reflexivity.
  - destruct (Ascii.eqb c "."); apply IH.
Qed.

Lemma lastSegment_dotFree s : forall current,
  dotFree s = true -> lastSegment current s = current ++ s.
Proof.
  induction s as [|c s IH]; intros current H; simpl.
  - now rewrite string_app_nil_r.
  - simpl in H. apply andb_true_iff in H. destruct H as [Hc Hs].
    apply negb_true_iff in Hc. rewrite Hc, IH by assumption.
    now rewrite string_app_assoc.
Qed.

(** X17.  [isExcelFile] looks only at the text after the last dot of the
    name, without regard to case: a name [base.ext] is accepted exactly
    when [ext] is one of xlsx, xls and csv.  A name without any dot is
    taken as its own extension, and a name that ends in a dot is
    refused. *)
Theorem isExcelFile_decided_by_last_segment :
  forall base ext,
    dotFree ext = true ->
    isExcelFile (base ++ "." ++ ext)
    = existsb (String.eqb (JS.toLowerCase ext)) allowed
    /\ isExcelFile ext = existsb (String.eqb (JS.toLowerCase ext)) allowed
    /\ isExcelFile (base ++ ".") = false.
Proof.
  intros base ext H. unfold isExcelFile. cbn [append].
  rewrite !lastSegment_after_dot.
  rewrite (lastSegment_dotFree ext) by assumption.
  repeat split.
Qed.

Lemma isExcelFile_decided_by_last_segment_witness :
  isExcelFile "report.final.XLSX" = true /\ isExcelFile "csv" = true.
Proof.
  split.
  - exact (proj1 (isExcelFile_decided_by_last_segment "report.final"
                    "XLSX" eq_refl)).
  - exact (proj1 (proj2 (isExcelFile_decided_by_last_segment EmptyString
                           "csv" eq_refl))).
Defined.

(** X18.  [handleFileChange] hands a file on to the import exactly when it
    is the first file selected, [isExcelFile] accepts its name and its size
    is at most 5 MiB; a wrong extension is reported before the size is
    looked at. *)
Theorem handleFileChange_processes_first_valid_file :
  forall f rest,
    (handleFileChange (f :: rest) = Processed f
     <-> isExcelFile (fileName f) = true /\ fileSize f <= 5242880)
    /\ (isExcelFile (fileName f) = false ->
        handleFileChange (f :: rest) = InvalidFileType)
    /\ handleFileChange [] = Ignored.
Proof.
  intros f rest. unfold handleFileChange, isExcelFile.
  destruct (existsb _ allowed); cbn [negb].
  - change (5 * 1024 * 1024)%Z with 5242880%Z.
    destruct (Z.ltb_spec 5242880 (fileSize f)).
    + repeat split; try discriminate. intros [_ H']. lia.
    + repeat split; try discriminate. assumption.
  - repeat split; try discriminate. intros [H _]. discriminate H.
Qed.

(** A text file chosen first, with a spreadsheet after it. *)
Lemma handleFileChange_processes_first_valid_file_witness :
  handleFileChange [mkFile "notes.txt" 10; mkFile "data.xlsx" 10]
  = InvalidFileType.
Proof.
  apply (proj1 (proj2 (handleFileChange_processes_first_valid_file
                         (mkFile "notes.txt" 10) [mkFile "data.xlsx" 10]))).
  reflexivity.
Defined.

End FileFacts.

(** ** The pager of the company table *)

Section PagerFacts.
Import DataTable.

Lemma range_spec from to :
  StronglySorted Z.lt (range from to)
  /\ Forall (fun i => from <= i <= to) (range from to)
  /\ (forall i, from <= i <= to -> In i (range from to))
  /\ Z.of_nat (length (range from to)) = Z.max 0 (to - from + 1).
Proof.
  unfold range. set (n := Z.to_nat (to - from + 1)).
  assert (Z.of_nat n = Z.max 0 (to - from + 1)) as Hn by (subst n; lia).
  split; [|split; [|split]].
  - clear. generalize 0%nat. induction n as [|n IH]; intros k; simpl.
    + constructor.
    + constructor; [apply IH|].
      apply Forall_map, Forall_forall. intros j Hj.
      apply in_seq in Hj. lia.
  - apply Forall_map, Forall_forall. intros j Hj. apply in_seq in Hj. lia.
  - intros i Hi. apply in_map_iff. exists (Z.to_nat (i - from)).
    split; [lia|]. apply in_seq. lia.
  - now rewrite length_map, length_seq.
Qed.

Lemma linked_items page total :
  linked (generatePaginationItems page total)
  = (if 1 <? startPage page total then [1] else [])
    ++ range (startPage page total) (endPage page total)
    ++ (if endPage page total <? total then [total] else []).
Proof.
  unfold generatePaginationItems, linked.
  rewrite !flat_map_app. cbn [flat_map app].
  f_equal.
  - destruct (1 <? startPage page total); [|reflexivity].
    destruct (2 <? startPage page total); reflexivity.
  - f_equal.
    + induction (range _ _) as [|i l IH]; [reflexivity|].
      cbn [map flat_map app]. now rewrite IH.
    + rewrite app_nil_r.
      destruct (endPage page total <? total); [|reflexivity].
      destruct (endPage page total <? total - 1); reflexivity.
Qed.

Lemma active_items page total :
  active (generatePaginationItems page total)
  = filter (Z.eqb page) (range (startPage page total) (endPage page total)).
Proof.
  unfold generatePaginationItems, active.
  rewrite !flat_map_app. cbn [flat_map app].
  replace (flat_map _ (if 1 <? startPage page total then _ else _))
    with (@nil Z).
  2:{ destruct (1 <? startPage page total); [|reflexivity].
      destruct (2 <? startPage page total); reflexivity. }
  replace (flat_map _ (if endPage page total <? total then _ else _))
    with (@nil Z).
  2:{ destruct (endPage page total <? total); [|reflexivity].
      destruct (endPage page total <? total - 1); reflexivity. }
  cbn [app]. rewrite app_nil_r.
  induction (range _ _) as [|i l IH]; [reflexivity|].
  cbn [map flat_map filter]. rewrite IH.
  destruct (page =? i); reflexivity.
Qed.

Lemma pager_bounds page total :
  1 <= page <= total ->
  let s := startPage page total in
  let e := endPage page total in
  1 <= s /\ s <= page <= e /\ e <= total
  /\ e - s + 1 = Z.min 5 total.
Proof.
  intros H. unfold startPage, endPage, maxVisiblePages.
  change (5 / 2) with 2.
  destruct (Z.ltb_spec
              (Z.min total (Z.max 1 (page - 2) + 5 - 1)
               - Z.max 1 (page - 2) + 1) 5); lia.
Qed.

Lemma StronglySorted_app_lt (l1 l2 : list Z) :
  StronglySorted Z.lt l1 -> StronglySorted Z.lt l2 ->
  (forall x y, In x l1 -> In y l2 -> x < y) ->
  StronglySorted Z.lt (l1 ++ l2).
Proof.
  intros H1 H2 H. induction H1 as [|a l1 Hs IH Hall]; simpl; [exact H2|].
  constructor.
  - apply IH. intros x y Hx Hy. apply H; [now right | exact Hy].
  - apply Forall_app. split; [exact Hall|].
    apply Forall_forall. intros y Hy. apply H; [now left | exact Hy].
Qed.

Lemma last_sorted_max (l : list Z) m d :
  StronglySorted Z.lt l -> In m l -> (forall x, In x l -> x <= m) ->
  last l d = m.
Proof.
  induction l as [|x l IH]; intros Hs Hin Hle; [destruct Hin|].
  inversion Hs as [|? ? Hs' Hall]; subst.
  rewrite Forall_forall in Hall.
  destruct l as [|y l].
  - destruct Hin as [-> | []]. reflexivity.
  - change (last (x :: y :: l) d) with (last (y :: l) d).
    apply IH; [exact Hs' | | intros z Hz; apply Hle; now right].
    destruct Hin as [-> | Hin]; [|exact Hin].
    specialize (Hall y (or_introl eq_refl)).
    specialize (Hle y (or_intror (or_introl eq_refl))). lia.
Qed.

(** X19.  The page numbers the pager links to are strictly increasing, so
    no two entries share a key.  When the current page lies between 1 and
    the number of pages, the links start at page 1, end at the last page,
    include the current page, which is the one link shown as current, and
    number at most seven, of which the run around the current page has
    five or, with fewer pages, all of them. *)
Theorem pager_links_increase_and_cover :
  forall page total,
    StronglySorted Z.lt (linked (generatePaginationItems page total))
    /\ (1 <= page <= total ->
        hd_error (linked (generatePaginationItems page total)) = Some 1
        /\ last (linked (generatePaginationItems page total)) 0 = total
        /\ In page (linked (generatePaginationItems page total))
        /\ active (generatePaginationItems page total) = [page]
        /\ (length (linked (generatePaginationItems page total)) <= 7)%nat
        /\ Z.of_nat (length (range (startPage page total)
                               (endPage page total)))
           = Z.min 5 total).
Proof.
  intros page total. rewrite linked_items, active_items.
  set (s := startPage page total). set (e := endPage page total).
  destruct (range_spec s e) as (Hsorted & Hbounds & Hin & Hlen).
  rewrite Forall_forall in Hbounds.
  assert (1 <= s) as Hs1.
  { subst s. unfold startPage.
    destruct (_ <? maxVisiblePages); lia. }
  assert (1 < s -> e < total -> 1 < total) as Htot.
  { subst s e. unfold startPage, endPage, maxVisiblePages.
    change (5 / 2) with 2.
    destruct (Z.ltb_spec
                (Z.min total (Z.max 1 (page - 2) + 5 - 1)
                 - Z.max 1 (page - 2) + 1) 5); lia. }
  split.
  - apply StronglySorted_app_lt; [| |].
    + destruct (1 <? s); repeat constructor.
    + apply StronglySorted_app_lt; [exact Hsorted | |].
      * destruct (e <? total); repeat constructor.
      * intros x y Hx Hy. specialize (Hbounds x Hx).
        destruct (Z.ltb_spec e total); [|destruct Hy].
        destruct Hy as [<- | []]. lia.
    + intros x y Hx Hy.
      destruct (Z.ltb_spec 1 s) as [H1 | H1]; [|destruct Hx].
      destruct Hx as [<- | []].
      apply in_app_iff in Hy. destruct Hy as [Hy | Hy].
      * specialize (Hbounds y Hy). lia.
      * destruct (Z.ltb_spec e total); [|destruct Hy].
        destruct Hy as [<- | []]. now apply Htot.
  - intros Hp.
    destruct (pager_bounds page total Hp) as (_ & Hpage & He & Hwidth).
    fold s e in Hpage, He, Hwidth.
    assert (In page (range s e)) as Hpin by (apply Hin; lia).
    assert (exists r, range s e = s :: r) as [r Hr].
    { destruct (range s e) as [|x r] eqn:E; [destruct Hpin|].
      exists r. f_equal.
      pose proof (Hbounds x (or_introl eq_refl)) as Hx.
      destruct (range_spec s e) as (_ & _ & Hin' & _).
      assert (In s (x :: r)) as Hsin by (rewrite <- E; apply Hin'; lia).
      destruct Hsin as [-> | Hsin]; [reflexivity|].
      inversion Hsorted as [|? ? _ Hall]; subst.
      rewrite Forall_forall in Hall. specialize (Hall s Hsin). lia. }
    split; [|split; [|split; [|split; [|split]]]].
    + destruct (Z.ltb_spec 1 s); [reflexivity|].
      rewrite Hr. cbn. f_equal. lia.
    + destruct (Z.ltb_spec e total) as [Hlt | Hge].
      * rewrite app_assoc. apply last_last.
      * rewrite app_nil_r.
        assert (last (range s e) 0 = total) as Hlast.
        { apply last_sorted_max; [exact Hsorted | apply Hin; lia |].
          intros x Hx. specialize (Hbounds x Hx). lia. }
        rewrite Hr in Hlast |- *.
        destruct (1 <? s); exact Hlast.
    + apply in_or_app. right. apply in_or_app. now left.
    + clear - Hsorted Hpin. revert Hsorted Hpin.
      generalize (range s e). intros l Hsorted Hpin.
      induction Hsorted as [|x l Hs' IH Hall]; [destruct Hpin|].
      cbn [filter]. rewrite Forall_forall in Hall.
      destruct (Z.eqb_spec page x) as [<- | Hne].
      * f_equal. clear - Hall.
        induction l as [|y l IHl]; [reflexivity|].
        cbn [filter].
        pose proof (Hall y (or_introl eq_refl)) as Hy.
        destruct (Z.eqb_spec page y); [lia|].
        apply IHl. intros z Hz. apply Hall. now right.
      * destruct Hpin as [-> | Hpin]; [contradiction | now apply IH].
    + rewrite !length_app.
      assert (length (range s e) <= 5)%nat by lia.
      destruct (1 <? s), (e <? total); simpl; lia.
    + lia.
Qed.

(** Page 7 of 20. *)
Lemma pager_links_increase_and_cover_witness :
  linked (generatePaginationItems 7 20) = [1; 5; 6; 7; 8; 9; 20]
  /\ active (generatePaginationItems 7 20) = [7].
Proof.
  split; [reflexivity|].
  apply (proj2 (pager_links_increase_and_cover 7 20)). lia.
Defined.

Lemma window_nonempty {A : Type} (o n : Z) (l : list A) :
  0 <= o -> 1 <= n ->
  (window o n l <> [] <-> o < Z.of_nat (length l)).
Proof.
  intros Ho Hn. unfold window. split.
  - intros H. destruct (Z.lt_ge_cases o (Z.of_nat (length l))); [assumption|].
    exfalso. apply H. rewrite skipn_all2 by lia. apply firstn_nil.
  - intros Hlt H. apply (f_equal (@length A)) in H.
    rewrite length_firstn, length_skipn in H. simpl in H. lia.
Qed.

Lemma window_length_exact {A : Type} (o n : Z) (l : list A) :
  0 <= o -> 0 <= n -> o <= Z.of_nat (length l) ->
  Z.of_nat (length (window o n l)) = Z.min n (Z.of_nat (length l) - o).
Proof.
  intros Ho Hn Hle. unfold window.
  rewrite length_firstn, length_skipn. lia.
Qed.

(** X20.  The pages the pager offers are the pages that have records: for
    a page from 1 up and a page size from 1 up, [getCompanies] returns a
    window that is not empty exactly when the page is at most the number
    of pages the table computes from the total. *)
Theorem pager_pages_are_the_pages_with_records :
  forall page pageSize this,
    1 <= page -> 1 <= pageSize ->
    (companies (MemStorage.getCompanies page pageSize this) <> []
     <-> page <= totalPages
                   (total (MemStorage.getCompanies page pageSize this))
                   pageSize).
Proof.
  intros page n this Hp Hn.
  rewrite getCompanies_window by lia.
  rewrite window_nonempty by nia.
  unfold totalPages. cbn [total MemStorage.getCompanies].
  fold (records this). set (len := Z.of_nat (length (records this))).
  pose proof (Z.div_mod (- len) n ltac:(lia)) as Hdiv.
  pose proof (Z.mod_pos_bound (- len) n ltac:(lia)) as Hmod.
  split; intros H; nia.
Qed.

Lemma pager_pages_are_the_pages_with_records_witness :
  companies (MemStorage.getCompanies 2 2 MemStorage.constructor) <> [].
Proof.
  apply (pager_pages_are_the_pages_with_records 2 2 MemStorage.constructor);
    [lia | lia |].
  vm_compute. discriminate.
Defined.

(** X21.  The caption under the table counts the rows shown: when the
    table shows a window of [getCompanies] that is not empty, "Showing a to
    b" has b - a + 1 equal to the number of rows, and a is the position of
    the first row among all records. *)
Theorem caption_counts_rows_shown :
  forall page pageSize this,
    1 <= page -> 1 <= pageSize ->
    let r := MemStorage.getCompanies page pageSize this in
    companies r <> [] ->
    showingTo page pageSize (total r)
    - showingFrom page pageSize (companies r) + 1
    = Z.of_nat (length (companies r))
    /\ nth_error (records this)
         (Z.to_nat (showingFrom page pageSize (companies r) - 1))
       = hd_error (companies r).
Proof.
  intros page n this Hp Hn r Hne. subst r.
  pose proof Hne as Hne'.
  rewrite getCompanies_window in Hne' |- * by lia.
  apply window_nonempty in Hne'; [|nia|lia].
  unfold showingTo, showingFrom.
  destruct (window ((page - 1) * n) n (records this)) as [|c w] eqn:E.
  { rewrite getCompanies_window in Hne by lia. now rewrite E in Hne. }
  rewrite <- E. cbn [total MemStorage.getCompanies]. fold (records this).
  split.
  - rewrite window_length_exact by nia. nia.
  - rewrite E. cbn [hd_error].
    replace ((page - 1) * n + 1 - 1) with ((page - 1) * n) by lia.
    unfold window in E.
    destruct (skipn (Z.to_nat ((page - 1) * n)) (records this))
      as [|x rest] eqn:Es.
    + rewrite firstn_nil in E. discriminate E.
    + replace (Z.to_nat n) with (S (Z.to_nat (n - 1))) in E by lia.
      cbn [firstn] in E. injection E as -> _.
      rewrite <- (Nat.add_0_r (Z.to_nat ((page - 1) * n))).
      rewrite <- nth_error_skipn, Es. reflexivity.
Qed.

Lemma caption_counts_rows_shown_witness :
  showingTo 2 2 3
  - showingFrom 2 2
      (companies (MemStorage.getCompanies 2 2 MemStorage.constructor))
  + 1
  = 1.
Proof.
  apply (caption_counts_rows_shown 2 2 MemStorage.constructor);
    [lia | lia |].
  vm_compute. discriminate.
Defined.

End PagerFacts.

(** ** What the import submits *)

Section Submission.
Import ImportExcel.

Lemma orDefault_filled v d :
  d <> EmptyString -> orDefault v d <> EmptyString.
Proof.
  intros Hd. unfold orDefault. destruct v as [s|]; [|exact Hd].
  destruct (JS.truthy s) eqn:E; [|exact Hd]. now apply truthy_spec.
Qed.

Lemma validate_filled today p c : validate today p = Some c -> filled c.
Proof.
  unfold validate.
  destruct (Partial.name p) as [nm|], (Partial.contact p) as [ct|],
    (Partial.email p) as [em|]; try discriminate.
  destruct (JS.truthy nm) eqn:E1, (JS.truthy ct) eqn:E2,
    (JS.truthy em) eqn:E3; try discriminate.
  intros [= <-]. unfold filled. cbn.
  repeat split; try (now apply truthy_spec);
    apply orDefault_filled; discriminate.
Qed.

Lemma processRow_filled today nh row c :
  processRow today nh row = Accepted c -> filled c.
Proof.
  unfold processRow. destruct row as [|x row]; [discriminate|].
  destruct (mapRow nh (x :: row)) as [p|]; [|discriminate].
  destruct (validate today p) as [c'|] eqn:E; [|discriminate].
  intros [= <-]. eapply validate_filled, E.
Qed.

Lemma processRows_spec today nh rows : forall acc l,
  processRows today nh rows acc = Some l ->
  exists new,
    l = acc ++ new /\ Forall filled new
    /\ (length new <= length rows)%nat
    /\ (new = [] <->
        forall row, In row rows -> processRow today nh row = Dropped).
Proof.
  induction rows as [|row rows IH]; intros acc l H; simpl in H.
  - injection H as <-. exists []. rewrite app_nil_r.
    repeat split; try constructor. intros _ row [].
  - destruct (processRow today nh row) as [c| |] eqn:E; [| |discriminate].
    + destruct (IH _ _ H) as (new & -> & Hf & Hlen & _).
      exists (c :: new). rewrite <- app_assoc. cbn.
      repeat split.
      * constructor; [eapply processRow_filled, E | exact Hf].
      * lia.
      * discriminate.
      * intros Hall. specialize (Hall row (or_introl eq_refl)). congruence.
    + destruct (IH _ _ H) as (new & -> & Hf & Hlen & Hnil).
      exists new. repeat split; try assumption.
      * simpl. lia.
      * intros Hn row' [<- | Hin]; [exact E | now apply Hnil].
      * intros Hall. apply Hnil. intros row' Hin. apply Hall. now right.
Qed.

End Submission.

(** X22.  What [processExcelFile] submits is never empty and never longer
    than the sheet has rows, and every record in it has a name, a contact,
    an email address, a phone, an industry, a location, a revenue and a
    status that are not empty.  It fails with "No valid company data found
    in file" when the mapping completes and every row is dropped. *)
Theorem processExcelFile_submits_filled_records :
  forall today headers rows,
    match ImportExcel.processExcelFile today headers rows with
    | ImportExcel.Submitted l =>
        l <> [] /\ (length l <= length rows)%nat /\ Forall filled l
    | ImportExcel.Failed _ => True
    end
    /\ (rows <> [] ->
        (forall row,
            In row rows ->
            ImportExcel.processRow today
              (ImportExcel.normalizeHeaders headers) row
            = ImportExcel.Dropped) ->
        ImportExcel.processExcelFile today headers rows
        = ImportExcel.Failed "No valid company data found in file").
Proof.
  intros today headers rows. unfold ImportExcel.processExcelFile. split.
  - destruct rows as [|row rows]; [exact I|].
    destruct (ImportExcel.processRows today _ (row :: rows) [])
      as [l|] eqn:E; [|exact I].
    destruct (processRows_spec _ _ _ _ _ E) as (new & -> & Hf & Hlen & _).
    cbn [app]. destruct new as [|c new]; [exact I|].
    split; [discriminate|]. split; assumption.
  - intros Hne Hall. destruct rows as [|row rows]; [contradiction|].
    destruct (ImportExcel.processRows today _ (row :: rows) [])
      as [l|] eqn:E.
    + destruct (processRows_spec _ _ _ _ _ E) as (new & -> & _ & _ & Hnil).
      now rewrite (proj2 Hnil Hall).
    + exfalso. clear Hne. revert E. generalize (@nil InsertCompany).
      induction (row :: rows) as [|r rs IH]; intros acc E; simpl in E.
      * discriminate.
      * rewrite (Hall r (or_introl eq_refl)) in E.
        apply (IH (fun x Hx => Hall x (or_intror Hx)) acc E).
Qed.

(** A sheet whose only row has no email address. *)
Lemma processExcelFile_submits_filled_records_witness :
  ImportExcel.processExcelFile "2024-01-31"
    ["name"%string; "contact"%string; "email"%string]
    [[ImportExcel.CString "A"; ImportExcel.CString "B"]]
  = ImportExcel.Failed "No valid company data found in file".
Proof.
  apply (proj2 (processExcelFile_submits_filled_records "2024-01-31"
                  ["name"%string; "contact"%string; "email"%string]
                  [[ImportExcel.CString "A"; ImportExcel.CString "B"]])).
  - discriminate.
  - intros row [<- | []]. reflexivity.
Defined.

(** ** The two stores side by side *)

Section StoresAgree.
Import Db.
Open Scope string_scope.

Lemma insertDesc_last c s :
  Forall (fun d => id c < id d) s -> insertDesc c s = (s ++ [c])%list.
Proof.
  induction 1 as [|d s Hd _ IH]; simpl; [reflexivity|].
  destruct (Z.leb_spec (id d) (id c)); [lia | now rewrite IH].
Qed.

Lemma orderByIdDesc_ascending l :
  ascendingIds l -> orderByIdDesc l = rev l.
Proof.
  unfold ascendingIds.
  induction l as [|x l IH]; intros H; [reflexivity|].
  simpl in H. apply StronglySorted_inv in H. destruct H as [Hs Hx].
  change (orderByIdDesc (x :: l)) with (insertDesc x (orderByIdDesc l)).
  rewrite (IH Hs). simpl. apply insertDesc_last.
  rewrite Forall_forall. intros d Hd. apply in_rev in Hd.
  rewrite Forall_forall in Hx. apply Hx. now apply in_map.
Qed.

Lemma selectPage_window cond (limit offset : Z) db :
  DatabaseStorage.wf db = true ->
  0 <= limit <= 9223372036854775807 ->
  0 <= offset <= 9223372036854775807 ->
  selectPage cond limit offset db
  = Some (window offset limit (rev (filter cond (rows db)))).
Proof.
  intros Hwf Hl Ho. rewrite selectPage_counts by assumption.
  rewrite orderByIdDesc_ascending; [reflexivity|].
  apply sorted_ids_filter, wf_rows_ascending, Hwf.
Qed.

Lemma ilike_any pattern text :
  ilike (String "%" pattern) text
  = (ilike pattern text
     || match text with
        | EmptyString => false
        | String _ text' => ilike (String "%" pattern) text'
        end)%bool.
Proof. destruct text; reflexivity. Qed.

Lemma ilike_literal c pattern text :
  wildcardFree (String c EmptyString) = true ->
  ilike (String c pattern) text
  = match text with
    | EmptyString => false
    | String d text' =>
        (Ascii.eqb (JS.lowerChar c) (JS.lowerChar d)
         && ilike pattern text')%bool
    end.
Proof.
  cbn [wildcardFree]. rewrite !andb_true_iff, !negb_true_iff.
  intros [[[H1 H2] H3] _]. cbn [ilike]. now rewrite H1, H2, H3.
Qed.

Lemma ilike_percent text : ilike "%" text = true.
Proof.
  induction text as [|c text IH]; rewrite ilike_any; [reflexivity|].
  rewrite IH. apply orb_true_r.
Qed.

Lemma ilike_prefix query : forall text,
  wildcardFree query = true ->
  ilike (query ++ "%") text
  = JS.startsWith (JS.toLowerCase text) (JS.toLowerCase query).
Proof.
  induction query as [|c query IH]; intros text H.
  - change (EmptyString ++ "%") with "%".
    rewrite (ilike_percent text). now destruct text.
  - cbn [wildcardFree] in H. apply andb_true_iff in H. destruct H as [Hc Hq].
    change (String c query ++ "%") with (String c (query ++ "%")).
    rewrite ilike_literal by (cbn [wildcardFree]; now rewrite Hc).
    destruct text as [|d text]; [reflexivity|].
    cbn [JS.toLowerCase JS.startsWith]. now rewrite IH.
Qed.

Lemma ilike_includes query text :
  wildcardFree query = true ->
  ilike ("%" ++ query ++ "%") text
  = JS.includes (JS.toLowerCase text) (JS.toLowerCase query).
Proof.
  intros H. change ("%" ++ query ++ "%") with (String "%" (query ++ "%")).
  induction text as [|c text IH]; rewrite ilike_any, includes_unfold,
    (ilike_prefix _ _ H); cbn [JS.toLowerCase].
  - now destruct (JS.startsWith _ _).
  - rewrite IH. now destruct (JS.startsWith _ _).
Qed.

Lemma searchCondition_plain query row :
  wildcardFree query = true ->
  DatabaseStorage.searchCondition query row
  = matchesQuery (JS.toLowerCase query) row.
Proof.
  intros H. unfold DatabaseStorage.searchCondition, matchesQuery.
  now rewrite !(ilike_includes _ _ H).
Qed.

End StoresAgree.

(** X23.  On a table that calls of the store have built, a page of
    [DatabaseStorage.getCompanies] with a page number of at least 1, a
    page size that is not negative and an offset
    [(page - 1) * pageSize] that is a safe integer is the window of that
    page over the rows taken from the newest to the oldest, and [total] is
    the number of rows. *)
Theorem getCompanies_db_window_newest_first :
  forall (db : DatabaseStorage.t) (page pageSize : Z),
    DatabaseStorage.wf db = true ->
    1 <= page -> 0 <= pageSize ->
    JS.isSafeInteger (page - 1) = true ->
    JS.isSafeInteger pageSize = true ->
    JS.isSafeInteger ((page - 1) * pageSize) = true ->
    DatabaseStorage.getCompanies page pageSize db
    = Some (mkPage
              (window ((page - 1) * pageSize) pageSize (rev (Db.rows db)))
              (Z.of_nat (length (Db.rows db)))).
Proof.
  intros db page pageSize Hwf Hp Hs Hp1 Hs1 Ho.
  unfold DatabaseStorage.getCompanies. rewrite (offset_safe _ _ Hp1 Ho).
  apply isSafeInteger_spec in Hs1, Ho.
  rewrite selectPage_window by (try assumption; nia).
  rewrite count_all. now rewrite (filter_all (fun _ => true)).
Qed.

(** X24.  For a query of ASCII characters without [%], [_] and backslash,
    over records whose searched fields are ASCII texts, the persistent
    store selects the records the in-memory store selects: on the same
    records, and at a page of at least 1 with a page size that is not
    negative and a safe offset, [DatabaseStorage.searchCompanies] answers
    the total of [MemStorage.searchCompanies] and the window of the page
    over the matching records taken from the newest to the oldest. *)
Theorem searchCompanies_db_agrees_without_wildcards :
  forall (query : string) (db : DatabaseStorage.t) (this : MemStorage.t)
         (page pageSize : Z),
    wildcardFree query = true ->
    asciiText query = true ->
    forallb asciiFields (records this) = true ->
    DatabaseStorage.wf db = true ->
    Db.rows db = records this ->
    1 <= page -> 0 <= pageSize ->
    JS.isSafeInteger (page - 1) = true ->
    JS.isSafeInteger pageSize = true ->
    JS.isSafeInteger ((page - 1) * pageSize) = true ->
    DatabaseStorage.searchCompanies query page pageSize db
    = Some (mkPage
              (window ((page - 1) * pageSize) pageSize
                 (rev (filter (matchesQuery (JS.toLowerCase query))
                         (records this))))
              (total (MemStorage.searchCompanies query page pageSize this))).
Proof.
  intros query db this page pageSize Hq Hascii _ Hwf Hrows Hp Hs Hp1 Hs1 Ho.
  unfold DatabaseStorage.searchCompanies.
  assert (Db.text query = true) as ->.
  { clear - Hascii. induction query as [|c q IH]; [reflexivity|].
    cbn [asciiText Db.text] in *. apply andb_true_iff in Hascii.
    destruct Hascii as [Hc Hq]. rewrite (IH Hq), andb_true_r.
    destruct (Ascii.eqb_spec c "000") as [->|]; [discriminate Hc|].
    reflexivity. }
  rewrite (offset_safe _ _ Hp1 Ho).
  apply isSafeInteger_spec in Hs1, Ho.
  rewrite selectPage_window by (try assumption; nia).
  unfold Db.count. rewrite Hrows.
  rewrite (filter_ext _ _ (fun row => searchCondition_plain query row Hq)).
  reflexivity.
Qed.

(** The first page of two over the table seeded with the sample records. *)
Lemma getCompanies_db_window_newest_first_witness :
  DatabaseStorage.getCompanies 1 2
    (snd (DatabaseStorage.createManyCompanies
            MemStorage.sampleCompanies Db.empty))
  = Some (mkPage
            (window ((1 - 1) * 2) 2
               (rev (Db.rows
                       (snd (DatabaseStorage.createManyCompanies
                               MemStorage.sampleCompanies Db.empty)))))
            (Z.of_nat
               (length
                  (Db.rows
                     (snd (DatabaseStorage.createManyCompanies
                             MemStorage.sampleCompanies Db.empty)))))).
Proof.
  apply (getCompanies_db_window_newest_first
           (snd (DatabaseStorage.createManyCompanies
                   MemStorage.sampleCompanies Db.empty)) 1 2);
    reflexivity || lia.
Defined.

(** The query "tech" on the sample records, in both stores. *)
Lemma searchCompanies_db_agrees_without_wildcards_witness :
  DatabaseStorage.searchCompanies "tech" 1 10
    (snd (DatabaseStorage.createManyCompanies
            MemStorage.sampleCompanies Db.empty))
  = Some (mkPage
            (window ((1 - 1) * 10) 10
               (rev (filter (matchesQuery (JS.toLowerCase "tech"))
                       (records MemStorage.constructor))))
            (total (MemStorage.searchCompanies "tech" 1 10
                      MemStorage.constructor))).
Proof.
  apply (searchCompanies_db_agrees_without_wildcards "tech"
           (snd (DatabaseStorage.createManyCompanies
                   MemStorage.sampleCompanies Db.empty))
           MemStorage.constructor 1 10);
    reflexivity || lia.
Defined.

(** ** Numbers in the text of a request *)

Section NumberText.
Import ImportExcel Routes.

Lemma parseDigits_digit c v t a :
  digitValue c = Some v -> v < 10 ->
  parseDigits 10 (String c t) (Some a)
  = parseDigits 10 t (Some (a * 10 + v)).
Proof.
  intros Hc Hv. cbn [parseDigits spread]. rewrite Hc.
  destruct (Z.ltb_spec v 10); [reflexivity | lia].
Qed.

Lemma parseDigits_acc d : forall acc : positive,
  parseDigits 10 (NilEmpty.string_of_uint d) (Some (Z.pos acc))
  = Some (Z.pos (Pos.of_uint_acc d acc)).
Proof.
  pose proof parseDigits_digit as step.
  induction d; intros acc; cbn [NilEmpty.string_of_uint Pos.of_uint_acc];
    [ reflexivity
    | rewrite (step _ 0) | rewrite (step _ 1) | rewrite (step _ 2)
    | rewrite (step _ 3) | rewrite (step _ 4) | rewrite (step _ 5)
    | rewrite (step _ 6) | rewrite (step _ 7) | rewrite (step _ 8)
    | rewrite (step _ 9) ];
    try reflexivity; rewrite <- IHd; apply f_equal, f_equal; lia.
Qed.

Lemma parseDigits_zero d :
  parseDigits 10 (NilEmpty.string_of_uint d) (Some 0)
  = Some (Z.of_N (Pos.of_uint d)).
Proof.
  induction d; cbn [NilEmpty.string_of_uint Pos.of_uint];
    [reflexivity | exact IHd |..]; apply (parseDigits_acc d).
Qed.

Lemma parseDigits_uint d :
  d <> Decimal.Nil ->
  parseDigits 10 (NilEmpty.string_of_uint d) None
  = Some (Z.of_N (Pos.of_uint d)).
Proof.
  destruct d; intros Hd; [contradiction | apply (parseDigits_zero d) |..];
    apply (parseDigits_acc d).
Qed.

Lemma parseUnsigned_uint d :
  d <> Decimal.Nil ->
  parseUnsigned (NilEmpty.string_of_uint d)
  = Some (Z.of_N (Pos.of_uint d)).
Proof.
  intros Hd. rewrite <- (parseDigits_uint d Hd).
  destruct d as [|d|d|d|d|d|d|d|d|d|d]; [contradiction|..];
    try reflexivity.
  destruct d; reflexivity.
Qed.

Lemma parseSigned_uint d :
  d <> Decimal.Nil ->
  parseSigned (NilEmpty.string_of_uint d) = Some (Z.of_N (Pos.of_uint d)).
Proof.
  intros Hd. rewrite <- (parseUnsigned_uint d Hd).
  destruct d; [contradiction | reflexivity ..].
Qed.

Lemma to_uint_nonnil p : Pos.to_uint p <> Decimal.Nil.
Proof.
  intros E. pose proof (Unsigned.of_to p) as H. rewrite E in H.
  discriminate.
Qed.

Lemma string_of_uint_nonnil d :
  d <> Decimal.Nil -> NilZero.string_of_uint d = NilEmpty.string_of_uint d.
Proof. destruct d; [contradiction | reflexivity ..]. Qed.

(** [parseInt] finds in the decimal digits of an integer that integer. *)
Lemma parseSigned_decimal n : parseSigned (JS.decimal n) = Some n.
Proof.
  unfold JS.decimal.
  destruct n as [|p|p]; cbn [Z.to_int NilZero.string_of_int].
  - reflexivity.
  - rewrite string_of_uint_nonnil, parseSigned_uint, Unsigned.of_to
      by apply to_uint_nonnil. reflexivity.
  - rewrite string_of_uint_nonnil by apply to_uint_nonnil.
    change (parseSigned (String "-" ?s))
      with (option_map Z.opp (parseUnsigned s)).
    rewrite parseUnsigned_uint, Unsigned.of_to by apply to_uint_nonnil.
    reflexivity.
Qed.

(** A safe integer is written with all its digits. *)
Lemma numberToString_safe n :
  JS.isSafeInteger n = true -> JS.numberToString (JS.Num n) = JS.decimal n.
Proof.
  intros H. apply isSafeInteger_spec in H.
  destruct n as [|p|p]; cbn [JS.numberToString]; [reflexivity| |];
    unfold JS.positiveToString;
    (destruct (Z.ltb_spec (Z.pos p) (2 ^ 53)); [reflexivity | lia]).
Qed.

Lemma parseInt_toString n :
  JS.isSafeInteger n = true -> parseInt (toString (CNumber n)) = JS.Num n.
Proof.
  intros H. unfold parseInt. cbn [toString].
  rewrite (ofZ_safe _ H), (numberToString_safe _ H), parseSigned_decimal.
  now apply ofZ_safe.
Qed.

(** The page of a list at page numbers whose products are safe, whatever
    their signs. *)
Lemma pageOf_exact (l : list Company) (p s : Z) :
  JS.isSafeInteger (p - 1) = true ->
  JS.isSafeInteger ((p - 1) * s) = true ->
  JS.isSafeInteger ((p - 1) * s + s) = true ->
  pageOf l p s
  = mkPage (JS.slice l ((p - 1) * s) ((p - 1) * s + s))
      (Z.of_nat (length l)).
Proof.
  intros Hp Ho He. unfold pageOf.
  rewrite (sub_safe _ _ Hp), (mul_safe _ _ Ho), (add_safe _ _ He).
  reflexivity.
Qed.

(** X25.  A number put into the text of a request comes out of it
    unchanged: [parseInt] reads the text [String] writes for a safe
    integer back as that integer.  So the page and the page size the table
    sends, when neither is zero and their products are safe integers, are
    the ones the store is asked for, and the identifier in the path of a
    [DELETE] is the one the store removes. *)
Theorem request_numbers_read_back :
  (forall n : Z,
      JS.isSafeInteger n = true ->
      ImportExcel.parseInt (ImportExcel.toString (ImportExcel.CNumber n))
      = JS.Num n)
  /\ (forall (page pageSize : Z) (this : MemStorage.t),
        JS.isSafeInteger page = true ->
        JS.isSafeInteger pageSize = true ->
        JS.isSafeInteger (page - 1) = true ->
        JS.isSafeInteger ((page - 1) * pageSize) = true ->
        JS.isSafeInteger ((page - 1) * pageSize + pageSize) = true ->
        page <> 0 -> pageSize <> 0 ->
        Routes.listCompanies
          (Some (Routes.QString
                   (ImportExcel.toString (ImportExcel.CNumber page))))
          (Some (Routes.QString
                   (ImportExcel.toString (ImportExcel.CNumber pageSize))))
          None this
        = Routes.mkResponse 200
            (Routes.PPage (MemStorage.getCompanies page pageSize this)))
  /\ (forall (k : Z) (this : MemStorage.t),
        JS.isSafeInteger k = true ->
        snd (Routes.removeCompany
               (ImportExcel.toString (ImportExcel.CNumber k)) this)
        = snd (MemStorage.deleteCompany k this)).
Proof.
  split; [|split].
  - intros n H. now apply parseInt_toString.
  - intros page pageSize this Hp Hs Hp1 Ho He Hp0 Hs0.
    unfold Routes.listCompanies, Routes.parseParam, Routes.queryText.
    rewrite !parseInt_toString by assumption. unfold Routes.orElse.
    cbn [JS.truthyNumber].
    destruct (Z.eqb_spec page 0); [contradiction|].
    destruct (Z.eqb_spec pageSize 0); [contradiction|]. cbn [negb].
    cbn [Routes.getCompanies Routes.memStorage].
    now rewrite (pageOf_exact _ _ _ Hp1 Ho He).
  - intros k this Hk. unfold Routes.removeCompany.
    rewrite (parseInt_toString _ Hk).
    cbn [Routes.deleteCompany Routes.memStorage].
    now destruct (MemStorage.deleteCompany k this) as [[|] this'].
Qed.

(** Page 2 of size 2, and the identifier 3. *)
Lemma request_numbers_read_back_witness :
  ImportExcel.parseInt "3" = JS.Num 3
  /\ Routes.listCompanies (Some (Routes.QString "2"))
       (Some (Routes.QString "2")) None MemStorage.constructor
     = Routes.mkResponse 200
         (Routes.PPage (MemStorage.getCompanies 2 2 MemStorage.constructor)).
Proof.
  split.
  - apply (proj1 request_numbers_read_back 3). reflexivity.
  - apply (proj1 (proj2 request_numbers_read_back) 2 2
             MemStorage.constructor);
      reflexivity || lia.
Defined.

End NumberText.

(** ** Clicks on the company table *)

Section TableClicks.
Import DataTable.

Lemma rowChecked_In selectedIds c :
  rowChecked selectedIds c = true <-> In (id c) selectedIds.
Proof.
  unfold rowChecked. rewrite existsb_exists. split.
  - intros (x & Hx & E). apply Z.eqb_eq in E. now subst x.
  - intros Hin. exists (id c). split; [exact Hin | apply Z.eqb_refl].
Qed.

Lemma filter_drops_one k (l : list Z) :
  In k l ->
  (length (filter (fun x => negb (x =? k)%Z) l) < length l)%nat.
Proof.
  induction l as [|x l IH]; intros Hin; [contradiction|].
  cbn [filter]. destruct (Z.eqb_spec x k); cbn [negb length].
  - pose proof (filter_length_le (fun x => negb (x =? k)) l). lia.
  - destruct Hin as [-> | Hin]; [contradiction|]. specialize (IH Hin). lia.
Qed.

(** X26.  Every link the pager shows leads to the page it names: with the
    current page between 1 and the number of pages, a click on a numbered
    link is accepted by [handlePageChange] and makes that number the
    page.  A click on Previous or Next moves one page and stops at the
    first and at the last page. *)
Theorem pager_links_lead_to_their_page :
  forall page total,
    1 <= page <= total ->
    (forall n,
        In n (linked (generatePaginationItems page total)) ->
        1 <= n <= total /\ handlePageChange n page total = n)
    /\ handlePageChange (page - 1) page total = Z.max 1 (page - 1)
    /\ handlePageChange (page + 1) page total = Z.min total (page + 1).
Proof.
  intros page total Hp. split; [|split].
  - intros n Hn.
    assert (1 <= n <= total) as Hb.
    { rewrite linked_items in Hn.
      pose proof (pager_bounds page total Hp) as (Hs & _ & He & _).
      destruct (range_spec (startPage page total) (endPage page total))
        as (_ & Hr & _).
      rewrite Forall_forall in Hr.
      apply in_app_or in Hn. destruct Hn as [Hn | Hn].
      - destruct (1 <? startPage page total); [|contradiction].
        destruct Hn as [<- | []]. lia.
      - apply in_app_or in Hn. destruct Hn as [Hn | Hn].
        + specialize (Hr n Hn). lia.
        + destruct (endPage page total <? total); [|contradiction].
          destruct Hn as [<- | []]. lia. }
    split; [exact Hb|]. unfold handlePageChange.
    destruct (Z.leb_spec 1 n); [|lia].
    destruct (Z.leb_spec n total); [reflexivity | lia].
  - unfold handlePageChange.
    destruct (Z.leb_spec 1 (page - 1)), (Z.leb_spec (page - 1) total);
      cbn [andb]; lia.
  - unfold handlePageChange.
    destruct (Z.leb_spec 1 (page + 1)), (Z.leb_spec (page + 1) total);
      cbn [andb]; lia.
Qed.

(** Page 1 of 9: the link to the last page, and Previous. *)
Lemma pager_links_lead_to_their_page_witness :
  handlePageChange 9 1 9 = 9 /\ handlePageChange (1 - 1) 1 9 = 1.
Proof.
  destruct (pager_links_lead_to_their_page 1 9 ltac:(lia)) as (H & Hprev & _).
  split; [|exact Hprev].
  apply (H 9). vm_compute. tauto.
Defined.

(** X27.  The check box in the header compares numbers only.  After
    "select all" on a page with rows, the header and every row are
    checked, and unchecking one row unchecks the header.  But the
    selection is kept when the page changes: on another page with as many
    rows the header is still shown checked although no row of it is
    selected. *)
Theorem selectAll_header_compares_counts :
  (forall companies,
      companies <> [] ->
      selectAllChecked (handleSelectAll true companies) companies = true
      /\ (forall c,
            In c companies ->
            rowChecked (handleSelectAll true companies) c = true))
  /\ (forall companies c,
        In c companies ->
        let selectedIds :=
          handleSelectRow (id c) false (handleSelectAll true companies) in
        selectAllChecked selectedIds companies = false
        /\ rowChecked selectedIds c = false)
  /\ (forall shown other,
        shown <> [] ->
        length other = length shown ->
        (forall c d, In c shown -> In d other -> id c <> id d) ->
        selectAllChecked (handleSelectAll true other) shown = true
        /\ (forall c,
              In c shown ->
              rowChecked (handleSelectAll true other) c = false)).
Proof.
  split; [|split].
  - intros companies Hne. split.
    + unfold selectAllChecked, handleSelectAll. rewrite length_map.
      rewrite Nat.eqb_refl. destruct companies; [contradiction|reflexivity].
    + intros c Hc. apply rowChecked_In. cbn [handleSelectAll].
      now apply in_map.
  - intros companies c Hc selectedIds. subst selectedIds.
    cbn [handleSelectAll handleSelectRow]. split.
    + unfold selectAllChecked.
      pose proof (filter_drops_one (id c) (map id companies)
                    (in_map id _ _ Hc)) as Hlt.
      rewrite length_map in Hlt.
      destruct (Nat.eqb_spec
                  (length (filter (fun companyId => negb (companyId =? id c))
                             (map id companies)))
                  (length companies)); [lia | reflexivity].
    + apply not_true_is_false. rewrite rowChecked_In, filter_In.
      intros [_ E]. now rewrite Z.eqb_refl in E.
  - intros shown other Hne Hlen Hdis. split.
    + unfold selectAllChecked, handleSelectAll.
      rewrite length_map, Hlen, Nat.eqb_refl.
      destruct shown; [contradiction | reflexivity].
    + intros c Hc. apply not_true_is_false. rewrite rowChecked_In.
      cbn [handleSelectAll]. rewrite in_map_iff.
      intros (d & E & Hd). now apply (Hdis c d Hc Hd).
Qed.

(** The three sample records selected, then three others shown. *)
Lemma selectAll_header_compares_counts_witness :
  selectAllChecked (handleSelectAll true MockData.seed)
    (map (fun c : Company => mkCompany (id c + 3) c) MockData.seed)
  = true.
Proof.
  apply (proj2 (proj2 selectAll_header_compares_counts)
           (map (fun c : Company => mkCompany (id c + 3) c) MockData.seed)
           MockData.seed).
  - discriminate.
  - reflexivity.
  - intros c d Hc Hd. vm_compute in Hc, Hd.
    intuition (subst; discriminate).
Defined.

End TableClicks.
